(** * Wall-E serial actuator bridge: a shallow embedding

    The development embeds the two programs of the [wall_e_control]
    package that talk to the Arduino over a serial line:

    - [ros2_arduino_bridge.py] ([Module Bridge]): the [cmd_vel] subscriber
      that turns a [Twist] message into the two drive commands [Y..] and
      [X..];
    - [servo_control_ui.py] ([Module UI]): the keyboard program that keeps a
      dictionary of servo positions and sends one command per change.

    Two smaller pieces follow them: the position bar that [print_status]
    draws ([Module Display]) and [count_fingers] of the gesture controller
    [hand_gesture_drone_controller.py] ([Module Gesture]).

    Python values are modelled as the code has them: [int] as [Z], [float]
    as an IEEE-754 binary64 value ([spec_float] with [prec = 53] and
    [emax = 1024]), [str] as [string], a [dict] as an association list in
    insertion order.  The serial port, the logger, [time.sleep] and [rclpy]
    are effects: every call appends an event to a trace, and every call on
    the serial port consumes one reply of a script that stands for the
    device, so that a [SerialException] can be injected at any call. *)

From Stdlib Require Import ZArith Lia List Bool Ascii String.
From Stdlib Require Import DecimalString DecimalFacts DecimalZ DecimalPos.
From Stdlib Require Import Floats.SpecFloat.
Import ListNotations.

Local Open Scope string_scope.
Local Open Scope list_scope.
Local Open Scope Z_scope.

(** ** Python primitives *)

Module Py.

(** [str(n)] for an [int], as used by the f-strings [f'Y{linear}\n'] and
    [f'{command_char}{position}\n']. *)
Definition str_of_int (n : Z) : string :=
  NilZero.string_of_int (Z.to_int n).

(** The line feed. *)
Definition LF : ascii := Ascii.ascii_of_nat 10.
Definition ESC : ascii := Ascii.ascii_of_nat 27.
Definition newline : string := String LF EmptyString.

(** [max(lo, min(hi, v))]. *)
Definition clamp (lo hi v : Z) : Z := Z.max lo (Z.min hi v).

(** Exceptions that the modelled code can see. *)
Inductive exn : Type :=
| SerialException (msg : string)
| ValueError (msg : string)
| OverflowError (msg : string)
| KeyError (key : string)
| IndexError (msg : string)
| UnicodeDecodeError
| KeyboardInterrupt.

(** [isinstance(e, Exception)]: [KeyboardInterrupt] derives from
    [BaseException] only. *)
Definition is_Exception (e : exn) : bool :=
  match e with
  | KeyboardInterrupt => false
  | _ => true
  end.

Definition is_SerialException (e : exn) : bool :=
  match e with
  | SerialException _ => true
  | _ => false
  end.

(** *** binary64 *)

Definition prec : Z := 53.
Definition emax : Z := 1024.
Definition float : Type := spec_float.

(** [x * y] on two floats, rounded to nearest even. *)
Definition fmul (x y : float) : float := SFmul prec emax x y.

(** The conversion of an [int] operand to [float] that [float * int]
    performs (correctly rounded; every integer up to [2^53] is exact).
    An [int] beyond the largest float raises [OverflowError]. *)
Definition float_of_int (n : Z) : exn + float :=
  match binary_normalize prec emax n 0 false with
  | S754_infinity _ => inl (OverflowError "int too large to convert to float")
  | f => inr f
  end.

(** [float * int]. *)
Definition fmul_int (x : float) (n : Z) : exn + float :=
  match float_of_int n with
  | inl e => inl e
  | inr y => inr (fmul x y)
  end.

(** [int(f)] for a float: truncation toward zero; [nan] and the infinities
    raise. *)
Definition int_of_float (f : float) : exn + Z :=
  match f with
  | S754_zero _ => inr 0
  | S754_finite s m e =>
      let a := if 0 <=? e then Z.shiftl (Zpos m) e
               else Z.shiftr (Zpos m) (- e) in
      inr (if s then - a else a)
  | S754_infinity _ =>
      inl (OverflowError "cannot convert float infinity to integer")
  | S754_nan => inl (ValueError "cannot convert float NaN to integer")
  end.

(** A float that a [float64] message field can hold. *)
Definition is_float64 (f : float) : bool := valid_binary prec emax f.

Definition fleb (x y : float) : bool := SFleb x y.

(** Some literals. *)
Definition f_1_0 : float := S754_finite false 4503599627370496 (-52).
Definition f_m1_0 : float := S754_finite true 4503599627370496 (-52).
Definition f_0_5 : float := S754_finite false 4503599627370496 (-53).
Definition f_m0_5 : float := S754_finite true 4503599627370496 (-53).
Definition f_0_0 : float := S754_zero false.

(** [-1.0 <= x <= 1.0]. *)
Definition in_unit_range (x : float) : bool :=
  fleb f_m1_0 x && fleb x f_1_0.

(** *** str, list and dict *)

(** [sub in s] on two strings: the substring test. *)
Fixpoint str_in (sub s : string) : bool :=
  match s with
  | EmptyString => String.prefix sub EmptyString
  | String _ s' => String.prefix sub s || str_in sub s'
  end.

(** [c.isspace()] below code point 128. *)
Definition is_space (c : ascii) : bool :=
  let n := Z.of_nat (nat_of_ascii c) in
  ((9 <=? n) && (n <=? 13)) || ((28 <=? n) && (n <=? 32)).

Fixpoint lstrip (s : string) : string :=
  match s with
  | EmptyString => EmptyString
  | String c s' => if is_space c then lstrip s' else s
  end.

Fixpoint rstrip (s : string) : string :=
  match s with
  | EmptyString => EmptyString
  | String c s' =>
      match rstrip s' with
      | EmptyString => if is_space c then EmptyString else String c EmptyString
      | t => String c t
      end
  end.

(** [s.strip()]. *)
Definition strip (s : string) : string := rstrip (lstrip s).

Definition digit_of (c : ascii) : option Z :=
  let n := Z.of_nat (nat_of_ascii c) in
  if (48 <=? n) && (n <=? 57) then Some (n - 48) else None.

Fixpoint digits_value (s : string) (acc : Z) : option Z :=
  match s with
  | EmptyString => Some acc
  | String c s' =>
      match digit_of c with
      | Some d => digits_value s' (10 * acc + d)
      | None => None
      end
  end.

(** [int(s)] on the strings that reach it in [run], which are substrings of
    ['1234567']: a non-empty string of digits is its value, the empty
    string raises [ValueError]. *)
Definition int_of_str (s : string) : exn + Z :=
  match s with
  | EmptyString =>
      inl (ValueError "invalid literal for int() with base 10: ''")
  | _ =>
      match digits_value s 0 with
      | Some n => inr n
      | None => inl (ValueError "invalid literal for int() with base 10")
      end
  end.

(** [l[i]] on a list: a negative index counts from the end. *)
Definition list_index {A} (l : list A) (i : Z) : exn + A :=
  let len := Z.of_nat (List.length l) in
  let j := if i <? 0 then i + len else i in
  if (0 <=? j) && (j <? len)
  then match nth_error l (Z.to_nat j) with
       | Some a => inr a
       | None => inl (IndexError "list index out of range")
       end
  else inl (IndexError "list index out of range").

(** A [dict] with [str] keys, in insertion order. *)
Definition dict (V : Type) : Type := list (string * V).

Fixpoint dict_get {V} (k : string) (d : dict V) : option V :=
  match d with
  | [] => None
  | (k', v) :: d' => if String.eqb k k' then Some v else dict_get k d'
  end.

(** [d[k] = v]: an existing key keeps its place, a new key goes last. *)
Fixpoint dict_set {V} (k : string) (v : V) (d : dict V) : dict V :=
  match d with
  | [] => [(k, v)]
  | (k', v') :: d' =>
      if String.eqb k k' then (k', v) :: d' else (k', v') :: dict_set k v d'
  end.

Definition dict_keys {V} (d : dict V) : list string := map fst d.

(** [d[k]]. *)
Definition dict_item {V} (d : dict V) (k : string) : exn + V :=
  match dict_get k d with
  | Some v => inr v
  | None => inl (KeyError k)
  end.

End Py.

Import Py.

(** ** Effects: the serial port, the logger, the clock, the terminal *)

Module Eff.

Inductive level : Type := DEBUG | INFO | WARN | ERROR.

(** The calls made on the [serial.Serial] object. *)
Inductive serial_op : Type :=
| Open (port : string) (baud : Z)   (* serial.Serial(port, baud, timeout=1) *)
| ResetInput                        (* reset_input_buffer() *)
| ResetOutput                       (* reset_output_buffer() *)
| Write (data : string)             (* write(data.encode()); ASCII text *)
| Flush                             (* flush() *)
| InWaiting                         (* in_waiting *)
| Readline                          (* readline() *)
| Close.                            (* close() *)

(** What a run leaves behind, in program order. *)
Inductive event : Type :=
| Serial (op : serial_op)           (* the call returned *)
| SerialRaised (op : serial_op)     (* the call raised SerialException *)
| Sleep (ms : Z)                    (* time.sleep, in milliseconds *)
| Log (l : level) (msg : string)    (* self.get_logger().<level>(msg) *)
| Stdout (msg : string)             (* print(msg) *)
| Status (servo : string) (pos : Z) (all : list (string * Z))
                                    (* print_status() *)
| RestoreTerminal                   (* restore_terminal_settings() *)
| CreateSubscription (topic : string)
| RclpyInit
| RclpyShutdown
| NodeDestroyed.                    (* super().destroy_node() *)

(** What the device side answers to one call on the port. *)
Inductive reply : Type :=
| ROk                               (* the call succeeds, nothing to report *)
| RRaise (msg : string)             (* the call raises SerialException(msg) *)
| RInt (n : Z)                      (* value of in_waiting *)
| RLine (line : option string).     (* readline(): the text of the line, or
                                       [None] for bytes that do not decode *)

(** What the terminal delivers to [sys.stdin.read]. *)
Inductive input : Type :=
| Char (c : ascii)
| Sigint                            (* Ctrl-C while blocked in the read *)
| Eof.                              (* end of file: this read and every
                                       later one returns the empty string *)

(** The environment of a run: the replies still to come from the port (an
    exhausted script answers [ROk]), the terminal input still to come (a
    read on an exhausted input stays blocked), and [rclpy.ok()]. *)
Record world : Type := mkWorld {
  w_link : list reply;
  w_stdin : list input;
  w_ok : bool
}.

(** How a computation ends.  [Pending] is the end of the observation, not
    of the program: the program is blocked in a read that the given input
    does not serve, or has more loop iterations to go than were asked for.
    No handler and no [finally] clause runs on [Pending]. *)
Inductive outcome (A : Type) : Type :=
| Ret (a : A)
| Raise (e : exn)
| Pending.
Arguments Ret {A} a.
Arguments Raise {A} e.
Arguments Pending {A}.

Record res (S A : Type) : Type := mkRes {
  out : outcome A;
  st : S;
  evs : list event;
  env : world
}.
Arguments mkRes {S A} out st evs env.
Arguments out {S A} r.
Arguments st {S A} r.
Arguments evs {S A} r.
Arguments env {S A} r.

(** A computation of the object whose fields are [S]. *)
Definition M (S A : Type) : Type := S -> world -> res S A.

Definition ret {S A} (a : A) : M S A :=
  fun s w => mkRes (Ret a) s [] w.

Definition raise {S A} (e : exn) : M S A :=
  fun s w => mkRes (Raise e) s [] w.

Definition bind {S A B} (m : M S A) (k : A -> M S B) : M S B :=
  fun s w =>
    let r := m s w in
    match out r with
    | Ret a =>
        let r' := k a (st r) (env r) in
        mkRes (out r') (st r') (evs r ++ evs r') (env r')
    | Raise e => mkRes (Raise e) (st r) (evs r) (env r)
    | Pending => mkRes Pending (st r) (evs r) (env r)
    end.

Definition pending {S A} : M S A :=
  fun s w => mkRes Pending s [] w.

Definition emit {S} (ev : event) : M S unit :=
  fun s w => mkRes (Ret tt) s [ev] w.

Definition get {S} : M S S :=
  fun s w => mkRes (Ret s) s [] w.

Definition put {S} (s' : S) : M S unit :=
  fun _ w => mkRes (Ret tt) s' [] w.

Definition of_sum {S A} (x : exn + A) : M S A :=
  match x with
  | inl e => raise e
  | inr a => ret a
  end.

(** [try: body  except <those e with h e = Some k>: k]. *)
Definition try_except {S A} (body : M S A) (h : exn -> option (M S A))
  : M S A :=
  fun s w =>
    let r := body s w in
    match out r with
    | Ret _ | Pending => r
    | Raise e =>
        match h e with
        | None => r
        | Some k =>
            let r' := k (st r) (env r) in
            mkRes (out r') (st r') (evs r ++ evs r') (env r')
        end
    end.

(** [try: body  finally: fin]. *)
Definition try_finally {S A} (body : M S A) (fin : M S unit) : M S A :=
  fun s w =>
    let r := body s w in
    match out r with
    | Pending => r
    | _ =>
        let r' := fin (st r) (env r) in
        match out r' with
        | Ret _ => mkRes (out r) (st r') (evs r ++ evs r') (env r')
        | Raise e => mkRes (Raise e) (st r') (evs r ++ evs r') (env r')
        | Pending => mkRes Pending (st r') (evs r ++ evs r') (env r')
        end
    end.

(** Run a method of a freshly built object [s0] from a context that has no
    fields of its own. *)
Definition on_object {S A} (s0 : S) (m : M S A) : M unit A :=
  fun _ w =>
    let r := m s0 w in
    mkRes (out r) tt (evs r) (env r).

Definition next_reply (w : world) : reply * world :=
  match w_link w with
  | [] => (ROk, w)
  | r :: l => (r, mkWorld l (w_stdin w) (w_ok w))
  end.

(** One call on the serial port. *)
Definition serial {S} (op : serial_op) : M S reply :=
  fun s w =>
    let (r, w') := next_reply w in
    match r with
    | RRaise msg => mkRes (Raise (SerialException msg)) s [SerialRaised op] w'
    | _ => mkRes (Ret r) s [Serial op] w'
    end.

Definition sleep {S} (ms : Z) : M S unit := emit (Sleep ms).
Definition log {S} (l : level) (msg : string) : M S unit := emit (Log l msg).
Definition print {S} (msg : string) : M S unit := emit (Stdout msg).

Definition rclpy_init {S} : M S unit :=
  fun s w => mkRes (Ret tt) s [RclpyInit] (mkWorld (w_link w) (w_stdin w) true).

Definition rclpy_ok {S} : M S bool :=
  fun s w => mkRes (Ret (w_ok w)) s [] w.

(** [rclpy.shutdown()] shuts the context down; it calls no method of a
    node. *)
Definition rclpy_shutdown {S} : M S unit :=
  fun s w =>
    mkRes (Ret tt) s [RclpyShutdown] (mkWorld (w_link w) (w_stdin w) false).

(** [sys.stdin.read(1)]. *)
Definition read1 {S} : M S string :=
  fun s w =>
    match w_stdin w with
    | [] => mkRes Pending s [] w
    | Char c :: l =>
        mkRes (Ret (String c EmptyString)) s [] (mkWorld (w_link w) l (w_ok w))
    | Sigint :: l =>
        mkRes (Raise KeyboardInterrupt) s [] (mkWorld (w_link w) l (w_ok w))
    | Eof :: _ => mkRes (Ret EmptyString) s [] w
    end.

Declare Scope eff_scope.
Delimit Scope eff_scope with eff.
Notation "x <- c1 ;; c2" := (bind c1 (fun x => c2))
  (at level 100, c1 at next level, right associativity) : eff_scope.
Notation "c1 ;; c2" := (bind c1 (fun _ => c2))
  (at level 100, right associativity) : eff_scope.

End Eff.

Import Eff.
Local Open Scope eff_scope.

(** [str(e)] of an exception, as interpolated by [f'... {e}']. *)
Definition exn_text (e : exn) : string :=
  match e with
  | SerialException msg => msg
  | ValueError msg => msg
  | OverflowError msg => msg
  | KeyError key => ("'" ++ key ++ "'")%string
  | IndexError msg => msg
  | UnicodeDecodeError => "'utf-8' codec can't decode bytes"
  | KeyboardInterrupt => EmptyString
  end.

(** [f'{symbol}{value}\n']: the line written for one actuator command.
    Both programs build their commands with this f-string. *)
Definition command_line (symbol : string) (value : Z) : string :=
  (symbol ++ str_of_int value ++ newline)%string.

(** ** ros2_arduino_bridge.py *)

Module Bridge.

(** The two fields of [geometry_msgs.msg.Twist] that the callback reads. *)
Record Twist : Type := mkTwist {
  linear_x : float;
  angular_z : float
}.

(** The fields of [ArduinoBridge] ([self.serial] is the port of [Eff]). *)
Record ArduinoBridge : Type := mkBridge {
  max_speed : Z
}.

(** [ArduinoBridge.__init__]; the three arguments are the values of the
    parameters [serial_port], [baud_rate] and [max_speed]. *)
Definition init (port : string) (baud : Z) (max_speed : Z)
  : M unit ArduinoBridge :=
  try_except
    (serial (Open port baud) ;;
     sleep 2000 ;;
     log INFO ("Connected to Arduino on " ++ port)%string)
    (fun e =>
       match e with
       | SerialException msg =>
           Some (log ERROR ("Failed to connect to Arduino: " ++ msg)%string ;;
                 raise e)
       | _ => None
       end) ;;
  emit (CreateSubscription "cmd_vel") ;;
  log INFO "Arduino bridge node started" ;;
  ret (mkBridge max_speed).

(** [ArduinoBridge.cmd_vel_callback]. *)
Definition cmd_vel_callback (msg : Twist) : M ArduinoBridge unit :=
  self <- get ;;
  lx <- of_sum (fmul_int (linear_x msg) (max_speed self)) ;;
  linear <- of_sum (int_of_float lx) ;;
  az <- of_sum (fmul_int (angular_z msg) (max_speed self)) ;;
  angular <- of_sum (int_of_float az) ;;
  let linear := Z.max (-100) (Z.min 100 linear) in
  let angular := Z.max (-100) (Z.min 100 angular) in
  try_except
    (serial (Write (command_line "Y" linear)) ;;
     sleep 10 ;;
     serial (Write (command_line "X" angular)) ;;
     log DEBUG ("Sent: Y" ++ str_of_int linear ++ ", X"
                ++ str_of_int angular)%string)
    (fun e =>
       match e with
       | SerialException msg =>
           Some (log ERROR ("Serial write error: " ++ msg)%string)
       | _ => None
       end).

(** [ArduinoBridge.destroy_node]: the bare [except: pass] swallows every
    exception. *)
Definition destroy_node : M ArduinoBridge unit :=
  try_except
    (serial (Write ("Y0" ++ newline)%string) ;;
     serial (Write ("X0" ++ newline)%string) ;;
     serial Close ;;
     ret tt)
    (fun _ => Some (ret tt)) ;;
  emit NodeDestroyed.

(** How a spinning node comes to an end. *)
Inductive stop_cause : Type :=
| Interrupt          (* SIGINT: KeyboardInterrupt is raised inside spin *)
| SignalShutdown     (* SIGINT with the signal handler of rclpy installed:
                        the context is shut down, then KeyboardInterrupt is
                        raised inside spin *)
| ExternalShutdown.  (* the context is shut down from outside: spin returns
                        and rclpy.ok() is false *)

Definition context_shut_down {S} : M S unit :=
  fun s w => mkRes (Ret tt) s [] (mkWorld (w_link w) (w_stdin w) false).

(** [rclpy.spin(node)]: the executor hands every message of the topic to
    the callback until the node is stopped; an exception of the callback
    leaves [spin]. *)
Fixpoint spin (msgs : list Twist) (stop : stop_cause)
  : M ArduinoBridge unit :=
  match msgs with
  | msg :: rest => cmd_vel_callback msg ;; spin rest stop
  | [] =>
      match stop with
      | Interrupt => raise KeyboardInterrupt
      | SignalShutdown => context_shut_down ;; raise KeyboardInterrupt
      | ExternalShutdown => context_shut_down
      end
  end.

(** [main]. *)
Definition main (port : string) (baud : Z) (max_speed : Z)
  (msgs : list Twist) (stop : stop_cause) : M unit unit :=
  rclpy_init ;;
  try_finally
    (try_except
       (node <- init port baud max_speed ;;
        on_object node (spin msgs stop))
       (fun e =>
          match e with
          | KeyboardInterrupt => Some (ret tt)
          | _ =>
              if is_Exception e
              then Some (print ("Error: " ++ exn_text e)%string)
              else None
          end))
    (ok <- rclpy_ok ;;
     if (ok : bool) then rclpy_shutdown else ret tt).

End Bridge.

(** ** servo_control_ui.py *)

Module UI.

(** The fields of [ServoKeyboard] ([self.serial] is the port of [Eff];
    [self.settings], the saved terminal mode, is not modelled). *)
Record ServoKeyboard : Type := mkUI {
  positions : dict Z;
  servo_commands : dict string;
  current_servo : string;
  step_size : Z
}.

Definition initial_positions : dict Z :=
  [ ("head_rotation", 50); ("neck_top", 50); ("neck_bottom", 50);
    ("eye_right", 50); ("eye_left", 50); ("arm_left", 50);
    ("arm_right", 50) ].

Definition command_table : dict string :=
  [ ("head_rotation", "G"); ("neck_top", "T"); ("neck_bottom", "B");
    ("eye_right", "U"); ("eye_left", "E"); ("arm_left", "L");
    ("arm_right", "R") ].

Definition home_positions : dict Z :=
  [ ("head_rotation", 50); ("neck_top", 80); ("neck_bottom", 20);
    ("eye_right", 40); ("eye_left", 40); ("arm_left", 50);
    ("arm_right", 50) ].

(** The object as [__init__] leaves it. *)
Definition initial : ServoKeyboard :=
  mkUI initial_positions command_table "head_rotation" 5.

(** [self.positions[name] = value]. *)
Definition set_position (name : string) (value : Z) : M ServoKeyboard unit :=
  self <- get ;;
  put (mkUI (dict_set name value (positions self)) (servo_commands self)
         (current_servo self) (step_size self)).

(** [self.current_servo = name]. *)
Definition set_current (name : string) : M ServoKeyboard unit :=
  self <- get ;;
  put (mkUI (positions self) (servo_commands self) name (step_size self)).

(** [self.serial.in_waiting]. *)
Definition in_waiting {S} : M S Z :=
  r <- serial InWaiting ;;
  match r with
  | RInt n => ret n
  | _ => ret 0
  end.

(** [self.serial.readline().decode()]; without an answer the read times out
    and returns nothing. *)
Definition readline_decode {S} : M S string :=
  r <- serial Readline ;;
  match r with
  | RLine (Some line) => ret line
  | RLine None => raise UnicodeDecodeError
  | _ => ret EmptyString
  end.

(** [print_instructions]: the help text, as one event. *)
Definition print_instructions {S} : M S unit :=
  print "WALL-E SERVO CONTROL - KEYBOARD INTERFACE".

(** [print_status]: reads [self.positions[self.current_servo]] and lists
    every position. *)
Definition print_status : M ServoKeyboard unit :=
  self <- get ;;
  pos <- of_sum (dict_item (positions self) (current_servo self)) ;;
  emit (Status (current_servo self) pos (positions self)).

(** [test_connection]. *)
Definition test_connection {S} : M S unit :=
  log INFO "Testing Arduino connection..." ;;
  serial (Write ("G50" ++ newline)%string) ;;
  serial Flush ;;
  sleep 200 ;;
  n <- in_waiting ;;
  if n =? 0
  then log WARN "No response from Arduino - check connection!"
  else
    response <- readline_decode ;;
    log INFO ("Arduino echo: " ++ strip response)%string.

(** [ServoKeyboard.__init__]. *)
Definition init (port : string) (baud : Z) : M unit ServoKeyboard :=
  try_except
    (serial (Open port baud) ;;
     sleep 2000 ;;
     serial ResetInput ;;
     serial ResetOutput ;;
     log INFO ("Connected to Arduino on " ++ port)%string)
    (fun e =>
       match e with
       | SerialException msg =>
           Some (log ERROR ("Failed to connect to Arduino: " ++ msg)%string ;;
                 raise e)
       | _ => None
       end) ;;
  print_instructions ;;
  test_connection ;;
  ret initial.

(** [send_servo_command]. *)
Definition send_servo_command (servo_name : string) : M ServoKeyboard unit :=
  self <- get ;;
  command_char <- of_sum (dict_item (servo_commands self) servo_name) ;;
  position <- of_sum (dict_item (positions self) servo_name) ;;
  let command := command_line command_char position in
  try_except
    (serial ResetInput ;;
     log INFO ("Sending: " ++ strip command)%string ;;
     serial (Write command) ;;
     serial Flush ;;
     sleep 50 ;;
     n <- in_waiting ;;
     (if n =? 0 then ret tt
      else
        response <- readline_decode ;;
        log INFO ("Arduino: " ++ strip response)%string) ;;
     log INFO (servo_name ++ ": " ++ str_of_int position ++ "%")%string)
    (fun e =>
       match e with
       | SerialException msg =>
           Some (log ERROR ("Serial error: " ++ msg)%string)
       | _ => None
       end).

(** [for x in xs: body(x)]. *)
Fixpoint for_each {S A} (xs : list A) (body : A -> M S unit) : M S unit :=
  match xs with
  | [] => ret tt
  | x :: xs' => body x ;; for_each xs' body
  end.

(** [center_all_servos]. *)
Definition center_all_servos : M ServoKeyboard unit :=
  self <- get ;;
  for_each (dict_keys (positions self))
    (fun servo =>
       set_position servo 50 ;;
       send_servo_command servo ;;
       sleep 150) ;;
  log INFO "All servos centered".

(** [home_position]. *)
Definition home_position : M ServoKeyboard unit :=
  for_each home_positions
    (fun '(servo, pos) =>
       set_position servo pos ;;
       send_servo_command servo ;;
       sleep 150) ;;
  log INFO "Moved to home position".

(** [get_key]; switching the terminal to raw mode and back is not
    modelled. *)
Definition get_key {S} : M S string :=
  key <- read1 ;;
  if String.eqb key (String ESC EmptyString)
  then
    c1 <- read1 ;;
    c2 <- (if String.eqb c1 EmptyString then ret EmptyString else read1) ;;
    ret (String ESC (c1 ++ c2))%string
  else ret key.

Definition key_in (key : string) (keys : list string) : bool :=
  existsb (String.eqb key) keys.

(** [self.positions[self.current_servo] = f(self.positions[self.current_servo])],
    then [send_servo_command] and [print_status]: the common shape of the
    four stepping branches. *)
Definition step_current (f : Z -> Z) : M ServoKeyboard unit :=
  self <- get ;;
  old <- of_sum (dict_item (positions self) (current_servo self)) ;;
  set_position (current_servo self) (f old) ;;
  send_servo_command (current_servo self) ;;
  print_status.

(** One turn of the [while True] loop of [run] after [get_key]: [true] to
    go on, [false] for [break]. *)
Definition handle_key (key : string) : M ServoKeyboard bool :=
  self <- get ;;
  if str_in key "1234567" then
    let servo_list := dict_keys (positions self) in
    n <- of_sum (int_of_str key) ;;
    name <- of_sum (list_index servo_list (n - 1)) ;;
    set_current name ;;
    print_status ;;
    ret true
  else if String.eqb key "w" then
    step_current (fun p => Z.min 100 (p + step_size self)) ;; ret true
  else if String.eqb key "s" then
    step_current (fun p => Z.max 0 (p - step_size self)) ;; ret true
  else if key_in key ["+"; "="; "]"] then
    step_current (fun p => Z.min 100 (p + 1)) ;; ret true
  else if key_in key ["-"; "_"; "["] then
    step_current (fun p => Z.max 0 (p - 1)) ;; ret true
  else if String.eqb key "0" then
    center_all_servos ;; print_status ;; ret true
  else if String.eqb key "h" then
    home_position ;; print_status ;; ret true
  else if String.eqb key "r" then
    set_position (current_servo self) 50 ;;
    send_servo_command (current_servo self) ;;
    print_status ;;
    ret true
  else if String.eqb key "?" then
    print_instructions ;; print_status ;; ret true
  else if key_in key ["q"; "Q"; String ESC EmptyString] then
    print "Exiting Wall-E Servo Control..." ;; ret false
  else ret true.

(** The first [n] turns of the [while True] loop. *)
Fixpoint loop (n : nat) : M ServoKeyboard unit :=
  match n with
  | O => pending
  | S n' =>
      key <- get_key ;;
      continue <- handle_key key ;;
      if (continue : bool) then loop n' else ret tt
  end.

(** [run], observed for [n] turns of its loop. *)
Definition run (n : nat) : M ServoKeyboard unit :=
  print_status ;;
  try_finally
    (try_except (loop n)
       (fun e =>
          match e with
          | KeyboardInterrupt => Some (print "Exiting Wall-E Servo Control...")
          | _ => None
          end))
    (emit RestoreTerminal ;;
     serial Close ;;
     ret tt).

(** [ServoKeyboard.destroy_node]. *)
Definition destroy_node : M ServoKeyboard unit :=
  try_except
    (emit RestoreTerminal ;;
     serial Close ;;
     ret tt)
    (fun _ => Some (ret tt)) ;;
  emit NodeDestroyed.

(** [main], observed for [n] turns of the loop of [run]. *)
Definition main (port : string) (baud : Z) (n : nat) : M unit unit :=
  rclpy_init ;;
  try_finally
    (try_except
       (node <- init port baud ;;
        on_object node (run n))
       (fun e =>
          if is_Exception e
          then Some (print ("Error: " ++ exn_text e)%string)
          else None))
    (ok <- rclpy_ok ;;
     if (ok : bool) then rclpy_shutdown else ret tt).

End UI.

(** ** The wire format *)

Module Wire.

(** The command symbols with the range of the value each carries: the two
    drive channels of the bridge, clamped to [-100, 100], and the seven
    servo symbols of the keyboard program, kept in [0, 100]. *)
Definition table : list (string * (Z * Z)) :=
  [ ("Y", (-100, 100)); ("X", (-100, 100)) ]
  ++ map (fun entry => (snd entry, (0, 100))) UI.command_table.

(** [symbol] is in the table and [value] is in its range. *)
Definition in_table (symbol : string) (value : Z) : bool :=
  existsb
    (fun entry =>
       String.eqb (fst entry) symbol
       && (fst (snd entry) <=? value) && (value <=? snd (snd entry)))
    table.

(** A signed decimal numeral: an optional minus sign and at least one
    digit. *)
Definition parse_int (s : string) : option Z :=
  match s with
  | EmptyString => None
  | String c r =>
      if Ascii.eqb c "-"
      then match r with
           | EmptyString => None
           | _ => option_map Z.opp (digits_value r 0)
           end
      else digits_value s 0
  end.

(** Split a line at its last character. *)
Fixpoint split_last (s : string) : option (string * ascii) :=
  match s with
  | EmptyString => None
  | String c r =>
      match split_last r with
      | None => Some (EmptyString, c)
      | Some (body, last) => Some (String c body, last)
      end
  end.

(** Reference decoder of the wire format [<symbol><integer>\n]: one symbol
    character, a signed decimal numeral, one line feed; written from the
    format alone, independently of [command_line]. *)
Definition reference_decode (wire : string) : option (string * Z) :=
  match wire with
  | EmptyString => None
  | String symbol rest =>
      match split_last rest with
      | Some (numeral, last) =>
          if Ascii.eqb last LF
          then option_map (fun v => (String symbol EmptyString, v))
                 (parse_int numeral)
          else None
      | None => None
      end
  end.

(** A decimal numeral without leading zeros: ["0"], or an optional minus
    sign followed by a digit from 1 to 9 and any digits. *)
Definition is_nonzero_digit (c : ascii) : bool :=
  match digit_of c with
  | Some d => 1 <=? d
  | None => false
  end.

Definition is_digit (c : ascii) : bool :=
  match digit_of c with
  | Some _ => true
  | None => false
  end.

Fixpoint all_digits (s : string) : bool :=
  match s with
  | EmptyString => true
  | String c r => is_digit c && all_digits r
  end.

Definition canonical_unsigned (s : string) : bool :=
  match s with
  | EmptyString => false
  | String c r => is_nonzero_digit c && all_digits r
  end.

Definition canonical_decimal (s : string) : bool :=
  match s with
  | EmptyString => false
  | String c r =>
      if Ascii.eqb c "-" then canonical_unsigned r
      else String.eqb s "0" || canonical_unsigned s
  end.

Definition has_minus (s : string) : bool :=
  match s with
  | String c _ => Ascii.eqb c "-"
  | EmptyString => false
  end.

End Wire.

(** ** print_status: the position bar *)

Module Display.

(** [5.0], the float of the divisor. *)
Definition five : float := S754_finite false 5629499534213120 (-50).

(** [pos / 5]: the true division of two ints converts both to float and
    divides (the same as Python's correctly rounded quotient for every int
    that a float holds exactly, which covers all magnitudes below [2^53]). *)
Definition over_five (pos : Z) : exn + float :=
  match float_of_int pos with
  | inl e => inl e
  | inr x => inr (SFdiv prec emax x five)
  end.

Fixpoint repeat_string (s : string) (k : nat) : string :=
  match k with
  | O => EmptyString
  | S k' => (s ++ repeat_string s k')%string
  end.

(** [s * k] on a str and an int: an int that is not positive gives the empty
    string. *)
Definition str_mul (s : string) (k : Z) : string :=
  repeat_string s (Z.to_nat k).

(** The two cells of the bar, U+2588 and U+2591, as the bytes that reach the
    terminal in UTF-8. *)
Definition full_block : string :=
  String (ascii_of_nat 226) (String (ascii_of_nat 150)
    (String (ascii_of_nat 136) EmptyString)).
Definition light_shade : string :=
  String (ascii_of_nat 226) (String (ascii_of_nat 150)
    (String (ascii_of_nat 145) EmptyString)).

(** The bar that [print_status] draws for one position:
    [full * int(pos/5) + light * (20 - int(pos/5))]. *)
Definition bar (pos : Z) : exn + string :=
  match over_five pos with
  | inl e => inl e
  | inr q =>
      match int_of_float q with
      | inl e => inl e
      | inr k => inr (str_mul full_block k ++ str_mul light_shade (20 - k))%string
      end
  end.

End Display.

(** ** hand_gesture_drone_controller.py: counting fingers *)

Module Gesture.

(** The fields of a hand landmark that [count_fingers] reads. *)
Record Landmark : Type := mkLandmark {
  x : float;
  y : float
}.

Definition finger_tips : list Z := [4; 8; 12; 16; 20].
Definition finger_mcp : list Z := [2; 5; 9; 13; 17].

(** [l[i] = v] on a list. *)
Definition list_assign {A} (l : list A) (i : Z) (v : A) : exn + list A :=
  let len := Z.of_nat (List.length l) in
  let j := if i <? 0 then i + len else i in
  if (0 <=? j) && (j <? len)
  then inr (firstn (Z.to_nat j) l ++ v :: skipn (S (Z.to_nat j)) l)
  else inl (IndexError "list assignment index out of range").

(** The loop [for i in range(1, 5)] over the four fingers other than the
    thumb: a finger is up when its tip is above its knuckle. *)
Fixpoint raise_fingers (indices : list Z) (landmark : list Landmark)
  (fingers : list Z) : exn + list Z :=
  match indices with
  | [] => inr fingers
  | i :: rest =>
      match list_index finger_tips i with
      | inl e => inl e
      | inr tip_index =>
      match list_index landmark tip_index with
      | inl e => inl e
      | inr tip =>
      match list_index finger_mcp i with
      | inl e => inl e
      | inr mcp_index =>
      match list_index landmark mcp_index with
      | inl e => inl e
      | inr mcp =>
          if SFltb (y tip) (y mcp)
          then match list_assign fingers i 1 with
               | inl e => inl e
               | inr fingers' => raise_fingers rest landmark fingers'
               end
          else raise_fingers rest landmark fingers
      end end end end
  end.

(** [count_fingers]. *)
Definition count_fingers (landmark : list Landmark) : exn + Z :=
  match raise_fingers [1; 2; 3; 4] landmark [0; 0; 0; 0; 0] with
  | inl e => inl e
  | inr fingers =>
      match list_index finger_tips 0 with
      | inl e => inl e
      | inr tip_index =>
      match list_index landmark tip_index with
      | inl e => inl e
      | inr tip =>
      match list_index finger_mcp 0 with
      | inl e => inl e
      | inr mcp_index =>
      match list_index landmark mcp_index with
      | inl e => inl e
      | inr mcp =>
          if SFltb (x mcp) (x tip)
          then match list_assign fingers 0 1 with
               | inl e => inl e
               | inr fingers' => inr (fold_right Z.add 0 fingers')
               end
          else inr (fold_right Z.add 0 fingers)
      end end end end
  end.

End Gesture.

(** * The vocabulary of the statements *)

(** [prepend t r]: the result [r] after the events [t]. *)
Definition prepend {S A} (t : list event) (r : res S A) : res S A :=
  mkRes (out r) (st r) (t ++ evs r) (env r).

(** The reply makes the call raise. *)
Definition is_raise (r : reply) : bool :=
  match r with RRaise _ => true | _ => false end.

(** [triple P m Q I E]: from a state in [P], whatever the device and the
    terminal do, [m] returns [a] in a state of [Q a], or raises an
    exception of [E] in a state of [I], or is still running in a state of
    [I]. *)
Definition triple {S A} (P : S -> Prop) (m : M S A) (Q : A -> S -> Prop)
  (I : S -> Prop) (E : exn -> Prop) : Prop :=
  forall s w, P s ->
    match out (m s w) with
    | Ret a => Q a (st (m s w))
    | Raise e => I (st (m s w)) /\ E e
    | Pending => I (st (m s w))
    end.

(** The value of a digit sequence read from the left with accumulator
    [acc]. *)
Fixpoint horner (d : Decimal.uint) (acc : Z) : Z :=
  match d with
  | Decimal.Nil => acc
  | Decimal.D0 l => horner l (10 * acc + 0)
  | Decimal.D1 l => horner l (10 * acc + 1)
  | Decimal.D2 l => horner l (10 * acc + 2)
  | Decimal.D3 l => horner l (10 * acc + 3)
  | Decimal.D4 l => horner l (10 * acc + 4)
  | Decimal.D5 l => horner l (10 * acc + 5)
  | Decimal.D6 l => horner l (10 * acc + 6)
  | Decimal.D7 l => horner l (10 * acc + 7)
  | Decimal.D8 l => horner l (10 * acc + 8)
  | Decimal.D9 l => horner l (10 * acc + 9)
  end.

(** A float with a mantissa below [2^53] at an exponent of at most [-46]:
    the shape of every float64 of [-1.0, 1.0] and of every converted speed
    cap. *)
Definition small_float (y : float) : bool :=
  match y with
  | S754_zero _ => true
  | S754_finite _ m e => (Zpos m <? 2 ^ 53) && (e <=? -46)
  | _ => false
  end.

(** [float(n)] exists and has that shape. *)
Definition small_int_ok (n : nat) : bool :=
  match float_of_int (Z.of_nat n) with
  | inr y => small_float y
  | inl _ => false
  end.

(** The port takes the next [n] calls without raising. *)
Definition accepts (n : nat) (w : world) : bool :=
  forallb (fun r => negb (is_raise r)) (firstn n (w_link w)).

(** Every write that went out is directly followed by a delay of [ms]
    milliseconds. *)
Fixpoint each_write_followed_by_delay (ms : Z) (t : list event) : bool :=
  match t with
  | [] => true
  | Serial (Write _) :: rest =>
      match rest with
      | Sleep d :: _ => (d =? ms) && each_write_followed_by_delay ms rest
      | _ => false
      end
  | _ :: rest => each_write_followed_by_delay ms rest
  end.

(** What [cmd_vel_callback] does on a port that takes both writes. *)
Definition drive_trace (l a : Z) : list event :=
  [ Serial (Write (command_line "Y" l));
    Sleep 10;
    Serial (Write (command_line "X" a));
    Log DEBUG ("Sent: Y" ++ str_of_int l ++ ", X" ++ str_of_int a)%string ].

(** A port that answers every call with nothing to report, and the keys
    that the terminal still holds. *)
Definition quiet (keys : list input) : world := mkWorld [] keys true.

(** A write, attempted or done, carries a drive command of [-100, 100]. *)
Definition drive_write_in_range (ev : event) : Prop :=
  match ev with
  | Serial (Write data) | SerialRaised (Write data) =>
      exists v, -100 <= v <= 100 /\
                (data = command_line "Y" v \/ data = command_line "X" v)
  | _ => True
  end.

(** [3.0] *)
Definition f_3_0 : float := S754_finite false 6755399441055744 (-51).

(** The event is neither a close of the port nor the teardown of the
    node. *)
Definition not_port_release (ev : event) : Prop :=
  match ev with
  | Serial Close | SerialRaised Close | NodeDestroyed => False
  | _ => True
  end.

(** The event is neither a reset of a buffer nor a read of the port. *)
Definition no_flush_no_read (ev : event) : Prop :=
  match ev with
  | Serial ResetInput | SerialRaised ResetInput
  | Serial ResetOutput | SerialRaised ResetOutput
  | Serial InWaiting | SerialRaised InWaiting
  | Serial Readline | SerialRaised Readline => False
  | _ => True
  end.

(** The two lines of the stop command. *)
Definition stop_Y : string := ("Y0" ++ newline)%string.
Definition stop_X : string := ("X0" ++ newline)%string.

(** Classes of events. *)
Definition is_log (ev : event) : bool :=
  match ev with Log _ _ => true | _ => false end.

(** A write of [data], done or raised. *)
Definition is_attempt (data : string) (ev : event) : bool :=
  match ev with
  | Serial (Write d) | SerialRaised (Write d) => String.eqb d data
  | _ => false
  end.

(** How many times the run tried to write [data]. *)
Definition attempts (data : string) (t : list event) : nat :=
  List.length (filter (is_attempt data) t).

(** A write that raised; [destroy_node] writes nothing but the stop
    command. *)
Definition is_failed_stop (ev : event) : bool :=
  match ev with
  | SerialRaised (Write _) => true
  | _ => false
  end.

Definition is_close (ev : event) : bool :=
  match ev with Serial Close => true | _ => false end.

Definition is_write (ev : event) : bool :=
  match ev with
  | Serial (Write _) | SerialRaised (Write _) => true
  | _ => false
  end.

(** The events that come before the first attempt to write. *)
Fixpoint before_first_write (t : list event) : list event :=
  match t with
  | [] => []
  | ev :: rest => if is_write ev then [] else ev :: before_first_write rest
  end.

Definition is_reset_input (ev : event) : bool :=
  match ev with Serial ResetInput => true | _ => false end.

Definition is_reset_output (ev : event) : bool :=
  match ev with Serial ResetOutput => true | _ => false end.

(** Both buffers are reset before the first command goes out. *)
Definition flushed_before_first_write (t : list event) : bool :=
  existsb is_reset_input (before_first_write t)
  && existsb is_reset_output (before_first_write t).

(** The seven servos, in the order of [__init__]. *)
Definition servo_names : list string := dict_keys UI.initial_positions.

Definition in_servo_range (p : Z) : Prop := 0 <= p <= 100.

(** The invariant of the keyboard program: the tables of [__init__], a
    selected servo that is one of the seven, every position in [0, 100]. *)
Record Inv (s : UI.ServoKeyboard) : Prop := mkInv {
  inv_commands : UI.servo_commands s = UI.command_table;
  inv_keys : dict_keys (UI.positions s) = servo_names;
  inv_current : In (UI.current_servo s) servo_names;
  inv_range : Forall (fun kv => in_servo_range (snd kv)) (UI.positions s);
  inv_step : UI.step_size s = 5
}.

(** The exceptions that the methods of the keyboard program can let
    through. *)
Definition E_none (e : exn) : Prop := False.
Definition E_decode (e : exn) : Prop := e = UnicodeDecodeError.
Definition E_port (e : exn) : Prop :=
  (exists msg, e = SerialException msg) \/ e = UnicodeDecodeError.
Definition E_key (e : exn) : Prop :=
  e = UnicodeDecodeError \/ exists msg, e = ValueError msg.
Definition E_loop (e : exn) : Prop :=
  E_key e \/ e = KeyboardInterrupt.
Definition E_run (e : exn) : Prop :=
  E_key e \/ exists msg, e = SerialException msg.

(** What [get_key] can return: at most one character, or an escape
    sequence. *)
Definition key_ok (k : string) : Prop :=
  (String.length k <= 1)%nat \/ exists r, k = String ESC r.

(** Any exception. *)
Definition E_any (e : exn) : Prop := True.

(** The selected servo is [x]. *)
Definition selected (x : string) (s : UI.ServoKeyboard) : Prop :=
  UI.current_servo s = x.

(** The object of [__init__] with the head rotation at [p]. *)
Definition head_at (p : Z) : UI.ServoKeyboard :=
  UI.mkUI (dict_set "head_rotation" p UI.initial_positions)
    UI.command_table "head_rotation" 5.

(** [k] presses of the same key. *)
Definition presses (key : string) (k : nat) : list input :=
  match key with
  | String c _ => repeat (Char c) k
  | EmptyString => []
  end.

(** Some call on the port raised during the run. *)
Definition raised_serial (t : list event) : Prop :=
  exists op, In (SerialRaised op) t.

Definition is_serial_raised (ev : event) : bool :=
  match ev with SerialRaised _ => true | _ => false end.

(** Some call on the port raised [SerialException] during the run. *)
Definition serial_failed (t : list event) : bool :=
  existsb is_serial_raised t.

(** [faithful m]: a run of [m] in which a call on the port raised ends
    with that [SerialException]. *)
Definition faithful {S A} (m : M S A) : Prop :=
  forall s w, raised_serial (evs (m s w)) ->
              exists msg, out (m s w) = Raise (SerialException msg).

(** A port that takes one call and raises on the next. *)
Definition failing_port : world :=
  mkWorld [ROk; RRaise "write timeout"] [] true.

(** The reply neither raises nor fails to decode. *)
Definition reply_ok (r : reply) : bool :=
  match r with
  | RRaise _ | RLine None => false
  | _ => true
  end.

(** No call on the port will raise, and every echo decodes. *)
Definition healthy (w : world) : bool := forallb reply_ok (w_link w).

(** The data of the writes that went out, in order. *)
Fixpoint writes (t : list event) : list string :=
  match t with
  | [] => []
  | Serial (Write data) :: rest => data :: writes rest
  | _ :: rest => writes rest
  end.

(** The run returned in state [s] after writing [data], and the port is
    still healthy. *)
Record sent (s : UI.ServoKeyboard) (data : list string)
  (r : res UI.ServoKeyboard unit) : Prop := mkSent {
  sent_out : out r = Ret tt;
  sent_st : st r = s;
  sent_writes : writes (evs r) = data;
  sent_env : healthy (env r) = true
}.

(** The object [s] with the positions [d]. *)
Definition with_positions (s : UI.ServoKeyboard) (d : dict Z)
  : UI.ServoKeyboard :=
  UI.mkUI d (UI.servo_commands s) (UI.current_servo s) (UI.step_size s).

(** The command symbol of a servo. *)
Definition symbol_of (name : string) : string :=
  match dict_get name UI.command_table with
  | Some c => c
  | None => EmptyString
  end.

(** The line that a preset sends for one of its entries, and the store
    that comes before it. *)
Definition preset_line (entry : string * Z) : string :=
  command_line (symbol_of (fst entry)) (snd entry).

Definition apply_entry (d : dict Z) (entry : string * Z) : dict Z :=
  dict_set (fst entry) (snd entry) d.

(** Predicates on the object. *)
Definition positions_are (d : dict Z) (s : UI.ServoKeyboard) : Prop :=
  UI.positions s = d.

Definition anywhere (s : UI.ServoKeyboard) : Prop := True.

(** The event is not an attempt to write. *)
Definition quiet_event (ev : event) : Prop := is_write ev = false.

(** The start of [ServoKeyboard.__init__] on a port that opens: the settle
    delay, then both resets. *)
Definition opened (port : string) (baud : Z) : list event :=
  [ Serial (Open port baud); Sleep 2000; Serial ResetInput;
    Serial ResetOutput ].

(** ** More vocabulary: the bridge *)

(** A zero or a finite float: neither an infinity nor a NaN. *)
Definition is_finite (f : float) : bool :=
  match f with
  | S754_zero _ | S754_finite _ _ _ => true
  | _ => false
  end.

(** The value that [cmd_vel_callback] puts on a drive channel for the field
    [x]: [max(-100, min(100, int(x * max_speed)))]. *)
Definition drive_value (x : float) (max_speed : Z) : exn + Z :=
  match fmul_int x max_speed with
  | inl e => inl e
  | inr f =>
      match int_of_float f with
      | inl e => inl e
      | inr v => inr (clamp (-100) 100 v)
      end
  end.

(** The two lines of one velocity command. *)
Definition drive_lines (la : Z * Z) : list string :=
  [command_line "Y" (fst la); command_line "X" (snd la)].

(** The values [la] are the drive values of the message under the cap. *)
Definition drive_values_of (max_speed : Z) (msg : Bridge.Twist) (la : Z * Z)
  : Prop :=
  drive_value (Bridge.linear_x msg) max_speed = inr (fst la) /\
  drive_value (Bridge.angular_z msg) max_speed = inr (snd la).

(** [ValueError] or [OverflowError], the exceptions of [int()] and of the
    conversion of an [int] to [float]. *)
Definition is_conversion_error (e : exn) : bool :=
  match e with
  | ValueError _ | OverflowError _ => true
  | _ => false
  end.

(** An attempt to close the port. *)
Definition is_close_attempt (ev : event) : bool :=
  match ev with
  | Serial Close | SerialRaised Close => true
  | _ => false
  end.

(** ** More vocabulary: the keyboard program *)

(** The number of waiting bytes that a reply to [in_waiting] stands for. *)
Definition waiting (r : reply) : Z :=
  match r with
  | RInt n => n
  | _ => 0
  end.

(** The world with the port script [link]. *)
Definition with_link (w : world) (link : list reply) : world :=
  mkWorld link (w_stdin w) (w_ok w).

(** What [send_servo_command] does up to the test of [in_waiting] when the
    port takes its calls. *)
Definition send_prefix (command : string) : list event :=
  [ Serial ResetInput; Log INFO ("Sending: " ++ strip command)%string;
    Serial (Write command); Serial Flush; Sleep 50; Serial InWaiting ].



(** [never_blocks m]: a run of [m] returns or raises; it is never left
    waiting for input. *)
Definition never_blocks {S A} (m : M S A) : Prop :=
  forall s w, out (m s w) <> Pending.

(** A write, attempted or done, carries one of the seven servo symbols and a
    position of [0, 100]. *)
Definition servo_write_in_range (ev : event) : Prop :=
  match ev with
  | Serial (Write data) | SerialRaised (Write data) =>
      exists name c p,
        dict_get name UI.command_table = Some c /\ 0 <= p <= 100 /\
        data = command_line c p
  | _ => True
  end.


(** The keys that move the selected servo, each with the position it asks
    for: the coarse steps [w] and [s], the fine steps and their aliases,
    and the reset [r]. *)
Definition position_keys (step : Z) : list (string * (Z -> Z)) :=
  [ ("w", fun p => Z.min 100 (p + step));
    ("s", fun p => Z.max 0 (p - step));
    ("+", fun p => Z.min 100 (p + 1));
    ("=", fun p => Z.min 100 (p + 1));
    ("]", fun p => Z.min 100 (p + 1));
    ("-", fun p => Z.max 0 (p - 1));
    ("_", fun p => Z.max 0 (p - 1));
    ("[", fun p => Z.max 0 (p - 1));
    ("r", fun _ => 50) ]%string.

(** The lines of a preset that puts every servo at 50. *)
Definition center_lines : list string :=
  map (fun entry => command_line (snd entry) 50) UI.command_table.

(** The keys that move a servo or run a preset. *)
Definition port_keys : list string :=
  [ "w"; "s"; "+"; "="; "]"; "-"; "_"; "["; "0"; "h"; "r" ]%string.

(** The event is no call on the port. *)
Definition no_port_event (ev : event) : Prop :=
  match ev with
  | Serial _ | SerialRaised _ => False
  | _ => True
  end.

(** ** More vocabulary: rounding *)

(** Bits were lost in the shifts that led to the record. *)
Definition shr_inexact (r : shr_record) : bool := shr_r r || shr_s r.

(** [shifted M j r]: the record [r] is [M] shifted right by [j] bits; its
    mantissa is the quotient, and its flags tell whether a bit was lost. *)
Definition shifted (M j : Z) (r : shr_record) : Prop :=
  0 <= shr_m r /\
  if shr_inexact r then shr_m r * 2 ^ j < M else M = shr_m r * 2 ^ j.

(** [float(n)] is exactly [n], with a mantissa at an exponent that is not
    positive. *)
Definition exact_int_ok (n : nat) : bool :=
  match float_of_int (Z.of_nat n) with
  | inr (S754_zero _) => Nat.eqb n 0
  | inr (S754_finite false m e) =>
      (e <=? 0) && (Zpos m =? Z.of_nat n * 2 ^ (- e))
  | _ => false
  end.

(** The magnitude of a float is at most [n]. *)
Definition magnitude_le (f : float) (n : Z) : Prop :=
  match f with
  | S754_zero _ => True
  | S754_finite _ m e => e < 0 /\ Zpos m <= n * 2 ^ (- e)
  | _ => False
  end.

(** ** More vocabulary: the bar and the fingers *)

(** The bar of [pos] is the expected one: [pos // 5] full cells, then light
    cells up to twenty. *)
Definition bar_ok (n : nat) : bool :=
  match Display.bar (Z.of_nat n) with
  | inr b =>
      String.eqb b
        (Display.repeat_string Display.full_block (n / 5)
         ++ Display.repeat_string Display.light_shade (20 - n / 5))%string
  | inl _ => false
  end.

(** * Proofs *)

(** *** Laws of the effect monad *)

Section MonadLaws.

Context {S : Type}.

Lemma res_eta {A} (r : res S A) : mkRes (out r) (st r) (evs r) (env r) = r.
Proof. destruct r; reflexivity. Qed.

Lemma res_intro {A} (r : res S A) (o : outcome A) (s : S) (w : world) :
  out r = o -> st r = s -> env r = w -> r = mkRes o s (evs r) w.
Proof. intros <- <- <-. symmetry. apply res_eta. Qed.

Lemma prepend_nil {A} (r : res S A) : prepend [] r = r.
Proof. apply res_eta. Qed.

Lemma prepend_prepend {A} (t u : list event) (r : res S A) :
  prepend t (prepend u r) = prepend (t ++ u) r.
Proof. unfold prepend; cbn [out st evs env]. now rewrite app_assoc. Qed.

Lemma bind_step {A B} (m : M S A) (k : A -> M S B) (s : S) (w : world)
  (a : A) (s' : S) (t : list event) (w' : world) :
  m s w = mkRes (Ret a) s' t w' ->
  bind m k s w = prepend t (k a s' w').
Proof. intros H. unfold bind. rewrite H. reflexivity. Qed.

Lemma bind_stop {A B} (m : M S A) (k : A -> M S B) (s : S) (w : world)
  (e : exn) (s' : S) (t : list event) (w' : world) :
  m s w = mkRes (Raise e) s' t w' ->
  bind m k s w = mkRes (Raise e) s' t w'.
Proof. intros H. unfold bind. rewrite H. reflexivity. Qed.

Lemma bind_ret {A B} (a : A) (k : A -> M S B) (s : S) (w : world) :
  bind (ret a) k s w = k a s w.
Proof. rewrite (bind_step _ _ _ _ a s [] w eq_refl). apply prepend_nil. Qed.

Lemma bind_get {B} (k : S -> M S B) (s : S) (w : world) :
  bind get k s w = k s s w.
Proof. rewrite (bind_step _ _ _ _ s s [] w eq_refl). apply prepend_nil. Qed.

Lemma bind_put {B} (s' : S) (k : unit -> M S B) (s : S) (w : world) :
  bind (put s') k s w = k tt s' w.
Proof. rewrite (bind_step _ _ _ _ tt s' [] w eq_refl). apply prepend_nil. Qed.

Lemma bind_emit {B} (ev : event) (k : unit -> M S B) (s : S) (w : world) :
  bind (emit ev) k s w = prepend [ev] (k tt s w).
Proof. apply (bind_step _ _ _ _ tt s [ev] w eq_refl). Qed.

Lemma bind_raise {A B} (e : exn) (k : A -> M S B) (s : S) (w : world) :
  bind (raise e) k s w = mkRes (Raise e) s [] w.
Proof. apply (bind_stop _ _ _ _ e s [] w eq_refl). Qed.

Lemma bind_assoc {A B C} (m : M S A) (f : A -> M S B) (g : B -> M S C)
  (s : S) (w : world) :
  bind (bind m f) g s w = bind m (fun a => bind (f a) g) s w.
Proof.
  unfold bind. destruct (m s w) as [[a|e|] s1 t1 w1]; cbn [out st evs env];
    try reflexivity.
  destruct (f a s1 w1) as [[b|e|] s2 t2 w2]; cbn [out st evs env];
    try reflexivity.
  now rewrite app_assoc.
Qed.

(** A call on the port either raises or returns the next reply. *)
Lemma serial_eq (op : serial_op) (s : S) (w : world) :
  serial op s w
  = match fst (next_reply w) with
    | RRaise msg =>
        mkRes (Raise (SerialException msg)) s [SerialRaised op]
          (snd (next_reply w))
    | r => mkRes (Ret r) s [Serial op] (snd (next_reply w))
    end.
Proof.
  unfold serial. destruct (next_reply w) as [[]]; reflexivity.
Qed.

End MonadLaws.

(** *** A logic of states and exceptions *)

Section Triples.

Context {S : Type}.

Lemma triple_weaken {A} (P P' : S -> Prop) (m : M S A)
  (Q Q' : A -> S -> Prop) (I I' : S -> Prop) (E E' : exn -> Prop) :
  triple P' m Q' I' E' ->
  (forall s, P s -> P' s) ->
  (forall a s, Q' a s -> Q a s) ->
  (forall s, I' s -> I s) ->
  (forall e, E' e -> E e) ->
  triple P m Q I E.
Proof.
  intros H HP HQ HI HE s w Hs. specialize (H s w (HP s Hs)).
  destruct (out (m s w)); [auto|destruct H; auto|auto].
Qed.

Lemma triple_ret {A} (a : A) (Q : A -> S -> Prop) I E :
  triple (Q a) (ret a) Q I E.
Proof. intros s w H; exact H. Qed.

Lemma triple_raise {A} (e : exn) (Q : A -> S -> Prop) (I : S -> Prop)
  (E : exn -> Prop) :
  E e -> triple I (raise e) Q I E.
Proof. intros He s w H; simpl; auto. Qed.

Lemma triple_pending {A} (Q : A -> S -> Prop) (I : S -> Prop) E :
  triple I (@pending S A) Q I E.
Proof. intros s w H; exact H. Qed.

Lemma triple_get (P : S -> Prop) I E :
  triple P get (fun a s => a = s /\ P s) I E.
Proof. intros s w H; simpl; auto. Qed.

Lemma triple_put (s' : S) (Q : unit -> S -> Prop) I E :
  triple (fun _ => Q tt s') (put s') Q I E.
Proof. intros s w H; exact H. Qed.

Lemma triple_emit (ev : event) (P : S -> Prop) I E :
  triple P (emit ev) (fun _ => P) I E.
Proof. intros s w H; exact H. Qed.

Lemma triple_of_sum {A} (x : exn + A) (P : S -> Prop) (E : exn -> Prop) :
  (forall e, x = inl e -> E e) ->
  triple P (of_sum x) (fun a s => x = inr a /\ P s) P E.
Proof. intros He s w H. destruct x; simpl; auto. Qed.

Lemma triple_serial (op : serial_op) (P : S -> Prop) (E : exn -> Prop) :
  (forall msg, E (SerialException msg)) ->
  triple P (serial op) (fun _ => P) P E.
Proof.
  intros He s w H. unfold serial.
  destruct (next_reply w) as [[]]; simpl; auto.
Qed.

Lemma triple_read1 (P : S -> Prop) (E : exn -> Prop) :
  E KeyboardInterrupt ->
  triple P read1
    (fun k s => P s /\ (String.length k <= 1)%nat) P E.
Proof.
  intros He s w H. unfold read1.
  destruct (w_stdin w) as [|[c| |]]; simpl; auto.
Qed.

Lemma triple_bind {A B} (P : S -> Prop) (m : M S A) (k : A -> M S B)
  (Q1 : A -> S -> Prop) (Q2 : B -> S -> Prop) I E :
  triple P m Q1 I E ->
  (forall a, triple (Q1 a) (k a) Q2 I E) ->
  triple P (bind m k) Q2 I E.
Proof.
  intros Hm Hk s w Hs. specialize (Hm s w Hs). unfold bind.
  destruct (out (m s w)) as [a|e|]; cbn [out st]; [|exact Hm|exact Hm].
  apply (Hk a). exact Hm.
Qed.

Lemma triple_try_except {A} (P : S -> Prop) (body : M S A)
  (h : exn -> option (M S A)) (Q : A -> S -> Prop) I (E' E : exn -> Prop) :
  triple P body Q I E' ->
  (forall e k, E' e -> h e = Some k -> triple I k Q I E) ->
  (forall e, E' e -> h e = None -> E e) ->
  triple P (try_except body h) Q I E.
Proof.
  intros Hb Hh Hn s w Hs. specialize (Hb s w Hs). unfold try_except.
  destruct (out (body s w)) as [a|e|] eqn:Ho.
  - rewrite Ho. exact Hb.
  - destruct Hb as [Hi He]. destruct (h e) as [k|] eqn:Hk.
    + cbn [out st]. apply (Hh e k He Hk). exact Hi.
    + rewrite Ho. split; [exact Hi|]. apply Hn; assumption.
  - rewrite Ho. exact Hb.
Qed.

(** A [finally] clause that keeps [I] and every [Q a]. *)
Lemma triple_try_finally {A} (P : S -> Prop) (body : M S A) (fin : M S unit)
  (Q : A -> S -> Prop) I (E : exn -> Prop) :
  triple P body Q I E ->
  triple I fin (fun _ => I) I E ->
  (forall a, triple (Q a) fin (fun _ => Q a) I E) ->
  triple P (try_finally body fin) Q I E.
Proof.
  intros Hb Hi Hq s w Hs. specialize (Hb s w Hs). unfold try_finally.
  destruct (out (body s w)) as [a|e|] eqn:Ho.
  - specialize (Hq a _ (env (body s w)) Hb).
    destruct (out (fin (st (body s w)) (env (body s w)))); cbn [out st];
      assumption.
  - destruct Hb as [Hb He]. specialize (Hi _ (env (body s w)) Hb).
    destruct (out (fin (st (body s w)) (env (body s w)))); cbn [out st];
      auto.
  - rewrite Ho. exact Hb.
Qed.

Lemma triple_for_each {A} (P : S -> Prop) (xs : list A)
  (body : A -> M S unit) I E :
  (forall x, In x xs -> triple P (body x) (fun _ => P) I E) ->
  triple P (UI.for_each xs body) (fun _ => P) I E.
Proof.
  induction xs as [|x xs IH]; intros H; cbn [UI.for_each].
  - apply (triple_ret tt (fun _ => P)).
  - eapply triple_bind; [apply H; left; reflexivity|].
    intros []. apply IH. intros y Hy. apply H. right; exact Hy.
Qed.

End Triples.

(** *** Properties of every event of a run *)

Section Events.

Context {S : Type}.
Variable P : event -> Prop.

Lemma evs_bind {A B} (m : M S A) (k : A -> M S B) (s : S) (w : world) :
  evs (bind m k s w)
  = match out (m s w) with
    | Ret a => evs (m s w) ++ evs (k a (st (m s w)) (env (m s w)))
    | _ => evs (m s w)
    end.
Proof. unfold bind. destruct (out (m s w)); reflexivity. Qed.

Lemma Forall_bind {A B} (m : M S A) (k : A -> M S B) (s : S) (w : world) :
  Forall P (evs (m s w)) ->
  (forall a s' w', Forall P (evs (k a s' w'))) ->
  Forall P (evs (bind m k s w)).
Proof.
  intros Hm Hk. rewrite evs_bind. destruct (out (m s w)); auto.
  apply Forall_app; auto.
Qed.

Lemma Forall_try_except {A} (body : M S A) (h : exn -> option (M S A))
  (s : S) (w : world) :
  Forall P (evs (body s w)) ->
  (forall e k s' w', h e = Some k -> Forall P (evs (k s' w'))) ->
  Forall P (evs (try_except body h s w)).
Proof.
  intros Hb Hh. unfold try_except.
  destruct (out (body s w)) as [a|e|]; auto.
  destruct (h e) as [k|] eqn:E; auto.
  cbn [evs]. apply Forall_app; split; [exact Hb|]. eapply Hh; exact E.
Qed.

Lemma Forall_try_finally {A} (body : M S A) (fin : M S unit)
  (s : S) (w : world) :
  Forall P (evs (body s w)) ->
  (forall s' w', Forall P (evs (fin s' w'))) ->
  Forall P (evs (try_finally body fin s w)).
Proof.
  intros Hb Hf. unfold try_finally.
  destruct (out (body s w)) as [a|e|]; auto;
    destruct (out (fin (st (body s w)) (env (body s w))));
    cbn [evs]; apply Forall_app; auto.
Qed.

Lemma Forall_serial (op : serial_op) (s : S) (w : world) :
  P (Serial op) -> P (SerialRaised op) ->
  Forall P (evs (serial op s w)).
Proof.
  intros H1 H2. unfold serial.
  destruct (next_reply w) as [[]]; cbn [evs]; auto.
Qed.

Lemma Forall_emit (ev : event) (s : S) (w : world) :
  P ev -> Forall P (evs (emit ev s w)).
Proof. intros H; cbn; auto. Qed.

Lemma Forall_of_sum {A} (x : exn + A) (s : S) (w : world) :
  Forall P (evs (of_sum x s w)).
Proof. destruct x; cbn; auto. Qed.

End Events.

Lemma Forall_on_object {S A} (P : event -> Prop) (s0 : S) (m : M S A)
  (w : world) :
  Forall P (evs (m s0 w)) -> Forall P (evs (on_object s0 m tt w)).
Proof. intros H; exact H. Qed.

(** The events of the first part of a sequence, of a guarded block and of a
    block with a [finally] clause come first in the whole. *)
Lemma bind_prefix {S A B} (m : M S A) (k : A -> M S B) (s : S) (w : world) :
  exists t, evs (bind m k s w) = evs (m s w) ++ t.
Proof.
  rewrite evs_bind. destruct (out (m s w)); eauto; exists [];
    now rewrite List.app_nil_r.
Qed.

Lemma try_except_prefix {S A} (body : M S A) (h : exn -> option (M S A))
  (s : S) (w : world) :
  exists t, evs (try_except body h s w) = evs (body s w) ++ t.
Proof.
  unfold try_except. destruct (out (body s w)) as [a|e|];
    try (exists []; now rewrite List.app_nil_r).
  destruct (h e); [eexists; reflexivity|exists []; now rewrite List.app_nil_r].
Qed.

Lemma try_finally_prefix {S A} (body : M S A) (fin : M S unit)
  (s : S) (w : world) :
  exists t, evs (try_finally body fin s w) = evs (body s w) ++ t.
Proof.
  unfold try_finally. destruct (out (body s w)) as [a|e|];
    try (exists []; now rewrite List.app_nil_r);
    destruct (out (fin (st (body s w)) (env (body s w))));
    eexists; reflexivity.
Qed.

(** *** Decimal numerals *)

Lemma digits_value_uint (d : Decimal.uint) (acc : Z) :
  digits_value (NilEmpty.string_of_uint d) acc = Some (horner d acc).
Proof.
  revert acc; induction d; intros acc; simpl; try reflexivity;
    unfold digit_of; simpl; apply IHd.
Qed.

Lemma horner_pos (d : Decimal.uint) (acc : positive) :
  horner d (Zpos acc) = Zpos (Pos.of_uint_acc d acc).
Proof.
  revert acc; induction d; intros acc; cbn [horner Pos.of_uint_acc];
    try reflexivity; rewrite <- IHd; f_equal; lia.
Qed.

Lemma horner_zero (d : Decimal.uint) :
  horner d 0 = Z.of_N (Pos.of_uint d).
Proof.
  induction d; cbn [horner Pos.of_uint]; try reflexivity;
    try assumption; apply horner_pos.
Qed.

Lemma str_of_int_pos (p : positive) :
  str_of_int (Zpos p) = NilEmpty.string_of_uint (Pos.to_uint p).
Proof.
  unfold str_of_int; simpl.
  pose proof (Unsigned.to_uint_nonnil p) as H.
  destruct (Pos.to_uint p); try reflexivity. now destruct H.
Qed.

Lemma str_of_int_neg (p : positive) :
  str_of_int (Zneg p) = String "-" (str_of_int (Zpos p)).
Proof. reflexivity. Qed.

Lemma digits_value_pos (p : positive) :
  digits_value (str_of_int (Zpos p)) 0 = Some (Zpos p).
Proof.
  rewrite str_of_int_pos, digits_value_uint, horner_zero.
  now rewrite Unsigned.of_to.
Qed.

(** The numeral of a positive number starts with a digit from 1 to 9 and
    holds digits only. *)
Lemma to_uint_head (p : positive) :
  Decimal.nzhead (Pos.to_uint p) = Pos.to_uint p.
Proof.
  pose proof (Unsigned.to_of (Pos.to_uint p)) as H.
  rewrite Unsigned.of_to in H. simpl in H.
  pose proof (Unsigned.to_uint_nonzero p) as Hz.
  unfold Decimal.unorm in H.
  destruct (Decimal.nzhead (Pos.to_uint p)) eqn:E; try (symmetry; exact H).
  now destruct Hz.
Qed.

Lemma all_digits_uint (d : Decimal.uint) :
  Wire.all_digits (NilEmpty.string_of_uint d) = true.
Proof. induction d; simpl; auto. Qed.

Lemma canonical_pos (p : positive) :
  Wire.canonical_unsigned (str_of_int (Zpos p)) = true.
Proof.
  rewrite str_of_int_pos.
  pose proof (to_uint_head p) as H.
  pose proof (Unsigned.to_uint_nonnil p) as Hn.
  destruct (Pos.to_uint p) eqn:E; simpl;
    try apply all_digits_uint.
  - now destruct Hn.
  - exfalso. simpl in H. apply (DecimalFacts.nzhead_nonzero _ _ H).
Qed.

Lemma first_char_pos (p : positive) :
  Wire.has_minus (str_of_int (Zpos p)) = false.
Proof.
  pose proof (canonical_pos p) as H.
  destruct (str_of_int (Zpos p)) as [|c r]; [reflexivity|].
  simpl in *. apply andb_prop in H. destruct H as [H _].
  destruct (Ascii.eqb_spec c "-"); [subst; discriminate H | reflexivity].
Qed.

Lemma parse_str_of_int (v : Z) :
  Wire.parse_int (str_of_int v) = Some v.
Proof.
  destruct v as [|p|p].
  - reflexivity.
  - pose proof (first_char_pos p) as Hm. pose proof (digits_value_pos p) as Hd.
    unfold Wire.parse_int. destruct (str_of_int (Zpos p)) as [|c r].
    + discriminate Hd.
    + simpl in Hm. rewrite Hm. exact Hd.
  - rewrite str_of_int_neg. unfold Wire.parse_int.
    rewrite Ascii.eqb_refl.
    pose proof (digits_value_pos p) as Hd.
    destruct (str_of_int (Zpos p)) as [|c r]; [discriminate Hd|].
    rewrite Hd. reflexivity.
Qed.

Lemma canonical_str_of_int (v : Z) :
  Wire.canonical_decimal (str_of_int v) = true.
Proof.
  destruct v as [|p|p].
  - reflexivity.
  - pose proof (first_char_pos p) as Hm. pose proof (canonical_pos p) as Hc.
    unfold Wire.canonical_decimal.
    destruct (str_of_int (Zpos p)) as [|c r]; [discriminate Hc|].
    simpl in Hm. rewrite Hm, Hc. apply orb_true_r.
  - rewrite str_of_int_neg. unfold Wire.canonical_decimal.
    rewrite Ascii.eqb_refl. apply canonical_pos.
Qed.

Lemma has_minus_str_of_int (v : Z) :
  Wire.has_minus (str_of_int v) = (v <? 0).
Proof.
  destruct v as [|p|p]; try reflexivity. apply first_char_pos.
Qed.

Lemma split_last_snoc (s : string) (c : ascii) :
  Wire.split_last (s ++ String c EmptyString) = Some (s, c).
Proof.
  induction s as [|a s IH]; simpl; [reflexivity|]. now rewrite IH.
Qed.

Lemma decode_command_line (c : ascii) (v : Z) :
  Wire.reference_decode (command_line (String c EmptyString) v)
  = Some (String c EmptyString, v).
Proof.
  unfold command_line, Wire.reference_decode, newline. simpl.
  rewrite split_last_snoc, Ascii.eqb_refl, parse_str_of_int. reflexivity.
Qed.

Lemma table_symbol_single (symbol : string) (lo hi : Z) :
  In (symbol, (lo, hi)) Wire.table ->
  exists c, symbol = String c EmptyString.
Proof.
  unfold Wire.table; simpl.
  intros H; repeat destruct H as [H|H]; try contradiction;
    inversion H; subst; eexists; reflexivity.
Qed.

(** C7: for every symbol of the table and every value of its range, the
    command line is the one-character symbol, the decimal numeral of the
    value (no leading zero, a minus sign exactly for a negative value) and one
    line feed, and the reference decoder gives the symbol and the value
    back. *)
Theorem command_line_round_trip (symbol : string) (value : Z) :
  Wire.in_table symbol value = true ->
  String.length symbol = 1%nat /\
  command_line symbol value
  = (symbol ++ str_of_int value ++ String LF EmptyString)%string /\
  Wire.canonical_decimal (str_of_int value) = true /\
  Wire.has_minus (str_of_int value) = (value <? 0) /\
  Wire.reference_decode (command_line symbol value) = Some (symbol, value).
Proof.
  intros Hin. unfold Wire.in_table in Hin. rewrite existsb_exists in Hin.
  destruct Hin as [[sym [lo hi]] [Htab Hentry]]. cbn [fst snd] in Hentry.
  apply andb_prop in Hentry. destruct Hentry as [Hentry _].
  apply andb_prop in Hentry. destruct Hentry as [Hsym _].
  apply String.eqb_eq in Hsym. subst sym.
  destruct (table_symbol_single symbol lo hi Htab) as [c ->].
  split; [reflexivity|]. split; [reflexivity|].
  split; [apply canonical_str_of_int|].
  split; [apply has_minus_str_of_int|apply decode_command_line].
Qed.

Lemma command_line_round_trip_witness :
  Wire.reference_decode (command_line "Y" (-25)) = Some ("Y"%string, -25) /\
  Wire.reference_decode (command_line "G" 100) = Some ("G"%string, 100).
Proof.
  split.
  - exact (proj2 (proj2 (proj2 (proj2
             (command_line_round_trip "Y" (-25) eq_refl))))).
  - exact (proj2 (proj2 (proj2 (proj2
             (command_line_round_trip "G" 100 eq_refl))))).
Defined.

(** *** binary64 multiplication stays finite on the documented ranges *)

Section Rounding.

Lemma digits2_pos_lower (p : positive) :
  2 ^ (Zpos (digits2_pos p) - 1) <= Zpos p.
Proof.
  induction p as [p IH|p IH|]; cbn [digits2_pos].
  - rewrite Pos2Z.inj_succ.
    replace (Z.succ (Zpos (digits2_pos p)) - 1)
      with (Z.succ (Zpos (digits2_pos p) - 1)) by lia.
    rewrite Z.pow_succ_r by lia. lia.
  - rewrite Pos2Z.inj_succ.
    replace (Z.succ (Zpos (digits2_pos p)) - 1)
      with (Z.succ (Zpos (digits2_pos p) - 1)) by lia.
    rewrite Z.pow_succ_r by lia. lia.
  - simpl. lia.
Qed.

Lemma Zdigits2_le (m k : Z) :
  0 <= k -> 0 <= m < 2 ^ k -> Zdigits2 m <= k.
Proof.
  intros Hk [Hm Hlt]. destruct m as [|p|p]; simpl; try lia.
  pose proof (digits2_pos_lower p) as Hl.
  destruct (Z_le_gt_dec (Zpos (digits2_pos p)) k) as [|Hgt]; [assumption|].
  exfalso.
  assert (2 ^ k <= 2 ^ (Zpos (digits2_pos p) - 1))
    by (apply Z.pow_le_mono_r; lia).
  lia.
Qed.

Lemma digits2_pos_upper (p : positive) :
  Zpos p < 2 ^ Zpos (digits2_pos p).
Proof.
  induction p as [p IH|p IH|]; cbn [digits2_pos];
    try (rewrite Pos2Z.inj_succ, Z.pow_succ_r by lia; lia).
  simpl. lia.
Qed.

Lemma shr_1_bounds (r : shr_record) :
  0 <= shr_m r -> 0 <= shr_m (shr_1 r) <= shr_m r.
Proof.
  destruct r as [m r s]; simpl. intros H.
  destruct m as [|[p|p|]|p]; simpl; lia.
Qed.

Lemma iter_shr_1_bounds (p : positive) (r : shr_record) :
  0 <= shr_m r -> 0 <= shr_m (iter_pos shr_1 p r) <= shr_m r.
Proof.
  revert r; induction p as [p IH|p IH|]; intros r H; cbn [iter_pos].
  - pose proof (shr_1_bounds r H) as H1.
    pose proof (IH _ (proj1 H1)) as H2.
    pose proof (IH _ (proj1 H2)) as H3. lia.
  - pose proof (IH _ H) as H2.
    pose proof (IH _ (proj1 H2)) as H3. lia.
  - apply shr_1_bounds; assumption.
Qed.

Lemma shr_record_of_loc_m (m : Z) (l : location) :
  shr_m (shr_record_of_loc m l) = m.
Proof. destruct l as [|[]]; reflexivity. Qed.

(** One rounding shift never grows the mantissa, and moves the exponent to
    the larger of the old one and the canonical one. *)
Lemma shr_fexp_bounds (m e : Z) (l : location) :
  0 <= m ->
  0 <= shr_m (fst (shr_fexp prec emax m e l)) <= m /\
  snd (shr_fexp prec emax m e l)
  = Z.max e (fexp prec emax (Zdigits2 m + e)).
Proof.
  intros Hm. unfold shr_fexp, shr.
  destruct (fexp prec emax (Zdigits2 m + e) - e) as [|p|p] eqn:E; simpl.
  - rewrite shr_record_of_loc_m. lia.
  - pose proof (iter_shr_1_bounds p (shr_record_of_loc m l)) as H.
    rewrite shr_record_of_loc_m in H. split; [apply H; assumption|lia].
  - rewrite shr_record_of_loc_m. lia.
Qed.

Lemma round_nearest_even_bounds (m : Z) (l : location) :
  m <= round_nearest_even m l <= m + 1.
Proof.
  destruct l as [|[]]; simpl; try lia. destruct (Z.even m); lia.
Qed.

Lemma fexp_le (z b : Z) :
  z - 53 <= b -> -1074 <= b -> fexp prec emax z <= b.
Proof. unfold fexp, emin, prec, emax. lia. Qed.

(** Rounding a mantissa below [2^106] at an exponent of at most [-98]
    gives zero or a finite number. *)
Lemma binary_round_aux_finite (s : bool) (m e : Z) (l : location) :
  0 <= m < 2 ^ 106 -> e <= -98 ->
  match binary_round_aux prec emax s m e l with
  | S754_zero _ | S754_finite _ _ _ => True
  | _ => False
  end.
Proof.
  intros [Hm Hlt] He. unfold binary_round_aux.
  pose proof (shr_fexp_bounds m e l Hm) as [Hm1 He1].
  destruct (shr_fexp prec emax m e l) as [r1 e1]; simpl in Hm1, He1.
  pose proof (round_nearest_even_bounds (shr_m r1) (loc_of_shr_record r1))
    as Hr.
  set (m2 := round_nearest_even (shr_m r1) (loc_of_shr_record r1)) in *.
  assert (Hm2 : 0 <= m2) by lia.
  pose proof (shr_fexp_bounds m2 e1 loc_Exact Hm2) as [Hm3 He3].
  destruct (shr_fexp prec emax m2 e1 loc_Exact) as [r3 e3];
    simpl in Hm3, He3.
  assert (Hd1 : Zdigits2 m <= 106) by (apply Zdigits2_le; lia).
  assert (Hd2 : Zdigits2 m2 <= 107).
  { apply Zdigits2_le; [lia|]. split; [lia|].
    change (2 ^ 107) with (2 * 2 ^ 106). lia. }
  assert (Hd1' : 0 <= Zdigits2 m) by (destruct m; simpl; lia).
  assert (He1' : e1 <= -45).
  { rewrite He1. apply Z.max_lub; [lia|]. apply fexp_le; lia. }
  assert (He3' : e3 <= 971).
  { rewrite He3. apply Z.max_lub; [lia|]. apply fexp_le; lia. }
  destruct (shr_m r3) as [|p|p]; try exact I; try lia.
  replace (e3 <=? emax - prec) with true; [exact I|].
  symmetry. apply Z.leb_le. unfold emax, prec. lia.
Qed.

End Rounding.

Lemma unit_range_shape (x : float) :
  is_float64 x = true -> in_unit_range x = true ->
  match x with
  | S754_zero _ => True
  | S754_finite _ m e => Zpos m < 2 ^ 53 /\ e <= -52
  | _ => False
  end.
Proof.
  intros Hv Hr. unfold in_unit_range, fleb, SFleb in Hr.
  apply andb_prop in Hr. destruct Hr as [Hlo Hhi].
  destruct x as [s|s| |s m e]; try exact I.
  - destruct s; cbn in Hlo, Hhi; discriminate.
  - cbn in Hlo; discriminate.
  - unfold is_float64 in Hv. cbn [valid_binary] in Hv. unfold bounded in Hv.
    apply andb_prop in Hv. destruct Hv as [Hc _].
    unfold canonical_mantissa in Hc. apply Z.eqb_eq in Hc.
    unfold fexp, emin, prec, emax in Hc.
    assert (He : e <= -52).
    { destruct s; cbn [SFcompare f_m1_0 f_1_0] in Hlo, Hhi.
      - destruct (Z.compare_spec (-52) e); try lia; discriminate Hlo.
      - destruct (Z.compare_spec e (-52)); try lia; discriminate Hhi. }
    split; [|exact He].
    pose proof (digits2_pos_upper m) as Hu.
    assert (Zpos (digits2_pos m) <= 53) by lia.
    assert (2 ^ Zpos (digits2_pos m) <= 2 ^ 53)
      by (apply Z.pow_le_mono_r; lia).
    lia.
Qed.

Lemma float_of_small_int (n : Z) :
  0 <= n <= 100 ->
  exists y, float_of_int n = inr y /\ small_float y = true.
Proof.
  intros Hn.
  assert (H : forallb small_int_ok (seq 0 101) = true) by (vm_compute; reflexivity).
  rewrite forallb_forall in H.
  specialize (H (Z.to_nat n)).
  unfold small_int_ok in H. rewrite Z2Nat.id in H by lia.
  destruct (float_of_int n) as [e|y].
  - exfalso. assert (false = true); [apply H|discriminate].
    apply in_seq. lia.
  - exists y. split; [reflexivity|]. apply H. apply in_seq. lia.
Qed.

(** The product of a float64 of [-1.0, 1.0] with a speed cap of [0, 100]
    is a zero or a finite float, so [int()] of it succeeds. *)
Lemma fmul_int_finite (x : float) (n : Z) :
  is_float64 x = true -> in_unit_range x = true -> 0 <= n <= 100 ->
  exists p a, fmul_int x n = inr p /\ int_of_float p = inr a.
Proof.
  intros Hv Hr Hn.
  pose proof (unit_range_shape x Hv Hr) as Hx.
  destruct (float_of_small_int n Hn) as [y [Hy Hs]].
  unfold fmul_int. rewrite Hy. exists (fmul x y).
  assert (Hfin : match fmul x y with
                 | S754_zero _ | S754_finite _ _ _ => True
                 | _ => False
                 end).
  { destruct x as [sx|sx| |sx mx ex]; try contradiction;
    destruct y as [sy|sy| |sy my ey]; try discriminate Hs; try exact I.
    destruct Hx as [Hmx Hex]. cbn [small_float] in Hs.
    apply andb_prop in Hs. destruct Hs as [Hmy Hey].
    apply Z.ltb_lt in Hmy. apply Z.leb_le in Hey.
    unfold fmul, SFmul. apply binary_round_aux_finite; [|lia].
    split; [lia|]. rewrite Pos2Z.inj_mul.
    change (2 ^ 106) with (2 ^ 53 * 2 ^ 53).
    apply Z.mul_lt_mono_nonneg; lia. }
  destruct (fmul x y) as [s|s| |s m e]; try contradiction;
    eexists; (split; [reflexivity|]); reflexivity.
Qed.

Lemma drive_block (l a : Z) (self : Bridge.ArduinoBridge) (w : world) :
  accepts 2 w = true ->
  let r :=
    try_except
      (serial (Write (command_line "Y" l)) ;;
       sleep 10 ;;
       serial (Write (command_line "X" a)) ;;
       log DEBUG ("Sent: Y" ++ str_of_int l ++ ", X" ++ str_of_int a)%string)
      (fun e =>
         match e with
         | SerialException msg =>
             Some (log ERROR ("Serial write error: " ++ msg)%string)
         | _ => None
         end) self w in
  out r = Ret tt /\ evs r = drive_trace l a.
Proof.
  destruct w as [link stdin ok]. unfold accepts. cbn [w_link].
  intros Hacc.
  destruct link as [|r1 [|r2 link]];
    [ | destruct r1; try discriminate Hacc
      | destruct r1; try discriminate Hacc; destruct r2; try discriminate Hacc ];
    split; reflexivity.
Qed.

(** C1, as the code has it: for a velocity command whose two fields are
    float64 values in [-1.0, 1.0], a speed cap in [0, 100] and a port that
    takes the next two writes, [cmd_vel_callback] returns after exactly two
    writes in this order: the forward/back channel [Y] with
    [int(linear * max_speed)], truncated toward zero and clamped to
    [-100, 100], then the turn channel [X] with [int(angular * max_speed)]
    clamped likewise.  One sleep of 10 ms stands between the two writes and
    none follows the second ([drive_trace]). *)
Theorem cmd_vel_two_writes (msg : Bridge.Twist) (self : Bridge.ArduinoBridge)
  (w : world) :
  is_float64 (Bridge.linear_x msg) = true ->
  is_float64 (Bridge.angular_z msg) = true ->
  in_unit_range (Bridge.linear_x msg) = true ->
  in_unit_range (Bridge.angular_z msg) = true ->
  0 <= Bridge.max_speed self <= 100 ->
  accepts 2 w = true ->
  exists fl fa l a,
    fmul_int (Bridge.linear_x msg) (Bridge.max_speed self) = inr fl /\
    int_of_float fl = inr l /\
    fmul_int (Bridge.angular_z msg) (Bridge.max_speed self) = inr fa /\
    int_of_float fa = inr a /\
    out (Bridge.cmd_vel_callback msg self w) = Ret tt /\
    evs (Bridge.cmd_vel_callback msg self w)
    = drive_trace (clamp (-100) 100 l) (clamp (-100) 100 a).
Proof.
  intros Hvx Hvz Hrx Hrz Hms Hacc.
  destruct (fmul_int_finite _ _ Hvx Hrx Hms) as [fl [l [Hfl Hl]]].
  destruct (fmul_int_finite _ _ Hvz Hrz Hms) as [fa [a [Hfa Ha]]].
  exists fl, fa, l, a. repeat (split; [assumption|]).
  unfold Bridge.cmd_vel_callback. rewrite bind_get.
  rewrite Hfl. cbn [of_sum]. rewrite bind_ret.
  rewrite Hl. cbn [of_sum]. rewrite bind_ret.
  rewrite Hfa. cbn [of_sum]. rewrite bind_ret.
  rewrite Ha. cbn [of_sum]. rewrite bind_ret.
  apply (drive_block (clamp (-100) 100 l) (clamp (-100) 100 a) self w Hacc).
Qed.

(** [int()] of a finite float is the quotient, rounded toward zero, of its
    exact value [(-1)^s * m * 2^e]. *)
Lemma int_of_float_truncates (s : bool) (m : positive) (e : Z) :
  int_of_float (S754_finite s m e)
  = inr (Z.quot ((if s then -1 else 1) * (Zpos m * 2 ^ Z.max e 0))
                (2 ^ Z.max (- e) 0)).
Proof.
  unfold int_of_float. f_equal.
  destruct (Z.leb_spec 0 e) as [He|He].
  - rewrite Z.max_l, Z.max_r by lia. rewrite Z.shiftl_mul_pow2 by lia.
    change (2 ^ 0) with 1. rewrite Z.quot_1_r. destruct s; lia.
  - rewrite Z.max_r, Z.max_l by lia. rewrite Z.shiftr_div_pow2 by lia.
    change (2 ^ 0) with 1. rewrite Z.mul_1_r.
    assert (Hp : 0 < 2 ^ (- e)) by (apply Z.pow_pos_nonneg; lia).
    destruct s.
    + replace (-1 * Zpos m) with (- Zpos m) by lia.
      rewrite Z.quot_opp_l by lia. rewrite Z.quot_div_nonneg by lia.
      reflexivity.
    + rewrite Z.mul_1_l. rewrite Z.quot_div_nonneg by lia. reflexivity.
Qed.

(** The two commands of the specification: (1.0, 0.0) under a cap of 100
    writes [Y100] then [X0], and (-0.5, 0.5) under a cap of 50 writes [Y-25]
    then [X25]. *)
Lemma cmd_vel_two_writes_witness :
  evs (Bridge.cmd_vel_callback (Bridge.mkTwist f_1_0 f_0_0)
         (Bridge.mkBridge 100) (quiet []))
  = drive_trace 100 0 /\
  evs (Bridge.cmd_vel_callback (Bridge.mkTwist f_m0_5 f_0_5)
         (Bridge.mkBridge 50) (quiet []))
  = drive_trace (-25) 25.
Proof.
  split.
  - destruct (cmd_vel_two_writes (Bridge.mkTwist f_1_0 f_0_0)
                (Bridge.mkBridge 100) (quiet []) eq_refl eq_refl eq_refl eq_refl
                ltac:(simpl; lia) eq_refl)
      as [fl [fa [l [a [Hfl [Hl [Hfa [Ha [_ Hevs]]]]]]]]].
    vm_compute in Hfl. injection Hfl as <-.
    vm_compute in Hfa. injection Hfa as <-.
    vm_compute in Hl. injection Hl as <-.
    vm_compute in Ha. injection Ha as <-.
    exact Hevs.
  - destruct (cmd_vel_two_writes (Bridge.mkTwist f_m0_5 f_0_5)
                (Bridge.mkBridge 50) (quiet []) eq_refl eq_refl eq_refl eq_refl
                ltac:(simpl; lia) eq_refl)
      as [fl [fa [l [a [Hfl [Hl [Hfa [Ha [_ Hevs]]]]]]]]].
    vm_compute in Hfl. injection Hfl as <-.
    vm_compute in Hfa. injection Hfa as <-.
    vm_compute in Hl. injection Hl as <-.
    vm_compute in Ha. injection Ha as <-.
    exact Hevs.
Defined.

(** C1 as stated fails: the write of the turn channel is the last call on the
    port, and no delay follows it. *)
Lemma cmd_vel_no_delay_after_turn_write :
  evs (Bridge.cmd_vel_callback (Bridge.mkTwist f_1_0 f_0_0)
         (Bridge.mkBridge 100) (quiet []))
  = [ Serial (Write (command_line "Y" 100)); Sleep 10;
      Serial (Write (command_line "X" 0)); Log DEBUG "Sent: Y100, X0" ] /\
  each_write_followed_by_delay 10
    (evs (Bridge.cmd_vel_callback (Bridge.mkTwist f_1_0 f_0_0)
            (Bridge.mkBridge 100) (quiet []))) = false.
Proof. split; vm_compute; reflexivity. Qed.

(** *** Every drive value on the wire is clamped *)

(** C9: whatever the two fields of the message (outside [-1.0, 1.0], infinite
    or not a number), whatever the speed cap and whatever the port answers,
    every write that [cmd_vel_callback] attempts carries [Y] or [X] followed by
    an integer of [-100, 100]. *)
Theorem drive_values_always_clamped (msg : Bridge.Twist)
  (self : Bridge.ArduinoBridge) (w : world) :
  Forall drive_write_in_range (evs (Bridge.cmd_vel_callback msg self w)).
Proof.
  unfold Bridge.cmd_vel_callback.
  apply Forall_bind; [constructor|]. intros self' s1 w1.
  apply Forall_bind; [apply Forall_of_sum|]. intros lx s2 w2.
  apply Forall_bind; [apply Forall_of_sum|]. intros linear s3 w3.
  apply Forall_bind; [apply Forall_of_sum|]. intros az s4 w4.
  apply Forall_bind; [apply Forall_of_sum|]. intros angular s5 w5.
  apply Forall_try_except.
  - apply Forall_bind.
    { apply Forall_serial; cbn;
        (exists (Z.max (-100) (Z.min 100 linear)); split; [lia|left; reflexivity]). }
    intros _ s6 w6. apply Forall_bind; [apply Forall_emit; exact I|].
    intros _ s7 w7. apply Forall_bind.
    { apply Forall_serial; cbn;
        (exists (Z.max (-100) (Z.min 100 angular)); split; [lia|right; reflexivity]). }
    intros _ s8 w8. apply Forall_emit; exact I.
  - intros e k s' w' Hk. destruct e; try discriminate Hk.
    injection Hk as <-. apply Forall_emit; exact I.
Qed.

(** A command of (3.0, -1.0) under a cap of 100 goes out as Y100, X-100. *)
Example over_range_command_is_clamped :
  evs (Bridge.cmd_vel_callback (Bridge.mkTwist f_3_0 f_m1_0)
         (Bridge.mkBridge 100) (quiet []))
  = drive_trace 100 (-100).
Proof. vm_compute. reflexivity. Qed.

(** *** [main] never reaches the stop-and-close sequence *)

Section BridgeEvents.

Variable P : event -> Prop.
Hypothesis P_open : forall port baud,
  P (Serial (Open port baud)) /\ P (SerialRaised (Open port baud)).
Hypothesis P_write : forall data,
  P (Serial (Write data)) /\ P (SerialRaised (Write data)).
Hypothesis P_other : forall ev,
  match ev with
  | Sleep _ | Log _ _ | Stdout _ | CreateSubscription _
  | RclpyInit | RclpyShutdown => P ev
  | _ => True
  end.

Lemma init_events port baud ms w :
  Forall P (evs (Bridge.init port baud ms tt w)).
Proof.
  unfold Bridge.init.
  apply Forall_bind.
  - apply Forall_try_except.
    + apply Forall_bind; [apply Forall_serial; apply P_open|].
      intros _ s1 w1.
      apply Forall_bind; [apply Forall_emit; exact (P_other (Sleep 2000))|].
      intros _ s2 w2. apply Forall_emit. exact (P_other (Log _ _)).
    + intros e k s' w' Hk. destruct e; try discriminate Hk.
      injection Hk as <-.
      apply Forall_bind; [apply Forall_emit; exact (P_other (Log _ _))|].
      intros; constructor.
  - intros _ s1 w1.
    apply Forall_bind;
      [apply Forall_emit; exact (P_other (CreateSubscription _))|].
    intros _ s2 w2.
    apply Forall_bind; [apply Forall_emit; exact (P_other (Log _ _))|].
    intros; constructor.
Qed.

Lemma callback_events msg self w :
  Forall P (evs (Bridge.cmd_vel_callback msg self w)).
Proof.
  unfold Bridge.cmd_vel_callback.
  apply Forall_bind; [constructor|]. intros self' s1 w1.
  apply Forall_bind; [apply Forall_of_sum|]. intros lx s2 w2.
  apply Forall_bind; [apply Forall_of_sum|]. intros linear s3 w3.
  apply Forall_bind; [apply Forall_of_sum|]. intros az s4 w4.
  apply Forall_bind; [apply Forall_of_sum|]. intros angular s5 w5.
  apply Forall_try_except.
  - apply Forall_bind; [apply Forall_serial; apply P_write|].
    intros _ s6 w6.
    apply Forall_bind; [apply Forall_emit; exact (P_other (Sleep 10))|].
    intros _ s7 w7.
    apply Forall_bind; [apply Forall_serial; apply P_write|].
    intros _ s8 w8. apply Forall_emit; exact (P_other (Log _ _)).
  - intros e k s' w' Hk. destruct e; try discriminate Hk.
    injection Hk as <-. apply Forall_emit; exact (P_other (Log _ _)).
Qed.

Lemma spin_events msgs stop self w :
  Forall P (evs (Bridge.spin msgs stop self w)).
Proof.
  revert self w. induction msgs as [|msg msgs IH]; intros self w.
  - destruct stop; constructor.
  - cbn [Bridge.spin]. apply Forall_bind; [apply callback_events|].
    intros _ s' w'. apply IH.
Qed.

Lemma main_events port baud ms msgs stop w :
  Forall P (evs (Bridge.main port baud ms msgs stop tt w)).
Proof.
  unfold Bridge.main.
  apply Forall_bind; [apply Forall_emit; exact (P_other RclpyInit)|].
  intros _ [] w1. apply Forall_try_finally.
  - apply Forall_try_except.
    + apply Forall_bind; [apply init_events|].
      intros node [] w2. apply Forall_on_object. apply spin_events.
    + intros e k s' w' Hk.
      destruct e; cbn in Hk; injection Hk as <-;
        try (apply Forall_emit; exact (P_other (Stdout _))); constructor.
  - intros s' w'. apply Forall_bind; [constructor|].
    intros [] s2 w2; [|constructor].
    apply Forall_emit. exact (P_other RclpyShutdown).
Qed.

End BridgeEvents.

(** On a port that takes its calls, [destroy_node] stops both drive
    channels and then closes the port. *)
Lemma destroy_node_stops_then_closes (self : Bridge.ArduinoBridge)
  (w : world) :
  accepts 3 w = true ->
  out (Bridge.destroy_node self w) = Ret tt /\
  evs (Bridge.destroy_node self w)
  = [Serial (Write stop_Y); Serial (Write stop_X); Serial Close;
     NodeDestroyed].
Proof.
  destruct w as [link stdin ok]. unfold accepts. cbn [w_link]. intros Hacc.
  destruct link as [|r1 [|r2 [|r3 link]]];
    repeat match goal with
           | r : reply |- _ => destruct r; try discriminate Hacc
           end;
    split; reflexivity.
Qed.

(** C2: the stop-and-close sequence of [destroy_node] is not reached from
    [main].  Whatever the messages, the cause of the stop and the answers of
    the port, a run of [main] closes no port and never runs [destroy_node];
    interrupted after the command (1.0, 0.5), it ends with [Y100] and [X50] as
    the last writes on the link, and the only thing left for it to do is to
    shut [rclpy] down, when the signal handler has not done so already. *)
Theorem main_never_stops_nor_closes :
  (forall port baud ms msgs stop w,
      Forall not_port_release
        (evs (Bridge.main port baud ms msgs stop tt w))) /\
  (let r := Bridge.main "/dev/ttyUSB0" 115200 100
              [Bridge.mkTwist f_1_0 f_0_5] Bridge.Interrupt tt (quiet []) in
   out r = Ret tt /\
   evs r
   = [ RclpyInit; Serial (Open "/dev/ttyUSB0" 115200); Sleep 2000;
       Log INFO "Connected to Arduino on /dev/ttyUSB0";
       CreateSubscription "cmd_vel";
       Log INFO "Arduino bridge node started";
       Serial (Write (command_line "Y" 100)); Sleep 10;
       Serial (Write (command_line "X" 50));
       Log DEBUG "Sent: Y100, X50";
       RclpyShutdown ]) /\
  (let r := Bridge.main "/dev/ttyUSB0" 115200 100
              [Bridge.mkTwist f_1_0 f_0_5] Bridge.SignalShutdown tt
              (quiet []) in
   out r = Ret tt /\
   evs r
   = [ RclpyInit; Serial (Open "/dev/ttyUSB0" 115200); Sleep 2000;
       Log INFO "Connected to Arduino on /dev/ttyUSB0";
       CreateSubscription "cmd_vel";
       Log INFO "Arduino bridge node started";
       Serial (Write (command_line "Y" 100)); Sleep 10;
       Serial (Write (command_line "X" 50));
       Log DEBUG "Sent: Y100, X50" ]).
Proof.
  split; [|split].
  - intros. apply main_events.
    + intros; split; exact I.
    + intros; split; exact I.
    + intros []; exact I.
  - split; vm_compute; reflexivity.
  - split; vm_compute; reflexivity.
Qed.

(** *** A failed stop command *)

(** C8, as the code has it: when a stop write of [destroy_node] raises, the
    exception is swallowed without a log entry, [destroy_node] still returns
    and ends with the teardown of the base class, and neither stop command is
    attempted twice. *)
Theorem failed_stop_is_swallowed (self : Bridge.ArduinoBridge) (w : world) :
  existsb is_failed_stop (evs (Bridge.destroy_node self w)) = true ->
  out (Bridge.destroy_node self w) = Ret tt /\
  last (evs (Bridge.destroy_node self w)) RclpyInit = NodeDestroyed /\
  existsb is_log (evs (Bridge.destroy_node self w)) = false /\
  (attempts stop_Y (evs (Bridge.destroy_node self w)) <= 1)%nat /\
  (attempts stop_X (evs (Bridge.destroy_node self w)) <= 1)%nat.
Proof.
  destruct w as [link stdin ok]. intros _.
  destruct link as [|r1 [|r2 [|r3 link]]];
    repeat match goal with
           | r : reply |- _ => destruct r
           end;
    repeat split; cbn; lia || reflexivity.
Qed.

Lemma failed_stop_is_swallowed_witness :
  out (Bridge.destroy_node (Bridge.mkBridge 100)
         (mkWorld [RRaise "write timeout"] [] true)) = Ret tt /\
  existsb is_log
    (evs (Bridge.destroy_node (Bridge.mkBridge 100)
            (mkWorld [RRaise "write timeout"] [] true))) = false.
Proof.
  pose proof (failed_stop_is_swallowed (Bridge.mkBridge 100)
                (mkWorld [RRaise "write timeout"] [] true) eq_refl) as H.
  split; [exact (proj1 H)|exact (proj1 (proj2 (proj2 H)))].
Defined.

(** The claim as stated fails when the first stop write raises: nothing is
    logged, and the port is not closed. *)
Lemma failed_stop_not_logged_port_left_open :
  evs (Bridge.destroy_node (Bridge.mkBridge 100)
         (mkWorld [RRaise "write timeout"] [] true))
  = [SerialRaised (Write stop_Y); NodeDestroyed] /\
  existsb is_log
    (evs (Bridge.destroy_node (Bridge.mkBridge 100)
            (mkWorld [RRaise "write timeout"] [] true))) = false /\
  existsb is_close
    (evs (Bridge.destroy_node (Bridge.mkBridge 100)
            (mkWorld [RRaise "write timeout"] [] true))) = false.
Proof. repeat split. Qed.

(** *** Buffers at start-up *)

(** C6 as stated fails for the velocity bridge: it writes its commands
    without having reset a buffer. *)
Lemma bridge_sends_without_flushing :
  existsb is_write
    (evs (Bridge.main "/dev/ttyUSB0" 115200 100
            [Bridge.mkTwist f_1_0 f_0_5] Bridge.Interrupt tt (quiet []))) = true /\
  flushed_before_first_write
    (evs (Bridge.main "/dev/ttyUSB0" 115200 100
            [Bridge.mkTwist f_1_0 f_0_5] Bridge.Interrupt tt (quiet []))) = false.
Proof. split; vm_compute; reflexivity. Qed.

Lemma bridge_never_flushes_nor_reads port baud ms msgs stop w :
  Forall no_flush_no_read (evs (Bridge.main port baud ms msgs stop tt w)).
Proof.
  apply main_events.
  - intros; split; exact I.
  - intros; split; exact I.
  - intros []; exact I.
Qed.

(** *** dict *)

Lemma dict_get_set_same {V} (k : string) (v : V) (d : dict V) :
  dict_get k (dict_set k v d) = Some v.
Proof.
  induction d as [|[k' v'] d IH]; cbn [dict_set dict_get].
  - now rewrite String.eqb_refl.
  - destruct (String.eqb k k') eqn:E; cbn [dict_get]; rewrite E; auto.
Qed.

Lemma dict_keys_set {V} (k : string) (v : V) (d : dict V) :
  In k (dict_keys d) -> dict_keys (dict_set k v d) = dict_keys d.
Proof.
  induction d as [|[k' v'] d IH]; cbn [dict_set dict_keys map fst In].
  - contradiction.
  - intros H. destruct (String.eqb_spec k k') as [->|Hne]; cbn [map fst].
    + reflexivity.
    + f_equal. apply IH. destruct H as [H|H]; [congruence|exact H].
Qed.

Lemma dict_values_set {V} (P : V -> Prop) (k : string) (v : V) (d : dict V) :
  Forall (fun kv => P (snd kv)) d -> P v ->
  Forall (fun kv => P (snd kv)) (dict_set k v d).
Proof.
  intros Hd Hv. induction Hd as [|[k' v'] d Hx Hd IH]; cbn [dict_set].
  - constructor; [exact Hv|constructor].
  - destruct (String.eqb k k'); constructor; auto.
Qed.

Lemma dict_get_key {V} (k : string) (d : dict V) :
  In k (dict_keys d) -> exists v, dict_get k d = Some v.
Proof.
  induction d as [|[k' v'] d IH]; cbn [dict_keys map fst In dict_get].
  - contradiction.
  - intros H. destruct (String.eqb_spec k k') as [->|Hne]; [eauto|].
    apply IH. destruct H as [H|H]; [congruence|exact H].
Qed.

Lemma dict_get_value {V} (P : V -> Prop) (k : string) (v : V) (d : dict V) :
  Forall (fun kv => P (snd kv)) d -> dict_get k d = Some v -> P v.
Proof.
  intros Hd. induction Hd as [|[k' v'] d Hx Hd IH]; cbn [dict_get].
  - discriminate.
  - destruct (String.eqb k k'); [intros [= <-]; exact Hx|exact IH].
Qed.

(** *** The invariant of the keyboard program *)

Lemma Inv_initial : Inv UI.initial.
Proof.
  constructor; try reflexivity.
  - left; reflexivity.
  - unfold UI.initial, UI.initial_positions; cbn [UI.positions].
    repeat constructor; cbn; lia.
Qed.

Lemma Inv_position (s : UI.ServoKeyboard) (name : string) :
  Inv s -> In name servo_names ->
  exists p, dict_get name (UI.positions s) = Some p /\ in_servo_range p.
Proof.
  intros HI Hn. destruct (dict_get_key name (UI.positions s)) as [p Hp].
  - rewrite (inv_keys s HI). exact Hn.
  - exists p. split; [exact Hp|].
    apply (dict_get_value in_servo_range name p _ (inv_range s HI) Hp).
Qed.

Lemma Inv_command (s : UI.ServoKeyboard) (name : string) :
  Inv s -> In name servo_names ->
  exists c, dict_get name (UI.servo_commands s) = Some c.
Proof.
  intros HI Hn. rewrite (inv_commands s HI). apply dict_get_key. exact Hn.
Qed.

Lemma Inv_set_position (s : UI.ServoKeyboard) (name : string) (v : Z) :
  Inv s -> In name servo_names -> in_servo_range v ->
  Inv (UI.mkUI (dict_set name v (UI.positions s)) (UI.servo_commands s)
         (UI.current_servo s) (UI.step_size s)).
Proof.
  intros [H1 H2 H3 H4 H5] Hn Hv. constructor; cbn [UI.positions
    UI.servo_commands UI.current_servo UI.step_size]; auto.
  - rewrite dict_keys_set; [exact H2|]. rewrite H2. exact Hn.
  - apply dict_values_set; assumption.
Qed.

Lemma Inv_set_current (s : UI.ServoKeyboard) (name : string) :
  Inv s -> In name servo_names ->
  Inv (UI.mkUI (UI.positions s) (UI.servo_commands s) name (UI.step_size s)).
Proof. intros [H1 H2 H3 H4 H5] Hn. constructor; auto. Qed.

(** *** Every method keeps the invariant *)

Lemma triple_state {S A} (P : S -> Prop) (m : M S A) Q I E :
  (forall s0, P s0 -> triple (eq s0) m Q I E) -> triple P m Q I E.
Proof. intros H s w Hs. apply (H s Hs s w eq_refl). Qed.

Lemma triple_bind_ret {S A B} (P : S -> Prop) (a : A) (k : A -> M S B)
  Q I E :
  triple P (k a) Q I E -> triple P (bind (ret a) k) Q I E.
Proof. intros H s w Hs. rewrite bind_ret. apply H; exact Hs. Qed.

Lemma triple_from {S A} (P : S -> Prop) (s0 : S) (m : M S A) Q I E :
  P s0 -> triple P m Q I E -> triple (eq s0) m Q I E.
Proof. intros HP H s w <-. apply H; exact HP. Qed.

Ltac tbind H := eapply triple_bind; [H | intros ?; cbv beta].

Section Keeps.

Variable P : UI.ServoKeyboard -> Prop.

Lemma in_waiting_triple (E : exn -> Prop) :
  (forall msg, E (SerialException msg)) ->
  triple P UI.in_waiting (fun _ => P) P E.
Proof.
  intros HE. unfold UI.in_waiting.
  tbind ltac:(apply triple_serial; exact HE).
  destruct a; apply (triple_ret _ (fun _ => P)).
Qed.

Lemma readline_decode_triple :
  triple P UI.readline_decode (fun _ => P) P E_port.
Proof.
  unfold UI.readline_decode.
  tbind ltac:(apply triple_serial; intros msg; left; eexists; reflexivity).
  destruct a as [| | |[line|]]; try apply (triple_ret _ (fun _ => P)).
  apply triple_raise. right; reflexivity.
Qed.

Lemma log_triple (l : level) (msg : string) (E : exn -> Prop) :
  triple P (log l msg) (fun _ => P) P E.
Proof. apply triple_emit. Qed.

Lemma send_body_triple (name command : string) (position : Z) :
  triple P
    (serial ResetInput ;;
     log INFO ("Sending: " ++ strip command)%string ;;
     serial (Write command) ;;
     serial Flush ;;
     sleep 50 ;;
     n <- UI.in_waiting ;;
     (if n =? 0 then ret tt
      else
        response <- UI.readline_decode ;;
        log INFO ("Arduino: " ++ strip response)%string) ;;
     log INFO (name ++ ": " ++ str_of_int position ++ "%")%string)
    (fun _ => P) P E_port.
Proof.
  assert (HE : forall msg, E_port (SerialException msg))
    by (intros msg; left; eexists; reflexivity).
  tbind ltac:(apply triple_serial; exact HE).
  tbind ltac:(apply log_triple).
  tbind ltac:(apply triple_serial; exact HE).
  tbind ltac:(apply triple_serial; exact HE).
  tbind ltac:(apply triple_emit).
  tbind ltac:(apply in_waiting_triple; exact HE).
  eapply triple_bind; [|intros ?; apply log_triple].
  destruct (a4 =? 0).
  - apply (triple_ret tt (fun _ => P)).
  - tbind ltac:(apply readline_decode_triple). apply log_triple.
Qed.

End Keeps.

Lemma send_triple (name : string) :
  In name servo_names ->
  triple Inv (UI.send_servo_command name) (fun _ => Inv) Inv E_decode.
Proof.
  intros Hn. unfold UI.send_servo_command.
  tbind ltac:(apply triple_get).
  apply triple_state. intros s0 [-> HI].
  destruct (Inv_command s0 name HI Hn) as [c Hc].
  destruct (Inv_position s0 name HI Hn) as [p [Hp _]].
  unfold dict_item. rewrite Hc, Hp. cbn [of_sum].
  do 2 apply triple_bind_ret.
  apply (triple_from Inv s0); [exact HI|].
  eapply triple_try_except.
  - apply send_body_triple.
  - intros e k He Hk. destruct e; try discriminate Hk.
    injection Hk as <-. apply log_triple.
  - intros e [[msg ->]| ->] Hk; [discriminate Hk|reflexivity].
Qed.

Lemma print_status_triple :
  triple Inv UI.print_status (fun _ => Inv) Inv E_none.
Proof.
  unfold UI.print_status.
  tbind ltac:(apply triple_get).
  apply triple_state. intros s0 [-> HI].
  destruct (Inv_position s0 _ HI (inv_current s0 HI)) as [p [Hp _]].
  unfold dict_item. rewrite Hp. cbn [of_sum].
  apply triple_bind_ret.
  apply (triple_from Inv s0); [exact HI|].
  apply triple_emit.
Qed.

Lemma set_position_triple (name : string) (v : Z) :
  In name servo_names -> in_servo_range v ->
  triple Inv (UI.set_position name v) (fun _ => Inv) Inv E_none.
Proof.
  intros Hn Hv s w HI. cbn. apply Inv_set_position; assumption.
Qed.

Lemma set_current_triple (name : string) :
  In name servo_names ->
  triple Inv (UI.set_current name) (fun _ => Inv) Inv E_none.
Proof.
  intros Hn s w HI. cbn. apply Inv_set_current; assumption.
Qed.

Lemma triple_exn {S A} (P : S -> Prop) (m : M S A) Q I (E E' : exn -> Prop) :
  triple P m Q I E' -> (forall e, E' e -> E e) -> triple P m Q I E.
Proof. intros H HE. eapply triple_weaken; eauto. Qed.

Lemma step_current_triple (f : Z -> Z) :
  (forall p, in_servo_range p -> in_servo_range (f p)) ->
  triple Inv (UI.step_current f) (fun _ => Inv) Inv E_decode.
Proof.
  intros Hf. unfold UI.step_current.
  tbind ltac:(apply triple_get).
  apply triple_state. intros s0 [-> HI].
  destruct (Inv_position s0 _ HI (inv_current s0 HI)) as [p [Hp Hr]].
  unfold dict_item. rewrite Hp. cbn [of_sum]. apply triple_bind_ret.
  apply (triple_from Inv s0); [exact HI|].
  tbind ltac:(eapply triple_exn;
              [apply set_position_triple;
               [exact (inv_current s0 HI)|apply Hf; exact Hr]
              |intros e []]).
  tbind ltac:(apply send_triple; exact (inv_current s0 HI)).
  eapply triple_exn; [apply print_status_triple|intros e []].
Qed.

Lemma center_all_triple :
  triple Inv UI.center_all_servos (fun _ => Inv) Inv E_decode.
Proof.
  unfold UI.center_all_servos.
  tbind ltac:(apply triple_get).
  apply triple_state. intros s0 [-> HI]. rewrite (inv_keys s0 HI).
  apply (triple_from Inv s0); [exact HI|].
  tbind ltac:(apply triple_for_each); [|apply log_triple].
  intros servo Hs.
  tbind ltac:(eapply triple_exn;
              [apply set_position_triple;
               [exact Hs|unfold in_servo_range; lia]|intros e []]).
  tbind ltac:(apply send_triple; exact Hs).
  apply triple_emit.
Qed.

Lemma home_positions_ok (servo : string) (pos : Z) :
  In (servo, pos) UI.home_positions ->
  In servo servo_names /\ in_servo_range pos.
Proof.
  unfold UI.home_positions, servo_names, in_servo_range. cbn.
  intros H; repeat destruct H as [H|H]; try contradiction;
    injection H as <- <-; split; try lia; tauto.
Qed.

Lemma home_triple :
  triple Inv UI.home_position (fun _ => Inv) Inv E_decode.
Proof.
  unfold UI.home_position.
  tbind ltac:(apply triple_for_each); [|apply log_triple].
  intros [servo pos] Hs. destruct (home_positions_ok servo pos Hs) as [Hn Hr].
  tbind ltac:(eapply triple_exn;
              [apply set_position_triple; assumption|intros e []]).
  tbind ltac:(apply send_triple; exact Hn).
  apply triple_emit.
Qed.

Lemma get_key_triple (P : UI.ServoKeyboard -> Prop) :
  triple P UI.get_key (fun k s => P s /\ key_ok k) P
    (fun e => e = KeyboardInterrupt).
Proof.
  intros s [link stdin ok] HP. unfold UI.get_key, bind, read1.
  cbn [w_stdin w_link w_ok].
  destruct stdin as [|[c| |] stdin]; cbn [out st env evs]; auto.
  - destruct (String.eqb (String c EmptyString) (String ESC EmptyString));
      cbn [out st env evs w_stdin w_link w_ok ret].
    + assert (Hesc : forall r, P s /\ key_ok (String ESC r))
        by (intros r; split; [exact HP|right; eexists; reflexivity]).
      destruct stdin as [|[c1| |] stdin]; cbn [out st env evs]; auto.
      * cbn [String.eqb Ascii.eqb w_stdin w_link w_ok ret out st env evs].
        destruct stdin as [|[c2| |] stdin]; cbn [out st env evs]; auto.
      * cbn. auto.
    + split; [exact HP|left; cbn; lia].
  - destruct (String.eqb EmptyString (String ESC EmptyString)) eqn:E;
      [discriminate E|]. cbn. split; [exact HP|left; cbn; lia].
Qed.

(** A key that passes the test [key in '1234567'] is empty or one of the
    seven digits. *)
Lemma digit_key (key : string) :
  key_ok key -> str_in key "1234567" = true ->
  key = EmptyString \/
  In key ["1"; "2"; "3"; "4"; "5"; "6"; "7"]%string.
Proof.
  intros [Hlen|[r ->]] Hin.
  - destruct key as [|c [|c' r]]; [left; reflexivity| |cbn in Hlen; lia].
    right.
    destruct c as [[] [] [] [] [] [] [] []]; vm_compute in Hin;
      try discriminate Hin; cbn; tauto.
  - exfalso. vm_compute in Hin. discriminate Hin.
Qed.

Lemma select_triple (key : string) (s0 : UI.ServoKeyboard) :
  Inv s0 -> key_ok key -> str_in key "1234567" = true ->
  triple (eq s0)
    (n <- of_sum (int_of_str key) ;;
     name <- of_sum (list_index (dict_keys (UI.positions s0)) (n - 1)) ;;
     UI.set_current name ;;
     UI.print_status ;;
     ret true)
    (fun _ => Inv) Inv E_key.
Proof.
  intros HI Hk Hin. rewrite (inv_keys s0 HI).
  apply (triple_from Inv s0); [exact HI|].
  destruct (digit_key key Hk Hin) as [->|Hd].
  - cbn [int_of_str of_sum]. intros s w Hs. rewrite bind_raise.
    cbn [out st]. split; [exact Hs|]. right; eexists; reflexivity.
  - cbn in Hd.
    repeat destruct Hd as [<-|Hd]; try contradiction;
      (apply triple_bind_ret; apply triple_bind_ret;
       tbind ltac:(eapply triple_exn;
                   [apply set_current_triple; cbn; tauto|intros e []]);
       tbind ltac:(eapply triple_exn;
                   [apply print_status_triple|intros e []]);
       apply (triple_ret _ (fun _ => Inv))).
Qed.

Lemma handle_key_triple (key : string) :
  key_ok key ->
  triple Inv (UI.handle_key key) (fun _ => Inv) Inv E_key.
Proof.
  intros Hk. unfold UI.handle_key.
  tbind ltac:(apply triple_get).
  apply triple_state. intros s0 [-> HI].
  assert (Hret : forall b : bool, triple Inv (ret b) (fun _ => Inv) Inv E_key)
    by (intros b; apply (triple_ret _ (fun _ => Inv))).
  assert (Hdec : forall e, E_decode e -> E_key e)
    by (intros e ->; left; reflexivity).
  assert (Hstatus : triple Inv UI.print_status (fun _ => Inv) Inv E_key)
    by (eapply triple_exn; [apply print_status_triple|intros e []]).
  destruct (str_in key "1234567") eqn:Hin;
    [apply select_triple; assumption|].
  apply (triple_from Inv s0); [exact HI|].
  rewrite (inv_step s0 HI).
  repeat match goal with
         | |- triple _ (if ?b then _ else _) _ _ _ => destruct b
         end;
    try (tbind ltac:(eapply triple_exn;
                     [apply step_current_triple; unfold in_servo_range; lia
                     |exact Hdec]); apply Hret).
  - tbind ltac:(eapply triple_exn; [apply center_all_triple|exact Hdec]).
    tbind ltac:(exact Hstatus). apply Hret.
  - tbind ltac:(eapply triple_exn; [apply home_triple|exact Hdec]).
    tbind ltac:(exact Hstatus). apply Hret.
  - tbind ltac:(eapply triple_exn;
                [apply set_position_triple;
                 [exact (inv_current s0 HI)|unfold in_servo_range; lia]
                |intros e []]).
    tbind ltac:(eapply triple_exn;
                [apply send_triple; exact (inv_current s0 HI)|exact Hdec]).
    tbind ltac:(exact Hstatus). apply Hret.
  - tbind ltac:(apply triple_emit). tbind ltac:(exact Hstatus). apply Hret.
  - tbind ltac:(apply triple_emit). apply Hret.
  - apply Hret.
Qed.

Lemma loop_triple (n : nat) :
  triple Inv (UI.loop n) (fun _ => Inv) Inv E_loop.
Proof.
  induction n as [|n IH]; cbn [UI.loop].
  - apply triple_pending.
  - tbind ltac:(eapply triple_exn;
                [apply get_key_triple|intros e ->; right; reflexivity]).
    apply triple_state. intros s0 [HI Hk].
    apply (triple_from Inv s0); [exact HI|].
    tbind ltac:(eapply triple_exn;
                [apply handle_key_triple; exact Hk
                |intros e He; left; exact He]).
    destruct a0; [exact IH|apply (triple_ret _ (fun _ => Inv))].
Qed.

Lemma run_triple (n : nat) :
  triple Inv (UI.run n) (fun _ => Inv) Inv E_run.
Proof.
  unfold UI.run.
  tbind ltac:(eapply triple_exn; [apply print_status_triple|intros e []]).
  assert (Hfin : triple Inv (emit RestoreTerminal ;; serial Close ;; ret tt)
                   (fun _ => Inv) Inv E_run).
  { tbind ltac:(apply triple_emit).
    tbind ltac:(apply triple_serial; intros msg; right; eexists; reflexivity).
    apply (triple_ret _ (fun _ => Inv)). }
  apply triple_try_finally; [|exact Hfin|intros []; exact Hfin].
  eapply triple_try_except.
  - apply loop_triple.
  - intros e k He Hh. destruct e; try discriminate Hh.
    injection Hh as <-. apply triple_emit.
  - intros e [He| ->] Hh; [left; exact He|discriminate Hh].
Qed.

(** *** Only a selection key changes the selected servo *)

(** Whatever a predicate on the object says, [send_servo_command] and
    [print_status] keep it: they assign to no field. *)
Section Frame.

Variable P : UI.ServoKeyboard -> Prop.

Lemma of_sum_frame {A} (v : exn + A) :
  triple P (of_sum v) (fun _ => P) P E_any.
Proof. intros s w H. destruct v; cbn; auto. split; [exact H|exact I]. Qed.

Lemma send_frame (name : string) :
  triple P (UI.send_servo_command name) (fun _ => P) P E_any.
Proof.
  unfold UI.send_servo_command.
  tbind ltac:(apply triple_get).
  apply triple_state. intros s0 [-> H]. apply (triple_from P s0 _ _ _ _ H).
  tbind ltac:(apply of_sum_frame).
  tbind ltac:(apply of_sum_frame).
  eapply triple_try_except.
  - apply send_body_triple.
  - intros e k _ Hk. destruct e; try discriminate Hk.
    injection Hk as <-. apply log_triple.
  - intros; exact I.
Qed.

Lemma print_status_frame :
  triple P UI.print_status (fun _ => P) P E_any.
Proof.
  unfold UI.print_status.
  tbind ltac:(apply triple_get).
  apply triple_state. intros s0 [-> H]. apply (triple_from P s0 _ _ _ _ H).
  tbind ltac:(apply of_sum_frame). apply triple_emit.
Qed.

End Frame.

Section Selected.

Variable x : string.

Lemma set_position_selected (name : string) (v : Z) :
  triple (selected x) (UI.set_position name v) (fun _ => selected x)
    (selected x) E_any.
Proof. intros s w H. exact H. Qed.

Lemma step_current_selected (f : Z -> Z) :
  triple (selected x) (UI.step_current f) (fun _ => selected x) (selected x) E_any.
Proof.
  unfold UI.step_current.
  tbind ltac:(apply triple_get).
  apply triple_state. intros s0 [-> H]. apply (triple_from (selected x) s0 _ _ _ _ H).
  tbind ltac:(apply of_sum_frame).
  tbind ltac:(apply set_position_selected).
  tbind ltac:(apply send_frame).
  apply print_status_frame.
Qed.

Lemma center_all_selected :
  triple (selected x) UI.center_all_servos (fun _ => selected x) (selected x) E_any.
Proof.
  unfold UI.center_all_servos.
  tbind ltac:(apply triple_get).
  apply triple_state. intros s0 [-> H]. apply (triple_from (selected x) s0 _ _ _ _ H).
  tbind ltac:(apply triple_for_each); [|apply log_triple].
  intros servo _.
  tbind ltac:(apply set_position_selected).
  tbind ltac:(apply send_frame).
  apply triple_emit.
Qed.

Lemma home_selected :
  triple (selected x) UI.home_position (fun _ => selected x) (selected x) E_any.
Proof.
  unfold UI.home_position.
  tbind ltac:(apply triple_for_each); [|apply log_triple].
  intros [servo pos] _.
  tbind ltac:(apply set_position_selected).
  tbind ltac:(apply send_frame).
  apply triple_emit.
Qed.

Lemma handle_key_selected (key : string) :
  str_in key "1234567" = false ->
  triple (selected x) (UI.handle_key key) (fun _ => selected x) (selected x) E_any.
Proof.
  intros Hin. unfold UI.handle_key. rewrite Hin.
  tbind ltac:(apply triple_get).
  apply triple_state. intros s0 [-> H]. apply (triple_from (selected x) s0 _ _ _ _ H).
  assert (Hret : forall b : bool,
             triple (selected x) (ret b) (fun _ => selected x) (selected x) E_any)
    by (intros b; apply (triple_ret _ (fun _ => selected x))).
  repeat match goal with
         | |- triple _ (if ?b then _ else _) _ _ _ => destruct b
         end;
    try (tbind ltac:(apply step_current_selected); apply Hret).
  - tbind ltac:(apply center_all_selected).
    tbind ltac:(apply print_status_frame). apply Hret.
  - tbind ltac:(apply home_selected).
    tbind ltac:(apply print_status_frame). apply Hret.
  - tbind ltac:(apply set_position_selected).
    tbind ltac:(apply send_frame).
    tbind ltac:(apply print_status_frame). apply Hret.
  - tbind ltac:(apply triple_emit).
    tbind ltac:(apply print_status_frame). apply Hret.
  - tbind ltac:(apply triple_emit). apply Hret.
  - apply Hret.
Qed.

End Selected.

Lemma handle_key_keeps_selection (key : string) (s : UI.ServoKeyboard)
  (w : world) :
  str_in key "1234567" = false ->
  UI.current_servo (st (UI.handle_key key s w)) = UI.current_servo s.
Proof.
  intros Hin.
  pose proof (handle_key_selected (UI.current_servo s) key Hin s w eq_refl)
    as H.
  destruct (out (UI.handle_key key s w)); unfold selected in H; tauto.
Qed.

(** C10: after any number of turns of the loop of [run], whatever keys
    arrive and whatever the port answers, the selected servo is a key of both
    [positions] and [servo_commands]; the run has raised neither [KeyError]
    nor [IndexError]; and a key that fails the test [key in '1234567'] leaves
    the selection as it is. *)
Theorem selected_servo_is_always_known (n : nat) (w : world) :
  let r := UI.run n UI.initial w in
  (exists p c,
      dict_get (UI.current_servo (st r)) (UI.positions (st r)) = Some p /\
      dict_get (UI.current_servo (st r)) (UI.servo_commands (st r)) = Some c)
  /\ (forall k, out r <> Raise (KeyError k))
  /\ (forall m, out r <> Raise (IndexError m))
  /\ (forall key w',
         str_in key "1234567" = true \/
         UI.current_servo (st (UI.handle_key key (st r) w'))
         = UI.current_servo (st r)).
Proof.
  intros r. pose proof (run_triple n UI.initial w Inv_initial) as H.
  fold r in H.
  assert (HI : Inv (st r)) by (destruct (out r); tauto).
  split; [|split; [|split]].
  - destruct (Inv_position _ _ HI (inv_current _ HI)) as [p [Hp _]].
    destruct (Inv_command _ _ HI (inv_current _ HI)) as [c Hc].
    exists p, c. split; assumption.
  - intros k Hk. rewrite Hk in H. destruct H as [_ [[He|[msg He]]|[msg He]]];
      discriminate He.
  - intros m Hm. rewrite Hm in H. destruct H as [_ [[He|[msg He]]|[msg He]]];
      discriminate He.
  - intros key w'. destruct (str_in key "1234567") eqn:E; [left; reflexivity|].
    right. apply handle_key_keeps_selection. exact E.
Qed.

Lemma st_prepend {S A} (t : list event) (r : res S A) :
  st (prepend t r) = st r.
Proof. reflexivity. Qed.

Lemma press_plus (n : nat) (p : Z) (rest : list input) :
  UI.loop (S n) (head_at p) (quiet (Char "+" :: rest))
  = prepend (evs (UI.handle_key "+" (head_at p) (quiet rest)))
      (UI.loop n (head_at (Z.min 100 (p + 1))) (quiet rest)).
Proof.
  cbn [UI.loop].
  rewrite (bind_step UI.get_key _ (head_at p) (quiet (Char "+" :: rest))
             "+"%string (head_at p) [] (quiet rest) eq_refl).
  rewrite prepend_nil.
  apply (bind_step (UI.handle_key "+")
           (fun continue : bool => if continue then UI.loop n else ret tt)
           (head_at p) (quiet rest) true (head_at (Z.min 100 (p + 1)))
           (evs (UI.handle_key "+" (head_at p) (quiet rest))) (quiet rest)).
  apply res_intro; lazy; reflexivity.
Qed.

Lemma press_minus (n : nat) (p : Z) (rest : list input) :
  UI.loop (S n) (head_at p) (quiet (Char "-" :: rest))
  = prepend (evs (UI.handle_key "-" (head_at p) (quiet rest)))
      (UI.loop n (head_at (Z.max 0 (p - 1))) (quiet rest)).
Proof.
  cbn [UI.loop].
  rewrite (bind_step UI.get_key _ (head_at p) (quiet (Char "-" :: rest))
             "-"%string (head_at p) [] (quiet rest) eq_refl).
  rewrite prepend_nil.
  apply (bind_step (UI.handle_key "-")
           (fun continue : bool => if continue then UI.loop n else ret tt)
           (head_at p) (quiet rest) true (head_at (Z.max 0 (p - 1)))
           (evs (UI.handle_key "-" (head_at p) (quiet rest))) (quiet rest)).
  apply res_intro; lazy; reflexivity.
Qed.

Lemma loop_plus (k : nat) (p : Z) :
  p <= 100 ->
  out (UI.loop k (head_at p) (quiet (presses "+" k))) = Pending /\
  st (UI.loop k (head_at p) (quiet (presses "+" k)))
  = head_at (Z.min 100 (p + Z.of_nat k)).
Proof.
  revert p; induction k as [|k IH]; intros p Hp.
  - cbn. split; [reflexivity|]. f_equal. f_equal. lia.
  - cbn [presses repeat]. rewrite press_plus. cbn [out st prepend].
    destruct (IH (Z.min 100 (p + 1))) as [Ho Hs]; [lia|].
    cbn [presses] in Ho, Hs. rewrite Ho, Hs. split; [reflexivity|].
    f_equal. lia.
Qed.

Lemma loop_minus (k : nat) (p : Z) :
  0 <= p ->
  out (UI.loop k (head_at p) (quiet (presses "-" k))) = Pending /\
  st (UI.loop k (head_at p) (quiet (presses "-" k)))
  = head_at (Z.max 0 (p - Z.of_nat k)).
Proof.
  revert p; induction k as [|k IH]; intros p Hp.
  - cbn. split; [reflexivity|]. f_equal. f_equal. lia.
  - cbn [presses repeat]. rewrite press_minus. cbn [out st prepend].
    destruct (IH (Z.max 0 (p - 1))) as [Ho Hs]; [lia|].
    cbn [presses] in Ho, Hs. rewrite Ho, Hs. split; [reflexivity|].
    f_equal. lia.
Qed.

(** While the loop is still running, [run] has done nothing after it. *)
Lemma run_pending (n : nat) (s : UI.ServoKeyboard) (w : world) (p : Z) :
  dict_get (UI.current_servo s) (UI.positions s) = Some p ->
  out (UI.loop n s w) = Pending ->
  st (UI.run n s w) = st (UI.loop n s w).
Proof.
  intros Hp Ho. unfold UI.run.
  rewrite (bind_step UI.print_status _ s w tt s
             [Status (UI.current_servo s) p (UI.positions s)] w).
  - cbn [st prepend]. unfold try_finally, try_except. rewrite Ho.
    cbn [out]. rewrite Ho. reflexivity.
  - unfold UI.print_status. rewrite bind_get. unfold dict_item. rewrite Hp.
    cbn [of_sum]. rewrite bind_ret. reflexivity.
Qed.

Lemma head_after_plus (k : nat) :
  dict_get "head_rotation"
    (UI.positions (st (UI.run k UI.initial (quiet (presses "+" k)))))
  = Some (Z.min 100 (50 + Z.of_nat k)).
Proof.
  destruct (loop_plus k 50) as [Ho Hs]; [lia|].
  change UI.initial with (head_at 50).
  rewrite (run_pending k (head_at 50) _ 50 eq_refl Ho), Hs. reflexivity.
Qed.

Lemma head_after_minus (k : nat) :
  dict_get "head_rotation"
    (UI.positions (st (UI.run k UI.initial (quiet (presses "-" k)))))
  = Some (Z.max 0 (50 - Z.of_nat k)).
Proof.
  destruct (loop_minus k 50) as [Ho Hs]; [lia|].
  change UI.initial with (head_at 50).
  rewrite (run_pending k (head_at 50) _ 50 eq_refl Ho), Hs. reflexivity.
Qed.

(** C4: from the start of the keyboard program, whatever keys arrive and
    whatever the port answers, every stored servo position stays in
    [0, 100]; [k] presses of the [+] key take the selected servo from 50 to
    [min 100 (50 + k)] and [k] presses of the [-] key to [max 0 (50 - k)], so
    sixty of them end at exactly 100 and exactly 0. *)
Theorem servo_positions_stay_in_range :
  (forall (n : nat) (w : world),
      Forall (fun kv => 0 <= snd kv <= 100)
        (UI.positions (st (UI.run n UI.initial w)))) /\
  (forall k : nat,
      dict_get "head_rotation"
        (UI.positions (st (UI.run k UI.initial (quiet (presses "+" k)))))
      = Some (Z.min 100 (50 + Z.of_nat k))) /\
  (forall k : nat,
      dict_get "head_rotation"
        (UI.positions (st (UI.run k UI.initial (quiet (presses "-" k)))))
      = Some (Z.max 0 (50 - Z.of_nat k))) /\
  dict_get "head_rotation"
    (UI.positions (st (UI.run 60 UI.initial (quiet (presses "+" 60)))))
  = Some 100 /\
  dict_get "head_rotation"
    (UI.positions (st (UI.run 60 UI.initial (quiet (presses "-" 60)))))
  = Some 0.
Proof.
  split; [|split; [exact head_after_plus|split; [exact head_after_minus|]]].
  - intros n w.
    pose proof (run_triple n UI.initial w Inv_initial) as H.
    assert (HI : Inv (st (UI.run n UI.initial w)))
      by (destruct (out (UI.run n UI.initial w)); tauto).
    exact (inv_range _ HI).
  - split; [apply (head_after_plus 60)|apply (head_after_minus 60)].
Qed.

(** *** A serial failure inside [send_servo_command] *)

Lemma try_except_caught {S A} (body : M S A) (h : exn -> option (M S A))
  (s : S) (w : world) (e : exn) (k : M S A) :
  out (body s w) = Raise e -> h e = Some k ->
  try_except body h s w
  = prepend (evs (body s w)) (k (st (body s w)) (env (body s w))).
Proof. intros Ho Hh. unfold try_except. rewrite Ho, Hh. reflexivity. Qed.

Lemma serial_failed_raised (t : list event) :
  serial_failed t = true -> raised_serial t.
Proof.
  unfold serial_failed. rewrite existsb_exists. intros [ev [Hin Hev]].
  destruct ev; try discriminate Hev. eexists; exact Hin.
Qed.

Section Faithful.

Context {S : Type}.

Lemma faithful_bind {A B} (m : M S A) (k : A -> M S B) :
  faithful m -> (forall a, faithful (k a)) -> faithful (bind m k).
Proof.
  intros Hm Hk s w [op Hop]. specialize (Hm s w). unfold bind in *.
  destruct (out (m s w)) as [a|e|] eqn:Ho; cbn [out evs] in *.
  - apply in_app_or in Hop. destruct Hop as [Hop|Hop].
    + destruct Hm as [msg Hmsg]; [exists op; exact Hop|discriminate Hmsg].
    + apply Hk. exists op; exact Hop.
  - destruct Hm as [msg Hmsg]; [exists op; exact Hop|].
    injection Hmsg as ->. exists msg; reflexivity.
  - destruct Hm as [msg Hmsg]; [exists op; exact Hop|discriminate Hmsg].
Qed.

Lemma faithful_serial (op : serial_op) : faithful (@serial S op).
Proof.
  intros s w [op' Hop]. unfold serial in *.
  destruct (next_reply w) as [[] w']; cbn in *; eauto;
    destruct Hop as [Hop|[]]; discriminate Hop.
Qed.

Lemma faithful_silent {A} (m : M S A) :
  (forall s w, Forall (fun ev => forall op, ev <> SerialRaised op)
                 (evs (m s w))) ->
  faithful m.
Proof.
  intros H s w [op Hop]. specialize (H s w).
  rewrite Forall_forall in H. exfalso. exact (H _ Hop op eq_refl).
Qed.

Lemma faithful_emit (ev : event) :
  (forall op, ev <> SerialRaised op) -> faithful (@emit S ev).
Proof.
  intros H. apply faithful_silent. intros s w. cbn. auto.
Qed.

Lemma faithful_ret {A} (a : A) : faithful (@ret S A a).
Proof. apply faithful_silent. intros s w. constructor. Qed.

Lemma faithful_raise {A} (e : exn) : faithful (@raise S A e).
Proof. apply faithful_silent. intros s w. constructor. Qed.

Lemma faithful_in_waiting : faithful (@UI.in_waiting S).
Proof.
  apply faithful_bind; [apply faithful_serial|].
  intros []; apply faithful_ret.
Qed.

Lemma faithful_readline : faithful (@UI.readline_decode S).
Proof.
  apply faithful_bind; [apply faithful_serial|].
  intros [| | |[line|]]; try apply faithful_ret. apply faithful_raise.
Qed.

End Faithful.

Lemma faithful_send_body (name command : string) (position : Z) :
  faithful
    (serial ResetInput ;;
     log INFO ("Sending: " ++ strip command)%string ;;
     serial (Write command) ;;
     serial Flush ;;
     sleep 50 ;;
     n <- UI.in_waiting ;;
     (if n =? 0 then ret tt
      else
        response <- UI.readline_decode ;;
        log INFO ("Arduino: " ++ strip response)%string) ;;
     log INFO (name ++ ": " ++ str_of_int position ++ "%")%string
     : M UI.ServoKeyboard unit).
Proof.
  assert (Hlog : forall l msg, faithful (@log UI.ServoKeyboard l msg))
    by (intros; apply faithful_emit; discriminate).
  apply faithful_bind; [apply faithful_serial|]. intros _.
  apply faithful_bind; [apply Hlog|]. intros _.
  apply faithful_bind; [apply faithful_serial|]. intros _.
  apply faithful_bind; [apply faithful_serial|]. intros _.
  apply faithful_bind; [apply faithful_emit; discriminate|]. intros _.
  apply faithful_bind; [apply faithful_in_waiting|]. intros n.
  apply faithful_bind; [|intros _; apply Hlog].
  destruct (n =? 0); [apply faithful_ret|].
  apply faithful_bind; [apply faithful_readline|]. intros r. apply Hlog.
Qed.

(** C3, as the code has it: when a call on the port raises [SerialException]
    while a position stored just before is being sent, the stored position
    stays at the new value, the call returns normally (the exception does not
    reach the caller) and the error is logged. *)
Theorem failed_send_keeps_new_position (self : UI.ServoKeyboard)
  (name symbol : string) (value : Z) (w : world) :
  dict_get name (UI.servo_commands self) = Some symbol ->
  serial_failed
    (evs ((UI.set_position name value ;; UI.send_servo_command name) self w))
  = true ->
  out ((UI.set_position name value ;; UI.send_servo_command name) self w)
  = Ret tt /\
  dict_get name
    (UI.positions
       (st ((UI.set_position name value ;; UI.send_servo_command name)
              self w)))
  = Some value /\
  exists msg,
    In (Log ERROR ("Serial error: " ++ msg)%string)
      (evs ((UI.set_position name value ;; UI.send_servo_command name)
              self w)).
Proof.
  intros Hc Hfail. apply serial_failed_raised in Hfail. revert Hfail.
  set (self' := UI.mkUI (dict_set name value (UI.positions self))
                  (UI.servo_commands self) (UI.current_servo self)
                  (UI.step_size self)).
  rewrite (bind_step (UI.set_position name value) _ self w tt self' [] w
             eq_refl).
  rewrite prepend_nil. unfold UI.send_servo_command. rewrite bind_get.
  unfold dict_item. cbn [UI.servo_commands UI.positions self'].
  rewrite Hc, dict_get_set_same. cbn [of_sum]. rewrite !bind_ret.
  fold self'.
  match goal with
  | |- raised_serial (evs (try_except ?b ?h self' w)) -> _ =>
      set (body := b); set (handler := h)
  end.
  pose proof (faithful_send_body name (command_line symbol value) value
                self' w) as Hf.
  pose proof (send_body_triple (eq self') name (command_line symbol value)
                value self' w eq_refl) as Hst.
  fold body in Hf, Hst.
  intros [op Hop].
  assert (Hb : raised_serial (evs (body self' w))).
  { destruct (try_except_prefix body handler self' w) as [t Ht].
    unfold try_except in Ht, Hop.
    destruct (out (body self' w)) as [a|e|] eqn:Ho;
      try (exists op; exact Hop).
    destruct (handler e) as [k|] eqn:Hk; [|exists op; exact Hop].
    cbn [evs] in Hop. apply in_app_or in Hop. destruct Hop as [Hop|Hop];
      [exists op; exact Hop|].
    unfold handler in Hk. destruct e; try discriminate Hk.
    injection Hk as <-. cbn in Hop. destruct Hop as [Hop|[]].
    discriminate Hop. }
  destruct (Hf Hb) as [msg Hmsg]. rewrite Hmsg in Hst.
  destruct Hst as [Hst _].
  rewrite (try_except_caught body handler self' w _ _ Hmsg eq_refl).
  cbn [out st evs prepend log emit]. rewrite <- Hst.
  split; [reflexivity|]. split.
  - cbn [UI.positions self']. apply dict_get_set_same.
  - exists msg. apply in_or_app. right. left. reflexivity.
Qed.

Lemma failed_send_keeps_new_position_witness :
  out ((UI.set_position "head_rotation" 55 ;;
        UI.send_servo_command "head_rotation") UI.initial failing_port)
  = Ret tt /\
  dict_get "head_rotation"
    (UI.positions
       (st ((UI.set_position "head_rotation" 55 ;;
             UI.send_servo_command "head_rotation") UI.initial failing_port)))
  = Some 55.
Proof.
  pose proof (failed_send_keeps_new_position UI.initial "head_rotation" "G"
                55 failing_port eq_refl eq_refl) as H.
  split; [exact (proj1 H)|exact (proj1 (proj2 H))].
Defined.

(** The claim as stated fails: the caller of a failed send gets the same
    value as the caller of a successful one, the [None] of a method without
    a [return]. *)
Lemma failed_send_returns_like_success :
  serial_failed
    (evs (UI.send_servo_command "head_rotation" UI.initial failing_port))
  = true /\
  serial_failed
    (evs (UI.send_servo_command "head_rotation" UI.initial
            (quiet [])))
  = false /\
  out (UI.send_servo_command "head_rotation" UI.initial failing_port)
  = out (UI.send_servo_command "head_rotation" UI.initial
           (quiet [])).
Proof. repeat split. Qed.

(** *** A device that answers every call *)

Lemma writes_app (t u : list event) : writes (t ++ u) = writes t ++ writes u.
Proof.
  induction t as [|[[]| | | | | | | | | |] t IH]; cbn [writes app];
    rewrite ?IH; reflexivity.
Qed.

Lemma next_reply_healthy (w : world) :
  healthy w = true ->
  reply_ok (fst (next_reply w)) = true /\ healthy (snd (next_reply w)) = true.
Proof.
  unfold healthy, next_reply. destruct w as [[|r l] i ok]; cbn; auto.
  intros H. apply andb_prop in H. exact H.
Qed.

Section Healthy.

Context {S : Type}.

Lemma bind_serial_healthy {B} (op : serial_op) (k : reply -> M S B) (s : S)
  (w : world) :
  healthy w = true ->
  bind (serial op) k s w
  = prepend [Serial op] (k (fst (next_reply w)) s (snd (next_reply w))).
Proof.
  intros H. apply bind_step. rewrite serial_eq.
  destruct (next_reply_healthy w H) as [Hr _].
  destruct (fst (next_reply w)); try reflexivity. discriminate Hr.
Qed.

End Healthy.

Lemma sent_prepend s data t r :
  sent s data r -> sent s (writes t ++ data) (prepend t r).
Proof.
  intros [H1 H2 H3 H4]. constructor; cbn [prepend out st evs env]; auto.
  rewrite writes_app, H3. reflexivity.
Qed.

Lemma send_healthy (name symbol : string) (position : Z)
  (s : UI.ServoKeyboard) (w : world) :
  dict_get name (UI.servo_commands s) = Some symbol ->
  dict_get name (UI.positions s) = Some position ->
  healthy w = true ->
  sent s [command_line symbol position] (UI.send_servo_command name s w).
Proof.
  intros Hc Hp Hw. unfold UI.send_servo_command. rewrite bind_get.
  unfold dict_item. rewrite Hc, Hp. cbn [of_sum]. rewrite !bind_ret.
  assert (Hbody : forall body h,
             sent s [command_line symbol position] (body s w) ->
             sent s [command_line symbol position]
               (@try_except UI.ServoKeyboard unit body h s w)).
  { intros body h Hb. unfold try_except. rewrite (sent_out _ _ _ Hb).
    exact Hb. }
  apply Hbody.
  rewrite bind_serial_healthy by exact Hw.
  destruct (next_reply_healthy w Hw) as [_ Hw1].
  set (w1 := snd (next_reply w)) in *.
  apply (sent_prepend s _ [Serial ResetInput]).
  unfold log at 1. rewrite bind_emit.
  apply (sent_prepend s _ [Log INFO _]).
  rewrite bind_serial_healthy by exact Hw1.
  destruct (next_reply_healthy w1 Hw1) as [_ Hw2].
  set (w2 := snd (next_reply w1)) in *.
  apply (sent_prepend s [] [Serial (Write _)]).
  rewrite bind_serial_healthy by exact Hw2.
  destruct (next_reply_healthy w2 Hw2) as [_ Hw3].
  set (w3 := snd (next_reply w2)) in *.
  apply (sent_prepend s [] [Serial Flush]).
  unfold sleep. rewrite bind_emit.
  apply (sent_prepend s [] [Sleep 50]).
  unfold UI.in_waiting. rewrite bind_assoc.
  rewrite bind_serial_healthy by exact Hw3.
  destruct (next_reply_healthy w3 Hw3) as [_ Hw4].
  set (w4 := snd (next_reply w3)) in *.
  apply (sent_prepend s [] [Serial InWaiting]).
  assert (Hn : forall n : Z,
    sent s []
      ((_ <- (if n =? 0 then ret tt
              else response <- UI.readline_decode ;;
                   log INFO ("Arduino: " ++ strip response)%string) ;;
        log INFO (name ++ ": " ++ str_of_int position ++ "%")%string)
         s w4)).
  { intros n. destruct (n =? 0).
    - rewrite bind_ret. constructor; auto.
    - rewrite bind_assoc. unfold UI.readline_decode. rewrite bind_assoc.
      rewrite bind_serial_healthy by exact Hw4.
      destruct (next_reply_healthy w4 Hw4) as [Hr Hw5].
      apply (sent_prepend s [] [Serial Readline]).
      destruct (fst (next_reply w4)) as [| | |[line|]]; try discriminate Hr;
        rewrite bind_ret; unfold log at 1; rewrite bind_emit;
        apply (sent_prepend s [] [Log INFO _]); constructor; auto. }
  destruct (fst (next_reply w3)); rewrite bind_ret; apply Hn.
Qed.

Lemma preset_loop_healthy (l : list (string * Z)) (s : UI.ServoKeyboard)
  (w : world) :
  UI.servo_commands s = UI.command_table ->
  (forall name pos, In (name, pos) l -> In name servo_names) ->
  healthy w = true ->
  sent (with_positions s (fold_left apply_entry l (UI.positions s)))
    (map preset_line l)
    (UI.for_each l
       (fun '(servo, pos) =>
          UI.set_position servo pos ;;
          UI.send_servo_command servo ;;
          sleep 150) s w).
Proof.
  revert s w. induction l as [|[name pos] l IH]; intros s w Hc Hl Hw.
  - cbn. constructor; auto. destruct s; reflexivity.
  - cbn [UI.for_each fold_left map].
    set (s1 := with_positions s (dict_set name pos (UI.positions s))).
    rewrite bind_assoc.
    rewrite (bind_step (UI.set_position name pos) _ s w tt s1 [] w eq_refl).
    rewrite prepend_nil. rewrite bind_assoc.
    assert (Hn : In name servo_names) by (apply (Hl name pos); left; reflexivity).
    destruct (dict_get_key name UI.command_table Hn) as [c Hsym].
    assert (Hsend : sent s1 [command_line c pos]
                      (UI.send_servo_command name s1 w)).
    { apply send_healthy; [|apply dict_get_set_same|exact Hw].
      cbn [s1 with_positions UI.servo_commands]. rewrite Hc. exact Hsym. }
    destruct Hsend as [Ho Hs Hwr He].
    rewrite (bind_step (UI.send_servo_command name) _ s1 w tt s1
               (evs (UI.send_servo_command name s1 w))
               (env (UI.send_servo_command name s1 w))).
    2:{ apply res_intro; auto. }
    unfold sleep. rewrite bind_emit. rewrite prepend_prepend.
    specialize (IH s1 (env (UI.send_servo_command name s1 w))).
    replace (preset_line (name, pos) :: map preset_line l)
      with (writes (evs (UI.send_servo_command name s1 w) ++ [Sleep 150])
            ++ map preset_line l).
    + apply sent_prepend. apply IH; auto.
      intros n p Hin. apply (Hl n p). right; exact Hin.
    + rewrite writes_app, Hwr. cbn. unfold preset_line, symbol_of.
      cbn [fst snd]. rewrite Hsym. reflexivity.
Qed.

Lemma known_positions (d : dict Z) :
  dict_keys d = servo_names ->
  exists v1 v2 v3 v4 v5 v6 v7,
    d = [ ("head_rotation", v1); ("neck_top", v2); ("neck_bottom", v3);
          ("eye_right", v4); ("eye_left", v5); ("arm_left", v6);
          ("arm_right", v7) ]%string.
Proof.
  unfold servo_names, dict_keys; cbn.
  destruct d as [|[k1 v1] [|[k2 v2] [|[k3 v3] [|[k4 v4] [|[k5 v5]
    [|[k6 v6] [|[k7 v7] [|]]]]]]]]; cbn; intros H; try discriminate H.
  injection H as -> -> -> -> -> -> ->.
  exists v1, v2, v3, v4, v5, v6, v7. reflexivity.
Qed.

(** When the loop of a preset returns, every entry has been stored, whatever
    the port did meanwhile. *)
Lemma preset_loop_positions (l : list (string * Z)) (d : dict Z) :
  triple (positions_are d)
    (UI.for_each l
       (fun '(servo, pos) =>
          UI.set_position servo pos ;;
          UI.send_servo_command servo ;;
          sleep 150))
    (fun _ => positions_are (fold_left apply_entry l d)) anywhere E_any.
Proof.
  revert d. induction l as [|[name pos] l IH]; intros d; cbn [UI.for_each].
  - apply (triple_ret tt (fun _ => positions_are d)).
  - cbn [fold_left].
    eapply triple_bind; [|intros ?; apply IH].
    eapply triple_bind with
      (Q1 := fun _ => positions_are (apply_entry d (name, pos))).
    + intros s w Hs. cbn. unfold positions_are in *. cbn. now rewrite Hs.
    + intros _.
      eapply triple_bind with
        (Q1 := fun _ => positions_are (apply_entry d (name, pos))).
      * apply (triple_weaken _ _ _ _ _ _ _ _ _
                 (send_frame (positions_are (apply_entry d (name, pos))) name));
          auto; intros; exact I.
      * intros _. intros s w Hs. exact Hs.
Qed.

Lemma home_positions_on_return (s : UI.ServoKeyboard) (w : world) :
  dict_keys (UI.positions s) = dict_keys UI.initial_positions ->
  out (UI.home_position s w) = Ret tt ->
  UI.positions (st (UI.home_position s w)) = UI.home_positions.
Proof.
  intros Hk Ho.
  assert (H : triple (positions_are (UI.positions s)) UI.home_position
                (fun _ => positions_are
                            (fold_left apply_entry UI.home_positions
                               (UI.positions s)))
                anywhere E_any).
  { unfold UI.home_position.
    eapply triple_bind; [apply preset_loop_positions|].
    intros ?. apply triple_emit. }
  specialize (H s w eq_refl). rewrite Ho in H. unfold positions_are in H.
  rewrite H.
  destruct (known_positions _ Hk) as [v1 [v2 [v3 [v4 [v5 [v6 [v7 ->]]]]]]].
  reflexivity.
Qed.

(** C5: on a port that answers every call, [home_position] returns after
    exactly seven writes, one per servo in the declared order, each carrying
    the value of the home table; and whenever [home_position] returns, the
    stored positions are the home table. *)
Theorem home_preset_writes_in_order (s : UI.ServoKeyboard) (w : world) :
  UI.servo_commands s = UI.command_table ->
  dict_keys (UI.positions s) = dict_keys UI.initial_positions ->
  (healthy w = true ->
   out (UI.home_position s w) = Ret tt /\
   writes (evs (UI.home_position s w))
   = [ command_line "G" 50; command_line "T" 80; command_line "B" 20;
       command_line "U" 40; command_line "E" 40; command_line "L" 50;
       command_line "R" 50 ]) /\
  (out (UI.home_position s w) = Ret tt ->
   UI.positions (st (UI.home_position s w)) = UI.home_positions).
Proof.
  intros Hc Hk. split; [|apply home_positions_on_return; exact Hk].
  intros Hw. unfold UI.home_position.
  pose proof (preset_loop_healthy UI.home_positions s w Hc
                (fun n p H => proj1 (home_positions_ok n p H)) Hw)
    as [Ho Hs Hwr He].
  match type of Ho with
  | out (?loop s w) = _ =>
      rewrite (bind_step loop _ s w tt (st (loop s w)) (evs (loop s w))
                 (env (loop s w)))
  end.
  2:{ apply res_intro; auto. }
  unfold log, emit. cbn [prepend out st evs].
  rewrite writes_app, Hwr. cbn [writes]. rewrite List.app_nil_r.
  split; reflexivity.
Qed.

Lemma home_preset_writes_in_order_witness :
  writes (evs (UI.home_position UI.initial (quiet [])))
  = [ command_line "G" 50; command_line "T" 80; command_line "B" 20;
      command_line "U" 40; command_line "E" 40; command_line "L" 50;
      command_line "R" 50 ] /\
  UI.positions (st (UI.home_position UI.initial (quiet [])))
  = UI.home_positions.
Proof.
  pose proof (home_preset_writes_in_order UI.initial (quiet [])
                eq_refl eq_refl) as [Hw Hp].
  destruct (Hw eq_refl) as [Ho Hwr].
  split; [exact Hwr|exact (Hp Ho)].
Defined.

(** *** The keyboard program resets both buffers before its first command *)

Lemma quiet_no_write (t : list event) :
  Forall quiet_event t -> existsb is_write t = false.
Proof.
  induction 1 as [|ev t Hev _ IH]; cbn; [reflexivity|].
  rewrite Hev, IH. reflexivity.
Qed.

Lemma open_block_cases (port : string) (baud : Z) (w : world) :
  let r :=
    try_except
      (serial (Open port baud) ;;
       sleep 2000 ;;
       serial ResetInput ;;
       serial ResetOutput ;;
       log INFO ("Connected to Arduino on " ++ port)%string)
      (fun e =>
         match e with
         | SerialException msg =>
             Some (log ERROR ("Failed to connect to Arduino: " ++ msg)%string ;;
                   raise e)
         | _ => None
         end) tt w in
  (out r = Ret tt /\ exists rest, evs r = opened port baud ++ rest) \/
  ((exists msg, out r = Raise (SerialException msg)) /\
   Forall quiet_event (evs r)).
Proof.
  destruct w as [link stdin ok].
  destruct link as [|r1 [|r2 [|r3 link]]];
    repeat match goal with
           | r : reply |- _ => destruct r
           end;
    cbv zeta;
    first [ left; split; [reflexivity|eexists; reflexivity]
          | right; split; [eexists; reflexivity|repeat constructor] ].
Qed.

Lemma init_cases (port : string) (baud : Z) (w : world) :
  (exists rest, evs (UI.init port baud tt w) = opened port baud ++ rest) \/
  ((exists msg, out (UI.init port baud tt w) = Raise (SerialException msg)) /\
   Forall quiet_event (evs (UI.init port baud tt w))).
Proof.
  unfold UI.init.
  match goal with
  | |- context [bind ?m ?k tt w] => set (block := m); set (rest := k)
  end.
  destruct (open_block_cases port baud w) as [[Ho [t Ht]]|[[msg Ho] Hq]];
    fold block in Ho.
  - left. fold block in Ht.
    destruct (bind_prefix block rest tt w) as [u Hu].
    exists (t ++ u). rewrite Hu, Ht. now rewrite app_assoc.
  - right. fold block in Hq. unfold bind. rewrite Ho. cbn [out evs].
    split; [exists msg; reflexivity|exact Hq].
Qed.

Lemma existsb_after_init (t : list event) :
  existsb is_write (RclpyInit :: t) = existsb is_write t.
Proof. reflexivity. Qed.

Lemma ui_resets_before_first_command (port : string) (baud : Z) (n : nat)
  (w : world) :
  (exists rest,
      evs (UI.main port baud n tt w)
      = RclpyInit :: opened port baud ++ rest) \/
  existsb is_write (evs (UI.main port baud n tt w)) = false.
Proof.
  unfold UI.main.
  set (w1 := mkWorld (w_link w) (w_stdin w) true).
  rewrite (bind_step rclpy_init _ tt w tt tt [RclpyInit] w1 eq_refl).
  cbn [prepend evs app].
  match goal with
  | |- context [try_finally (try_except ?b ?h) ?f tt w1] =>
      set (body := b); set (handler := h); set (fin := f)
  end.
  assert (Hfin : forall s' w', Forall quiet_event (evs (fin s' w'))).
  { intros s' w'. apply Forall_bind; [constructor|].
    intros [] s2 w2; repeat constructor. }
  assert (Hh : forall e k s' w',
             handler e = Some k -> Forall quiet_event (evs (k s' w'))).
  { intros e k s' w' Hk. unfold handler in Hk.
    destruct (is_Exception e); [|discriminate Hk].
    injection Hk as <-. repeat constructor. }
  destruct (init_cases port baud w1) as [[t Ht]|[[msg Ho] Hq]].
  - left.
    destruct (bind_prefix (UI.init port baud)
                (fun node => on_object node (UI.run n)) tt w1) as [t1 H1].
    fold body in H1.
    destruct (try_except_prefix body handler tt w1) as [t2 H2].
    destruct (try_finally_prefix (try_except body handler) fin tt w1)
      as [t3 H3].
    exists (((t ++ t1) ++ t2) ++ t3).
    rewrite H3, H2, H1, Ht. rewrite !app_assoc. reflexivity.
  - right. rewrite existsb_after_init.
    apply quiet_no_write. apply Forall_try_finally; [|exact Hfin].
    apply Forall_try_except; [|exact Hh].
    unfold body. rewrite evs_bind, Ho. exact Hq.
Qed.

(** C6, as the code has it: a run of the keyboard program that attempts any
    write has opened the port, slept two seconds and reset the input and the
    output buffer before it, in this order; a run of the bridge never resets
    a buffer and never reads from the port. *)
Theorem buffers_reset_by_keyboard_program_only :
  (forall port baud n w,
      (exists rest,
          evs (UI.main port baud n tt w)
          = RclpyInit :: opened port baud ++ rest) \/
      existsb is_write (evs (UI.main port baud n tt w)) = false) /\
  (forall port baud ms msgs stop w,
      Forall no_flush_no_read
        (evs (Bridge.main port baud ms msgs stop tt w))).
Proof.
  split.
  - exact ui_resets_before_first_command.
  - exact bridge_never_flushes_nor_reads.
Qed.

(** * More of the bridge *)

(** *** The port cannot be opened *)

(** X1: When the port cannot be opened, [ArduinoBridge.__init__] logs the error
    and raises it again; [main] prints it and shuts [rclpy] down.  No
    subscription is created and no message is ever handled. *)
Theorem bridge_open_failure_ends_main (port : string) (baud ms : Z)
  (msgs : list Bridge.Twist) (stop : Bridge.stop_cause) (w : world)
  (msg : string) (rest : list reply) :
  w_link w = RRaise msg :: rest ->
  out (Bridge.init port baud ms tt w) = Raise (SerialException msg) /\
  out (Bridge.main port baud ms msgs stop tt w) = Ret tt /\
  evs (Bridge.main port baud ms msgs stop tt w)
  = [ RclpyInit; SerialRaised (Open port baud);
      Log ERROR ("Failed to connect to Arduino: " ++ msg)%string;
      Stdout ("Error: " ++ msg)%string; RclpyShutdown ].
Proof.
  destruct w as [link stdin ok]. cbn [w_link]. intros ->.
  repeat split.
Qed.

Lemma bridge_open_failure_ends_main_witness :
  evs (Bridge.main "/dev/ttyUSB0" 115200 100 [Bridge.mkTwist f_1_0 f_0_0]
         Bridge.Interrupt tt (mkWorld [RRaise "could not open port"] [] true))
  = [ RclpyInit; SerialRaised (Open "/dev/ttyUSB0" 115200);
      Log ERROR "Failed to connect to Arduino: could not open port";
      Stdout "Error: could not open port"; RclpyShutdown ].
Proof.
  exact (proj2 (proj2 (bridge_open_failure_ends_main "/dev/ttyUSB0" 115200 100
                         [Bridge.mkTwist f_1_0 f_0_0] Bridge.Interrupt
                         (mkWorld [RRaise "could not open port"] [] true)
                         "could not open port" [] eq_refl))).
Defined.

(** *** Fields that are not numbers *)

Lemma float_of_int_error (n : Z) (e : exn) :
  float_of_int n = inl e -> is_conversion_error e = true.
Proof.
  unfold float_of_int.
  destruct (binary_normalize prec emax n 0 false); intros [= <-]; reflexivity.
Qed.

Lemma int_of_float_error (f : float) (e : exn) :
  int_of_float f = inl e -> is_conversion_error e = true.
Proof. destruct f; intros [= <-]; reflexivity. Qed.

Lemma drive_value_error (x : float) (n : Z) (e : exn) :
  drive_value x n = inl e -> is_conversion_error e = true.
Proof.
  unfold drive_value, fmul_int.
  destruct (float_of_int n) as [e1|y] eqn:Hy.
  - intros [= <-]. exact (float_of_int_error n e1 Hy).
  - destruct (int_of_float (fmul x y)) as [e2|v] eqn:Hv; [|discriminate].
    intros [= <-]. exact (int_of_float_error _ e2 Hv).
Qed.

(** The product of an infinity or a NaN with any float is an infinity or a
    NaN. *)
Lemma fmul_not_finite (x y : float) :
  is_finite x = false -> is_finite (fmul x y) = false.
Proof.
  destruct x as [sx|sx| |sx mx ex]; try discriminate; intros _;
    destruct y as [sy|sy| |sy my ey]; reflexivity.
Qed.

Lemma drive_value_not_finite (x : float) (n : Z) :
  is_finite x = false -> exists e, drive_value x n = inl e.
Proof.
  intros Hx. unfold drive_value, fmul_int.
  destruct (float_of_int n) as [e|y]; [eauto|].
  pose proof (fmul_not_finite x y Hx) as Hf.
  destruct (fmul x y); try discriminate Hf; cbn; eauto.
Qed.

(** [cmd_vel_callback] in terms of its two drive values. *)
Lemma callback_unfold (msg : Bridge.Twist) (self : Bridge.ArduinoBridge)
  (w : world) :
  Bridge.cmd_vel_callback msg self w
  = match drive_value (Bridge.linear_x msg) (Bridge.max_speed self),
          drive_value (Bridge.angular_z msg) (Bridge.max_speed self) with
    | inl e, _ => mkRes (Raise e) self [] w
    | inr _, inl e => mkRes (Raise e) self [] w
    | inr l, inr a =>
        try_except
          (serial (Write (command_line "Y" l)) ;;
           sleep 10 ;;
           serial (Write (command_line "X" a)) ;;
           log DEBUG ("Sent: Y" ++ str_of_int l ++ ", X"
                      ++ str_of_int a)%string)
          (fun e =>
             match e with
             | SerialException msg =>
                 Some (log ERROR ("Serial write error: " ++ msg)%string)
             | _ => None
             end) self w
    end.
Proof.
  unfold Bridge.cmd_vel_callback, drive_value. rewrite bind_get.
  destruct (fmul_int (Bridge.linear_x msg) (Bridge.max_speed self))
    as [e|fl]; cbn [of_sum]; [apply bind_raise|rewrite bind_ret].
  destruct (int_of_float fl) as [e|l]; cbn [of_sum];
    [apply bind_raise|rewrite bind_ret].
  destruct (fmul_int (Bridge.angular_z msg) (Bridge.max_speed self))
    as [e|fa]; cbn [of_sum]; [apply bind_raise|rewrite bind_ret].
  destruct (int_of_float fa) as [e|a]; cbn [of_sum];
    [apply bind_raise|rewrite bind_ret].
  reflexivity.
Qed.

(** X2: A field that is an infinity or a NaN makes [cmd_vel_callback] raise
    [ValueError] or [OverflowError] before anything is written; the exception
    is not caught, it leaves [spin], and the messages that follow are never
    handled. *)
Theorem non_finite_command_raises (msg : Bridge.Twist)
  (rest : list Bridge.Twist) (stop : Bridge.stop_cause)
  (self : Bridge.ArduinoBridge) (w : world) :
  is_finite (Bridge.linear_x msg) = false \/
  is_finite (Bridge.angular_z msg) = false ->
  exists e,
    is_conversion_error e = true /\
    Bridge.cmd_vel_callback msg self w = mkRes (Raise e) self [] w /\
    Bridge.spin (msg :: rest) stop self w = mkRes (Raise e) self [] w.
Proof.
  intros H.
  assert (Hcb : exists e, is_conversion_error e = true /\
                  Bridge.cmd_vel_callback msg self w
                  = mkRes (Raise e) self [] w).
  { rewrite callback_unfold.
    destruct (drive_value (Bridge.linear_x msg) (Bridge.max_speed self))
      as [e|l] eqn:Hl.
    - exists e. split; [exact (drive_value_error _ _ _ Hl)|reflexivity].
    - destruct (drive_value (Bridge.angular_z msg) (Bridge.max_speed self))
        as [e|a] eqn:Ha.
      + exists e. split; [exact (drive_value_error _ _ _ Ha)|reflexivity].
      + exfalso. destruct H as [H|H].
        * destruct (drive_value_not_finite _ (Bridge.max_speed self) H)
            as [e He]. congruence.
        * destruct (drive_value_not_finite _ (Bridge.max_speed self) H)
            as [e He]. congruence. }
  destruct Hcb as [e [He Hcb]]. exists e. split; [exact He|].
  split; [exact Hcb|]. cbn [Bridge.spin].
  apply (bind_stop _ _ _ _ e self [] w Hcb).
Qed.

Lemma non_finite_command_raises_witness :
  Bridge.spin [Bridge.mkTwist S754_nan f_0_0; Bridge.mkTwist f_1_0 f_0_0]
    Bridge.Interrupt (Bridge.mkBridge 100) (quiet [])
  = mkRes (Raise (ValueError "cannot convert float NaN to integer"))
      (Bridge.mkBridge 100) [] (quiet []).
Proof.
  destruct (non_finite_command_raises (Bridge.mkTwist S754_nan f_0_0)
              [Bridge.mkTwist f_1_0 f_0_0] Bridge.Interrupt
              (Bridge.mkBridge 100) (quiet []) (or_introl eq_refl))
    as [e [_ [Hcb Hspin]]].
  rewrite Hspin. vm_compute in Hcb. injection Hcb as <-. reflexivity.
Defined.

(** *** A write that fails *)

Lemma drive_block_returns (l a : Z) (self : Bridge.ArduinoBridge) (w : world) :
  let r :=
    try_except
      (serial (Write (command_line "Y" l)) ;;
       sleep 10 ;;
       serial (Write (command_line "X" a)) ;;
       log DEBUG ("Sent: Y" ++ str_of_int l ++ ", X" ++ str_of_int a)%string)
      (fun e =>
         match e with
         | SerialException msg =>
             Some (log ERROR ("Serial write error: " ++ msg)%string)
         | _ => None
         end) self w in
  out r = Ret tt /\ st r = self.
Proof.
  destruct w as [link stdin ok].
  destruct link as [|r1 [|r2 link]];
    [ | destruct r1 | destruct r1; destruct r2 ]; split; reflexivity.
Qed.

(** X3: When the write of the forward/back channel raises, [cmd_vel_callback]
    logs the error and returns without attempting the turn channel; when the
    write of the turn channel raises, the forward/back command has already
    gone out alone.  Either way the callback returns normally. *)
Theorem failed_drive_write_is_logged (msg : Bridge.Twist)
  (self : Bridge.ArduinoBridge) (w : world) (la : Z * Z) (reason : string)
  (rest : list reply) :
  drive_values_of (Bridge.max_speed self) msg la ->
  (w_link w = RRaise reason :: rest ->
   out (Bridge.cmd_vel_callback msg self w) = Ret tt /\
   evs (Bridge.cmd_vel_callback msg self w)
   = [ SerialRaised (Write (command_line "Y" (fst la)));
       Log ERROR ("Serial write error: " ++ reason)%string ]) /\
  (forall r1, is_raise r1 = false -> w_link w = r1 :: RRaise reason :: rest ->
   out (Bridge.cmd_vel_callback msg self w) = Ret tt /\
   evs (Bridge.cmd_vel_callback msg self w)
   = [ Serial (Write (command_line "Y" (fst la))); Sleep 10;
       SerialRaised (Write (command_line "X" (snd la)));
       Log ERROR ("Serial write error: " ++ reason)%string ]).
Proof.
  intros [Hl Ha]. rewrite callback_unfold, Hl, Ha.
  destruct w as [link stdin ok]. cbn [w_link]. split.
  - intros ->. split; reflexivity.
  - intros r1 Hr1 ->. destruct r1; try discriminate Hr1; split; reflexivity.
Qed.

Lemma failed_drive_write_is_logged_witness :
  evs (Bridge.cmd_vel_callback (Bridge.mkTwist f_1_0 f_0_5)
         (Bridge.mkBridge 100) (mkWorld [RRaise "write timeout"] [] true))
  = [ SerialRaised (Write (command_line "Y" 100));
      Log ERROR "Serial write error: write timeout" ].
Proof.
  exact (proj2 (proj1 (failed_drive_write_is_logged
                         (Bridge.mkTwist f_1_0 f_0_5) (Bridge.mkBridge 100)
                         (mkWorld [RRaise "write timeout"] [] true)
                         (100, 50) "write timeout" []
                         (conj eq_refl eq_refl)) eq_refl)).
Defined.

(** *** What leaves the callback and [spin] *)

Lemma callback_outcome (msg : Bridge.Twist) (self : Bridge.ArduinoBridge)
  (w : world) :
  st (Bridge.cmd_vel_callback msg self w) = self /\
  (out (Bridge.cmd_vel_callback msg self w) = Ret tt \/
   exists e, is_conversion_error e = true /\
             out (Bridge.cmd_vel_callback msg self w) = Raise e).
Proof.
  rewrite callback_unfold.
  destruct (drive_value (Bridge.linear_x msg) (Bridge.max_speed self))
    as [e|l] eqn:Hl.
  - split; [reflexivity|]. right. exists e.
    split; [exact (drive_value_error _ _ _ Hl)|reflexivity].
  - destruct (drive_value (Bridge.angular_z msg) (Bridge.max_speed self))
      as [e|a] eqn:Ha.
    + split; [reflexivity|]. right. exists e.
      split; [exact (drive_value_error _ _ _ Ha)|reflexivity].
    + destruct (drive_block_returns l a self w) as [Ho Hs].
      split; [exact Hs|left; exact Ho].
Qed.

Lemma spin_outcome (msgs : list Bridge.Twist) (stop : Bridge.stop_cause)
  (self : Bridge.ArduinoBridge) (w : world) :
  out (Bridge.spin msgs stop self w) = Ret tt \/
  out (Bridge.spin msgs stop self w) = Raise KeyboardInterrupt \/
  exists e, is_conversion_error e = true /\
            out (Bridge.spin msgs stop self w) = Raise e.
Proof.
  revert self w. induction msgs as [|msg msgs IH]; intros self w.
  - destruct stop; cbn; auto.
  - cbn [Bridge.spin]. unfold bind.
    destruct (callback_outcome msg self w) as [_ [Ho|[e [He Ho]]]];
      rewrite Ho; cbn [out].
    + apply IH.
    + right. right. exists e. split; [exact He|reflexivity].
Qed.

(** X4: Whatever the messages and whatever the port answers, a [SerialException]
    never leaves [cmd_vel_callback] or [spin]: a failing port does not stop
    the node. *)
Theorem serial_failure_never_leaves_spin (msgs : list Bridge.Twist)
  (stop : Bridge.stop_cause) (self : Bridge.ArduinoBridge) (w : world)
  (reason : string) :
  (forall msg, out (Bridge.cmd_vel_callback msg self w)
               <> Raise (SerialException reason)) /\
  out (Bridge.spin msgs stop self w) <> Raise (SerialException reason).
Proof.
  split.
  - intros msg H.
    destruct (callback_outcome msg self w) as [_ [Ho|[e [He Ho]]]];
      rewrite Ho in H; [discriminate H|].
    injection H as ->. discriminate He.
  - intros H.
    destruct (spin_outcome msgs stop self w) as [Ho|[Ho|[e [He Ho]]]];
      rewrite Ho in H; try discriminate H.
    injection H as ->. discriminate He.
Qed.

(** *** Messages are handled in the order of their arrival *)

Lemma callback_healthy (msg : Bridge.Twist) (self : Bridge.ArduinoBridge)
  (w : world) (la : Z * Z) :
  drive_values_of (Bridge.max_speed self) msg la ->
  healthy w = true ->
  out (Bridge.cmd_vel_callback msg self w) = Ret tt /\
  st (Bridge.cmd_vel_callback msg self w) = self /\
  evs (Bridge.cmd_vel_callback msg self w) = drive_trace (fst la) (snd la) /\
  healthy (env (Bridge.cmd_vel_callback msg self w)) = true.
Proof.
  intros [Hl Ha] Hw. rewrite callback_unfold, Hl, Ha.
  destruct w as [link stdin ok]. unfold healthy in *. cbn [w_link] in *.
  destruct link as [|r1 [|r2 link]].
  - repeat split.
  - destruct r1 as [| | |[line|]]; try discriminate Hw; repeat split.
  - cbn [forallb] in Hw.
    apply andb_prop in Hw. destruct Hw as [H1 Hw].
    apply andb_prop in Hw. destruct Hw as [H2 Hw].
    destruct r1 as [| | |[line1|]]; try discriminate H1;
      destruct r2 as [| | |[line2|]]; try discriminate H2;
      repeat split; exact Hw.
Qed.

(** X5: On a port that takes every call, [spin] handles the messages in the
    order of their arrival: the writes of a run are the [Y] line and the [X]
    line of the first message, then those of the second, and so on, and
    nothing else is written. *)
Theorem spin_writes_in_order (msgs : list Bridge.Twist)
  (values : list (Z * Z)) (stop : Bridge.stop_cause)
  (self : Bridge.ArduinoBridge) (w : world) :
  Forall2 (drive_values_of (Bridge.max_speed self)) msgs values ->
  healthy w = true ->
  writes (evs (Bridge.spin msgs stop self w)) = flat_map drive_lines values.
Proof.
  intros H. revert w. induction H as [|msg la msgs values Hla _ IH];
    intros w Hw.
  - destruct stop; reflexivity.
  - cbn [Bridge.spin flat_map].
    destruct (callback_healthy msg self w la Hla Hw) as [Ho [Hs [He Hh]]].
    rewrite (bind_step (Bridge.cmd_vel_callback msg) _ self w tt self
               (drive_trace (fst la) (snd la))
               (env (Bridge.cmd_vel_callback msg self w))).
    + cbn [prepend evs]. rewrite writes_app, (IH _ Hh). reflexivity.
    + rewrite <- He. apply res_intro; auto.
Qed.

Lemma spin_writes_in_order_witness :
  writes (evs (Bridge.spin
                 [Bridge.mkTwist f_1_0 f_0_5; Bridge.mkTwist f_m0_5 f_0_0]
                 Bridge.ExternalShutdown (Bridge.mkBridge 100) (quiet [])))
  = [ command_line "Y" 100; command_line "X" 50;
      command_line "Y" (-50); command_line "X" 0 ].
Proof.
  apply (spin_writes_in_order
           [Bridge.mkTwist f_1_0 f_0_5; Bridge.mkTwist f_m0_5 f_0_0]
           [(100, 50); (-50, 0)] Bridge.ExternalShutdown
           (Bridge.mkBridge 100) (quiet [])).
  - repeat constructor.
  - reflexivity.
Defined.

(** *** [destroy_node] of the bridge *)


(** *** [main] of the bridge always returns *)

Lemma bridge_init_outcome (port : string) (baud ms : Z) (w : world) :
  (exists node, out (Bridge.init port baud ms tt w) = Ret node) \/
  (exists reason,
      out (Bridge.init port baud ms tt w) = Raise (SerialException reason)).
Proof.
  destruct w as [link stdin ok].
  destruct link as [|r link]; [|destruct r];
    first [ left; eexists; reflexivity | right; eexists; reflexivity ].
Qed.

(** The [finally] clause of both [main] functions. *)
Lemma shutdown_if_ok (w : world) :
  let r := (ok <- rclpy_ok ;; if (ok : bool) then rclpy_shutdown else ret tt)
             tt w in
  out r = Ret tt /\ w_ok (env r) = false.
Proof. destruct w as [link stdin [|]]; split; reflexivity. Qed.

Lemma try_finally_returns {S A} (body : M S A) (fin : M S unit) (s : S)
  (w : world) :
  out (body s w) <> Pending ->
  out (fin (st (body s w)) (env (body s w))) = Ret tt ->
  out (try_finally body fin s w) = out (body s w) /\
  env (try_finally body fin s w) = env (fin (st (body s w)) (env (body s w))).
Proof.
  intros Hb Hf. unfold try_finally.
  destruct (out (body s w)) as [a|e|] eqn:Ho; [| |contradiction];
    rewrite Hf; split; reflexivity.
Qed.

Lemma after_rclpy_init {A} (m : M unit A) (w : world) :
  (rclpy_init ;; m) tt w
  = prepend [RclpyInit] (m tt (mkWorld (w_link w) (w_stdin w) true)).
Proof.
  apply (bind_step rclpy_init (fun _ => m) tt w tt tt [RclpyInit] _ eq_refl).
Qed.

(** The shape of both [main] functions: [rclpy.init()], a guarded body, the
    shutdown of [rclpy] in a [finally] clause.  When the handler catches
    whatever the body raises and returns, the whole returns. *)
Lemma guarded_main_returns (body : M unit unit)
  (h : exn -> option (M unit unit)) (w : world) :
  (out (body tt (mkWorld (w_link w) (w_stdin w) true)) = Ret tt \/
   exists e k, out (body tt (mkWorld (w_link w) (w_stdin w) true)) = Raise e /\
               h e = Some k /\
               forall s w', out (k s w') = Ret tt) ->
  let r :=
    (rclpy_init ;;
     try_finally (try_except body h)
       (ok <- rclpy_ok ;; if (ok : bool) then rclpy_shutdown else ret tt))
      tt w in
  out r = Ret tt /\ w_ok (env r) = false.
Proof.
  intros Hbody. cbv zeta. rewrite after_rclpy_init.
  set (w1 := mkWorld (w_link w) (w_stdin w) true) in *.
  unfold prepend. cbn [out env].
  assert (Hguard : out (try_except body h tt w1) = Ret tt).
  { unfold try_except. destruct Hbody as [Ho|[e [k [Ho [Hh Hk]]]]]; rewrite Ho.
    - exact Ho.
    - rewrite Hh. cbn [out]. apply Hk. }
  pose proof (shutdown_if_ok (env (try_except body h tt w1))) as Hfin.
  cbv zeta in Hfin. destruct Hfin as [Hfo Hfe].
  unfold try_finally. rewrite Hguard.
  destruct (st (try_except body h tt w1)).
  rewrite Hfo. cbn [out env]. split; [reflexivity|exact Hfe].
Qed.

Lemma bridge_body_outcome (port : string) (baud ms : Z)
  (msgs : list Bridge.Twist) (stop : Bridge.stop_cause) (w : world) :
  let r := (node <- Bridge.init port baud ms ;;
            on_object node (Bridge.spin msgs stop)) tt w in
  out r = Ret tt \/ exists e, out r = Raise e.
Proof.
  cbv zeta. unfold bind.
  destruct (bridge_init_outcome port baud ms w) as [[node Ho]|[reason Ho]];
    rewrite Ho; cbn [out]; [|right; eexists; reflexivity].
  unfold on_object. cbn [out].
  destruct (spin_outcome msgs stop node (env (Bridge.init port baud ms tt w)))
    as [H|[H|[e [He H]]]]; rewrite H; eauto.
Qed.

Lemma bridge_handler_returns (e : exn) :
  exists k,
    match e with
    | KeyboardInterrupt => Some (ret tt)
    | _ =>
        if is_Exception e
        then Some (print ("Error: " ++ exn_text e)%string)
        else None
    end = Some k /\
    forall (s : unit) (w' : world), out (k s w') = Ret tt.
Proof. destruct e; eexists; split; reflexivity. Qed.

(** X7: Whatever the messages, the cause of the stop and the answers of the
    port, [main] of the bridge returns normally: no exception leaves it, and
    [rclpy] is shut down when it returns. *)
Theorem bridge_main_always_returns (port : string) (baud ms : Z)
  (msgs : list Bridge.Twist) (stop : Bridge.stop_cause) (w : world) :
  out (Bridge.main port baud ms msgs stop tt w) = Ret tt /\
  w_ok (env (Bridge.main port baud ms msgs stop tt w)) = false.
Proof.
  unfold Bridge.main. apply guarded_main_returns.
  destruct (bridge_body_outcome port baud ms msgs stop
              (mkWorld (w_link w) (w_stdin w) true)) as [Ho|[e Ho]].
  - left. exact Ho.
  - right. exists e. destruct (bridge_handler_returns e) as [k [Hk Hr]].
    exists k. split; [exact Ho|]. split; [exact Hk|exact Hr].
Qed.

(** * More of the keyboard program *)

(** *** One call on a port whose next reply is known *)

Lemma serial_step {S B} (op : serial_op) (k : reply -> M S B) (s : S)
  (w : world) (r : reply) (link : list reply) :
  w_link w = r :: link -> is_raise r = false ->
  bind (serial op) k s w = prepend [Serial op] (k r s (with_link w link)).
Proof.
  destruct w as [l stdin ok]. cbn [w_link]. intros -> Hr.
  apply bind_step. destruct r; try discriminate Hr; reflexivity.
Qed.

Lemma serial_step_raise {S B} (op : serial_op) (k : reply -> M S B) (s : S)
  (w : world) (reason : string) (link : list reply) :
  w_link w = RRaise reason :: link ->
  bind (serial op) k s w
  = mkRes (Raise (SerialException reason)) s [SerialRaised op]
      (with_link w link).
Proof.
  destruct w as [l stdin ok]. cbn [w_link]. intros ->.
  apply bind_stop. reflexivity.
Qed.

Lemma with_link_link (w : world) (link : list reply) :
  w_link (with_link w link) = link.
Proof. reflexivity. Qed.

Lemma with_link_twice (w : world) (l1 l2 : list reply) :
  with_link (with_link w l1) l2 = with_link w l2.
Proof. reflexivity. Qed.

(** *** Code that does not read the terminal never blocks *)

Section NeverBlocks.

Context {S : Type}.

Lemma never_blocks_bind {A B} (m : M S A) (k : A -> M S B) :
  never_blocks m -> (forall a, never_blocks (k a)) -> never_blocks (bind m k).
Proof.
  intros Hm Hk s w. specialize (Hm s w). unfold bind.
  destruct (out (m s w)) as [a|e|]; cbn [out];
    [apply Hk|discriminate|exfalso; apply Hm; reflexivity].
Qed.

Lemma never_blocks_ret {A} (a : A) : never_blocks (@ret S A a).
Proof. intros s w; discriminate. Qed.

Lemma never_blocks_raise {A} (e : exn) : never_blocks (@raise S A e).
Proof. intros s w; discriminate. Qed.

Lemma never_blocks_emit (ev : event) : never_blocks (@emit S ev).
Proof. intros s w; discriminate. Qed.

Lemma never_blocks_get : never_blocks (@get S).
Proof. intros s w; discriminate. Qed.

Lemma never_blocks_of_sum {A} (x : exn + A) : never_blocks (@of_sum S A x).
Proof. destruct x; intros s w; discriminate. Qed.

Lemma never_blocks_serial (op : serial_op) : never_blocks (@serial S op).
Proof.
  intros s w. unfold serial. destruct (next_reply w) as [[] w'];
    discriminate.
Qed.

Lemma never_blocks_try_except {A} (body : M S A)
  (h : exn -> option (M S A)) :
  never_blocks body ->
  (forall e k, h e = Some k -> never_blocks k) ->
  never_blocks (try_except body h).
Proof.
  intros Hb Hh s w. specialize (Hb s w). unfold try_except.
  destruct (out (body s w)) as [a|e|] eqn:Ho.
  - rewrite Ho. discriminate.
  - destruct (h e) as [k|] eqn:Hk.
    + cbn [out]. apply (Hh e k Hk).
    + rewrite Ho. discriminate.
  - contradiction.
Qed.

Lemma never_blocks_for_each {A} (xs : list A) (body : A -> M S unit) :
  (forall x, never_blocks (body x)) -> never_blocks (UI.for_each xs body).
Proof.
  intros H. induction xs as [|x xs IH]; cbn [UI.for_each].
  - apply never_blocks_ret.
  - apply never_blocks_bind; [apply H|intros _; exact IH].
Qed.

Lemma never_blocks_in_waiting : never_blocks (@UI.in_waiting S).
Proof.
  apply never_blocks_bind; [apply never_blocks_serial|].
  intros []; apply never_blocks_ret.
Qed.

Lemma never_blocks_readline : never_blocks (@UI.readline_decode S).
Proof.
  apply never_blocks_bind; [apply never_blocks_serial|].
  intros [| | |[line|]]; try apply never_blocks_ret. apply never_blocks_raise.
Qed.

End NeverBlocks.

Lemma never_blocks_send_body (name command : string) (position : Z) :
  never_blocks
    (serial ResetInput ;;
     log INFO ("Sending: " ++ strip command)%string ;;
     serial (Write command) ;;
     serial Flush ;;
     sleep 50 ;;
     n <- UI.in_waiting ;;
     (if n =? 0 then ret tt
      else
        response <- UI.readline_decode ;;
        log INFO ("Arduino: " ++ strip response)%string) ;;
     log INFO (name ++ ": " ++ str_of_int position ++ "%")%string
     : M UI.ServoKeyboard unit).
Proof.
  apply never_blocks_bind; [apply never_blocks_serial|]. intros _.
  apply never_blocks_bind; [apply never_blocks_emit|]. intros _.
  apply never_blocks_bind; [apply never_blocks_serial|]. intros _.
  apply never_blocks_bind; [apply never_blocks_serial|]. intros _.
  apply never_blocks_bind; [apply never_blocks_emit|]. intros _.
  apply never_blocks_bind; [apply never_blocks_in_waiting|]. intros n.
  apply never_blocks_bind; [|intros _; apply never_blocks_emit].
  destruct (n =? 0); [apply never_blocks_ret|].
  apply never_blocks_bind; [apply never_blocks_readline|]. intros r.
  apply never_blocks_emit.
Qed.

Lemma never_blocks_send (name : string) :
  never_blocks (UI.send_servo_command name).
Proof.
  unfold UI.send_servo_command.
  apply never_blocks_bind; [apply never_blocks_get|]. intros self.
  apply never_blocks_bind; [apply never_blocks_of_sum|]. intros c.
  apply never_blocks_bind; [apply never_blocks_of_sum|]. intros p.
  apply never_blocks_try_except; [apply never_blocks_send_body|].
  intros e k Hk. destruct e; try discriminate Hk. injection Hk as <-.
  apply never_blocks_emit.
Qed.

(** *** A servo that the tables do not know *)

Lemma send_unfold (name symbol : string) (position : Z)
  (s : UI.ServoKeyboard) (w : world) :
  dict_get name (UI.servo_commands s) = Some symbol ->
  dict_get name (UI.positions s) = Some position ->
  UI.send_servo_command name s w
  = try_except
      (serial ResetInput ;;
       log INFO ("Sending: " ++ strip (command_line symbol position))%string ;;
       serial (Write (command_line symbol position)) ;;
       serial Flush ;;
       sleep 50 ;;
       n <- UI.in_waiting ;;
       (if n =? 0 then ret tt
        else
          response <- UI.readline_decode ;;
          log INFO ("Arduino: " ++ strip response)%string) ;;
       log INFO (name ++ ": " ++ str_of_int position ++ "%")%string)
      (fun e =>
         match e with
         | SerialException msg =>
             Some (log ERROR ("Serial error: " ++ msg)%string)
         | _ => None
         end) s w.
Proof.
  intros Hc Hp. unfold UI.send_servo_command. rewrite bind_get.
  unfold dict_item. rewrite Hc, Hp. cbn [of_sum]. rewrite !bind_ret.
  reflexivity.
Qed.

(** What can leave [send_servo_command] for a servo of both tables: nothing
    but the [UnicodeDecodeError] of an echo that does not decode. *)
Lemma send_outcome (name symbol : string) (position : Z)
  (s : UI.ServoKeyboard) (w : world) :
  dict_get name (UI.servo_commands s) = Some symbol ->
  dict_get name (UI.positions s) = Some position ->
  out (UI.send_servo_command name s w) = Ret tt \/
  out (UI.send_servo_command name s w) = Raise UnicodeDecodeError.
Proof.
  intros Hc Hp. rewrite (send_unfold name symbol position s w Hc Hp).
  match goal with
  | |- out (try_except ?b ?h s w) = _ \/ _ => set (body := b); set (handler := h)
  end.
  pose proof (send_body_triple (fun _ => True) name
                (command_line symbol position) position s w I) as Hb.
  fold body in Hb. unfold try_except.
  destruct (out (body s w)) as [[]|e|] eqn:Ho.
  - left. exact Ho.
  - destruct Hb as [_ [[msg ->]| ->]].
    + cbn [handler out]. left. reflexivity.
    + cbn [handler]. right. exact Ho.
  - exfalso. exact (never_blocks_send_body name _ position s w Ho).
Qed.

(** X8: [send_servo_command] raises [KeyError] exactly when the servo is missing
    from [servo_commands] or from [positions]; it then has touched neither
    the port nor the log. *)
Theorem send_raises_key_error_iff_unknown (name : string)
  (self : UI.ServoKeyboard) (w : world) :
  ((dict_get name (UI.servo_commands self) = None \/
    dict_get name (UI.positions self) = None) ->
   UI.send_servo_command name self w
   = mkRes (Raise (KeyError name)) self [] w) /\
  ((exists k, out (UI.send_servo_command name self w) = Raise (KeyError k)) ->
   dict_get name (UI.servo_commands self) = None \/
   dict_get name (UI.positions self) = None).
Proof.
  split.
  - intros H. unfold UI.send_servo_command. rewrite bind_get.
    unfold dict_item.
    destruct (dict_get name (UI.servo_commands self)) as [c|];
      cbn [of_sum]; [rewrite bind_ret|apply bind_raise].
    destruct (dict_get name (UI.positions self)) as [p|];
      cbn [of_sum]; [|apply bind_raise].
    destruct H as [H|H]; discriminate H.
  - intros [k Hk].
    destruct (dict_get name (UI.servo_commands self)) as [c|] eqn:Hc;
      [|left; reflexivity].
    destruct (dict_get name (UI.positions self)) as [p|] eqn:Hp;
      [|right; reflexivity].
    exfalso.
    destruct (send_outcome name c p self w Hc Hp) as [Ho|Ho];
      rewrite Ho in Hk; discriminate Hk.
Qed.

(** *** The echo of the device *)



(** X10: An echo that does not decode is not a [SerialException]:
    [send_servo_command] does not catch the [UnicodeDecodeError], which
    reaches the caller after the command has been written. *)
Theorem undecodable_echo_is_not_caught (name symbol : string)
  (position : Z) (self : UI.ServoKeyboard) (w : world) (r1 r2 r3 r4 : reply)
  (rest : list reply) :
  dict_get name (UI.servo_commands self) = Some symbol ->
  dict_get name (UI.positions self) = Some position ->
  w_link w = r1 :: r2 :: r3 :: r4 :: RLine None :: rest ->
  is_raise r1 = false -> is_raise r2 = false -> is_raise r3 = false ->
  is_raise r4 = false -> waiting r4 <> 0 ->
  UI.send_servo_command name self w
  = mkRes (Raise UnicodeDecodeError) self
      (send_prefix (command_line symbol position) ++ [Serial Readline])
      (with_link w rest).
Proof.
  intros Hc Hp Hw H1 H2 H3 H4 Hn.
  rewrite (send_unfold name symbol position self w Hc Hp).
  match goal with
  | |- try_except ?b ?h self w = ?r =>
      assert (Hbody : b self w = r);
        [|unfold try_except; rewrite Hbody; reflexivity]
  end.
  rewrite (serial_step _ _ _ _ r1 _ Hw H1).
  unfold log at 1. rewrite bind_emit.
  rewrite (serial_step _ _ _ _ r2 _ (with_link_link _ _) H2).
  rewrite (serial_step _ _ _ _ r3 _ (with_link_link _ _) H3).
  unfold sleep. rewrite bind_emit.
  unfold UI.in_waiting. rewrite bind_assoc.
  rewrite (serial_step _ _ _ _ r4 _ (with_link_link _ _) H4).
  rewrite !prepend_prepend. rewrite !with_link_twice.
  assert (Hk : forall n : Z, n <> 0 ->
    (_ <- (if n =? 0 then ret tt
           else response <- UI.readline_decode ;;
                log INFO ("Arduino: " ++ strip response)%string) ;;
     log INFO (name ++ ": " ++ str_of_int position ++ "%")%string)
      self (with_link w (RLine None :: rest))
    = mkRes (Raise UnicodeDecodeError) self [Serial Readline]
        (with_link w rest)).
  { intros n Hn0. destruct (Z.eqb_spec n 0) as [H0|_]; [contradiction|].
    rewrite bind_assoc. unfold UI.readline_decode. rewrite bind_assoc.
    rewrite (serial_step _ _ _ _ (RLine None) rest (with_link_link _ _)
               eq_refl).
    rewrite bind_raise. reflexivity. }
  destruct r4; rewrite bind_ret; cbn [waiting] in Hn;
    try (exfalso; apply Hn; reflexivity).
  rewrite (Hk n Hn). reflexivity.
Qed.

Lemma undecodable_echo_is_not_caught_witness :
  out (UI.send_servo_command "neck_top" UI.initial
         (mkWorld [ROk; ROk; ROk; RInt 3; RLine None] [] true))
  = Raise UnicodeDecodeError.
Proof.
  rewrite (undecodable_echo_is_not_caught "neck_top" "T" 50 UI.initial
             (mkWorld [ROk; ROk; ROk; RInt 3; RLine None] [] true)
             ROk ROk ROk (RInt 3) [] eq_refl eq_refl eq_refl eq_refl eq_refl
             eq_refl eq_refl ltac:(discriminate)).
  reflexivity.
Defined.

(** *** The connection test of [__init__] *)



(** X12: The connection test stands outside the [try] block of [__init__]: when
    its write raises, the error is not logged as a failure to connect,
    [main] prints it and shuts [rclpy] down, the key loop never starts, and
    the port that was opened is not closed. *)
Theorem failed_connection_test_leaves_port_open (port : string) (baud : Z)
  (n : nat) (w : world) (r1 r2 r3 : reply) (reason : string)
  (rest : list reply) :
  w_link w = r1 :: r2 :: r3 :: RRaise reason :: rest ->
  is_raise r1 = false -> is_raise r2 = false -> is_raise r3 = false ->
  out (UI.main port baud n tt w) = Ret tt /\
  evs (UI.main port baud n tt w)
  = RclpyInit :: opened port baud
    ++ [ Log INFO ("Connected to Arduino on " ++ port)%string;
         Stdout "WALL-E SERVO CONTROL - KEYBOARD INTERFACE";
         Log INFO "Testing Arduino connection...";
         SerialRaised (Write ("G50" ++ newline)%string);
         Stdout ("Error: " ++ reason)%string;
         RclpyShutdown ].
Proof.
  destruct w as [link stdin ok]. cbn [w_link]. intros -> H1 H2 H3.
  destruct r1; try discriminate H1; destruct r2; try discriminate H2;
    destruct r3; try discriminate H3; split; reflexivity.
Qed.

Lemma failed_connection_test_leaves_port_open_witness :
  existsb is_close_attempt
    (evs (UI.main "/dev/ttyUSB0" 115200 3 tt
            (mkWorld [ROk; ROk; ROk; RRaise "write timeout"] [] true)))
  = false.
Proof.
  rewrite (proj2 (failed_connection_test_leaves_port_open "/dev/ttyUSB0"
                    115200 3
                    (mkWorld [ROk; ROk; ROk; RRaise "write timeout"] [] true)
                    ROk ROk ROk "write timeout" []
                    eq_refl eq_refl eq_refl eq_refl)).
  reflexivity.
Defined.

(** *** Keys *)


(** X14: A key from [1] to [7] selects the servo at that place in the order of
    declaration and prints the status; it changes no position and does not
    touch the port. *)
Theorem digit_selects_servo (k : nat) (s : UI.ServoKeyboard) (w : world) :
  dict_keys (UI.positions s) = servo_names ->
  (k < 7)%nat ->
  exists p,
    dict_get (nth k servo_names EmptyString) (UI.positions s) = Some p /\
    UI.handle_key (nth k ["1"; "2"; "3"; "4"; "5"; "6"; "7"] EmptyString) s w
    = mkRes (Ret true)
        (UI.mkUI (UI.positions s) (UI.servo_commands s)
           (nth k servo_names EmptyString) (UI.step_size s))
        [Status (nth k servo_names EmptyString) p (UI.positions s)] w.
Proof.
  intros Hk Hlt. destruct s as [positions commands current step].
  cbn [UI.positions UI.servo_commands UI.step_size] in *.
  destruct (known_positions positions Hk)
    as [v1 [v2 [v3 [v4 [v5 [v6 [v7 ->]]]]]]].
  do 7 (destruct k as [|k]; [eexists; split; reflexivity|]).
  lia.
Qed.

Lemma digit_selects_servo_witness :
  UI.current_servo (st (UI.handle_key "3" UI.initial (quiet [])))
  = "neck_bottom"%string.
Proof.
  destruct (digit_selects_servo 2 UI.initial (quiet []) eq_refl
              ltac:(repeat constructor)) as [p [_ H]].
  cbn [nth] in H. rewrite H. reflexivity.
Defined.

(** *** How [run] ends *)

Lemma print_status_step {B} (k : unit -> M UI.ServoKeyboard B)
  (s : UI.ServoKeyboard) (w : world) (p : Z) :
  dict_get (UI.current_servo s) (UI.positions s) = Some p ->
  bind UI.print_status k s w
  = prepend [Status (UI.current_servo s) p (UI.positions s)] (k tt s w).
Proof.
  intros Hp. apply bind_step. unfold UI.print_status. rewrite bind_get.
  unfold dict_item. rewrite Hp. cbn [of_sum]. rewrite bind_ret. reflexivity.
Qed.

Lemma serial_next {S B} (op : serial_op) (k : reply -> M S B) (s : S)
  (w : world) :
  is_raise (fst (next_reply w)) = false ->
  bind (serial op) k s w
  = prepend [Serial op] (k (fst (next_reply w)) s (snd (next_reply w))).
Proof.
  intros H. apply bind_step. rewrite serial_eq.
  destruct (fst (next_reply w)); try reflexivity. discriminate H.
Qed.

(** [run] once its loop has ended, on a port that takes the [close]. *)
Lemma run_after_loop (n : nat) (s s' : UI.ServoKeyboard) (w w' : world)
  (p : Z) (o : outcome unit) (t : list event) :
  dict_get (UI.current_servo s) (UI.positions s) = Some p ->
  UI.loop n s w = mkRes o s' t w' ->
  is_raise (fst (next_reply w')) = false ->
  match o with
  | Pending => True
  | Ret _ =>
      UI.run n s w
      = mkRes (Ret tt) s'
          (Status (UI.current_servo s) p (UI.positions s)
           :: t ++ [RestoreTerminal; Serial Close])
          (snd (next_reply w'))
  | Raise KeyboardInterrupt =>
      UI.run n s w
      = mkRes (Ret tt) s'
          (Status (UI.current_servo s) p (UI.positions s)
           :: t ++ [ Stdout "Exiting Wall-E Servo Control...";
                     RestoreTerminal; Serial Close ])
          (snd (next_reply w'))
  | Raise e =>
      UI.run n s w
      = mkRes (Raise e) s'
          (Status (UI.current_servo s) p (UI.positions s)
           :: t ++ [RestoreTerminal; Serial Close])
          (snd (next_reply w'))
  end.
Proof.
  intros Hp Hloop Hclose.
  assert (Hfin : (emit RestoreTerminal ;; serial Close ;; ret tt) s' w'
                 = mkRes (Ret tt) s' [RestoreTerminal; Serial Close]
                     (snd (next_reply w'))).
  { rewrite bind_emit. rewrite (serial_next _ _ _ _ Hclose). reflexivity. }
  unfold UI.run. rewrite (print_status_step _ s w p Hp).
  unfold try_finally, try_except. rewrite Hloop. cbn [out st evs env].
  destruct o as [[]|e|]; [| |exact I].
  - cbn [out st evs env]. rewrite Hfin. reflexivity.
  - destruct e; cbn [out st evs env print emit]; rewrite Hfin; cbn;
      rewrite <- ?app_assoc; reflexivity.
Qed.

(** X15: The keys [q] and [Q] and an interrupt during the read end [run] alike:
    the exit message is printed, the terminal is restored, the port is
    closed and [run] returns; nothing is sent to the servos. *)
Theorem quit_and_interrupt_end_alike (i : input) (n : nat)
  (s : UI.ServoKeyboard) (w : world) (p : Z) (rest : list input) :
  In i [Char "q"; Char "Q"; Sigint] ->
  w_stdin w = i :: rest ->
  dict_get (UI.current_servo s) (UI.positions s) = Some p ->
  is_raise (fst (next_reply w)) = false ->
  out (UI.run (S n) s w) = Ret tt /\
  st (UI.run (S n) s w) = s /\
  evs (UI.run (S n) s w)
  = [ Status (UI.current_servo s) p (UI.positions s);
      Stdout "Exiting Wall-E Servo Control...";
      RestoreTerminal; Serial Close ].
Proof.
  intros Hi Hw Hp Hclose. destruct w as [link stdin ok].
  cbn [w_stdin] in Hw. subst stdin.
  assert (Hlink : forall stdin' ok',
             fst (next_reply (mkWorld link stdin' ok'))
             = fst (next_reply (mkWorld link (i :: rest) ok)))
    by (intros; destruct link; reflexivity).
  destruct Hi as [<-|[<-|[<-|[]]]].
  - pose proof (run_after_loop (S n) s s
                  (mkWorld link (Char "q" :: rest) ok)
                  (mkWorld link rest ok) p (Ret tt)
                  [Stdout "Exiting Wall-E Servo Control..."] Hp eq_refl) as H.
    cbv iota in H. rewrite H; [repeat split|]. rewrite Hlink. exact Hclose.
  - pose proof (run_after_loop (S n) s s
                  (mkWorld link (Char "Q" :: rest) ok)
                  (mkWorld link rest ok) p (Ret tt)
                  [Stdout "Exiting Wall-E Servo Control..."] Hp eq_refl) as H.
    cbv iota in H. rewrite H; [repeat split|]. rewrite Hlink. exact Hclose.
  - pose proof (run_after_loop (S n) s s
                  (mkWorld link (Sigint :: rest) ok)
                  (mkWorld link rest ok) p
                  (Raise KeyboardInterrupt) [] Hp eq_refl) as H.
    cbv iota in H. rewrite H; [repeat split|]. rewrite Hlink. exact Hclose.
Qed.

Lemma quit_and_interrupt_end_alike_witness :
  evs (UI.run 1 UI.initial (quiet [Sigint]))
  = evs (UI.run 1 UI.initial (quiet [Char "q"])).
Proof.
  rewrite (proj2 (proj2 (quit_and_interrupt_end_alike Sigint 0 UI.initial
                           (quiet [Sigint]) 50 []
                           ltac:(cbn; tauto) eq_refl eq_refl eq_refl))).
  rewrite (proj2 (proj2 (quit_and_interrupt_end_alike (Char "q") 0 UI.initial
                           (quiet [Char "q"]) 50 []
                           ltac:(cbn; tauto) eq_refl eq_refl eq_refl))).
  reflexivity.
Defined.



(** *** What the key loop puts on the port *)

Lemma triple_trivial {S A} (m : M S A) :
  triple (fun _ => True) m (fun _ _ => True) (fun _ => True) E_any.
Proof. intros s w _. destruct (out (m s w)); repeat split. Qed.

Section KeyboardEvents.

Variable P : event -> Prop.

Hypothesis P_command : forall name c p,
  dict_get name UI.command_table = Some c -> in_servo_range p ->
  P (Serial (Write (command_line c p))) /\
  P (SerialRaised (Write (command_line c p))).

Hypothesis P_other : forall ev,
  match ev with
  | Serial ResetInput | SerialRaised ResetInput
  | Serial Flush | SerialRaised Flush
  | Serial InWaiting | SerialRaised InWaiting
  | Serial Readline | SerialRaised Readline
  | Sleep _ | Log _ _ | Stdout _ | Status _ _ _ => P ev
  | _ => True
  end.

Lemma Forall_bind_triple {S A B} (m : M S A) (k : A -> M S B) (s : S)
  (w : world) (Pre : S -> Prop) (Q : A -> S -> Prop) (I : S -> Prop)
  (E : exn -> Prop) :
  Pre s -> triple Pre m Q I E ->
  Forall P (evs (m s w)) ->
  (forall a s' w', Q a s' -> Forall P (evs (k a s' w'))) ->
  Forall P (evs (bind m k s w)).
Proof.
  intros Hs Hm Hev Hk. rewrite evs_bind. specialize (Hm s w Hs).
  destruct (out (m s w)) as [a|e|]; auto.
  apply Forall_app; split; [exact Hev|]. apply Hk. exact Hm.
Qed.

Lemma serial_events {S} (op : serial_op) (s : S) (w : world) :
  match op with
  | ResetInput | Flush | InWaiting | Readline => True
  | _ => False
  end ->
  Forall P (evs (serial op s w)).
Proof.
  intros Hop. apply Forall_serial;
    [ pose proof (P_other (Serial op)) as H
    | pose proof (P_other (SerialRaised op)) as H ];
    destruct op; try contradiction; exact H.
Qed.

Lemma in_waiting_events {S} (s : S) (w : world) :
  Forall P (evs (UI.in_waiting s w)).
Proof.
  apply Forall_bind; [apply serial_events; exact I|].
  intros [] s' w'; constructor.
Qed.

Lemma readline_events {S} (s : S) (w : world) :
  Forall P (evs (UI.readline_decode s w)).
Proof.
  apply Forall_bind; [apply serial_events; exact I|].
  intros [| | |[line|]] s' w'; constructor.
Qed.

Lemma log_events {S} (l : level) (msg : string) (s : S) (w : world) :
  Forall P (evs (log l msg s w)).
Proof. apply Forall_emit. exact (P_other (Log l msg)). Qed.

Lemma send_events (name : string) (s : UI.ServoKeyboard) (w : world) :
  Inv s -> In name servo_names ->
  Forall P (evs (UI.send_servo_command name s w)).
Proof.
  intros HI Hn.
  destruct (Inv_command s name HI Hn) as [c Hc].
  destruct (Inv_position s name HI Hn) as [p [Hp Hr]].
  rewrite (send_unfold name c p s w Hc Hp).
  rewrite (inv_commands s HI) in Hc.
  destruct (P_command name c p Hc Hr) as [Hw1 Hw2].
  apply Forall_try_except.
  - apply Forall_bind; [apply serial_events; exact I|]. intros _ s1 w1.
    apply Forall_bind; [apply log_events|]. intros _ s2 w2.
    apply Forall_bind; [apply Forall_serial; assumption|]. intros _ s3 w3.
    apply Forall_bind; [apply serial_events; exact I|]. intros _ s4 w4.
    apply Forall_bind; [apply Forall_emit; exact (P_other (Sleep 50))|].
    intros _ s5 w5.
    apply Forall_bind; [apply in_waiting_events|]. intros n s6 w6.
    apply Forall_bind; [|intros _ s7 w7; apply log_events].
    destruct (n =? 0); [constructor|].
    apply Forall_bind; [apply readline_events|]. intros r s7 w7.
    apply log_events.
  - intros e k s' w' Hk. destruct e; try discriminate Hk.
    injection Hk as <-. apply log_events.
Qed.

Lemma print_status_events (s : UI.ServoKeyboard) (w : world) :
  Forall P (evs (UI.print_status s w)).
Proof.
  unfold UI.print_status. rewrite bind_get.
  apply Forall_bind; [apply Forall_of_sum|]. intros pos s' w'.
  apply Forall_emit. exact (P_other (Status _ _ _)).
Qed.

(** Store a position of the range, send it, then do something that leaves
    only events of [P]. *)
Lemma move_events {B} (name : string) (v : Z)
  (k : M UI.ServoKeyboard B) (s : UI.ServoKeyboard) (w : world) :
  Inv s -> In name servo_names -> in_servo_range v ->
  (forall s' w', Forall P (evs (k s' w'))) ->
  Forall P
    (evs ((UI.set_position name v ;; UI.send_servo_command name ;; k) s w)).
Proof.
  intros HI Hn Hv Hk.
  apply (Forall_bind_triple _ _ s w Inv (fun _ => Inv) Inv E_none HI
           (set_position_triple name v Hn Hv)); [constructor|].
  intros _ s1 w1 H1.
  apply Forall_bind; [apply send_events; assumption|].
  intros _ s2 w2. apply Hk.
Qed.

Lemma step_current_events (f : Z -> Z) (s : UI.ServoKeyboard) (w : world) :
  (forall p, in_servo_range p -> in_servo_range (f p)) ->
  Inv s -> Forall P (evs (UI.step_current f s w)).
Proof.
  intros Hf HI. unfold UI.step_current. rewrite bind_get.
  destruct (Inv_position s _ HI (inv_current s HI)) as [p [Hp Hr]].
  unfold dict_item. rewrite Hp. cbn [of_sum]. rewrite bind_ret.
  apply move_events; auto.
  - exact (inv_current s HI).
  - intros s' w'. apply print_status_events.
Qed.

Lemma for_each_events {A} (xs : list A) (body : A -> M UI.ServoKeyboard unit)
  (E : exn -> Prop) (s : UI.ServoKeyboard) (w : world) :
  (forall x, In x xs -> triple Inv (body x) (fun _ => Inv) Inv E) ->
  (forall x s' w', In x xs -> Inv s' -> Forall P (evs (body x s' w'))) ->
  Inv s -> Forall P (evs (UI.for_each xs body s w)).
Proof.
  revert s w. induction xs as [|x xs IH]; intros s w Ht Hev HI;
    cbn [UI.for_each]; [constructor|].
  apply (Forall_bind_triple _ _ s w Inv (fun _ => Inv) Inv E HI).
  - apply Ht. left; reflexivity.
  - apply Hev; [left; reflexivity|exact HI].
  - intros _ s' w' HI'. apply IH; auto.
    + intros y Hy. apply Ht. right; exact Hy.
    + intros y s2 w2 Hy. apply Hev. right; exact Hy.
Qed.

Lemma preset_entry_triple (servo : string) (pos : Z) :
  In servo servo_names -> in_servo_range pos ->
  triple Inv
    (UI.set_position servo pos ;; UI.send_servo_command servo ;; sleep 150)
    (fun _ => Inv) Inv E_decode.
Proof.
  intros Hn Hr.
  tbind ltac:(eapply triple_exn;
              [apply set_position_triple; assumption|intros e []]).
  tbind ltac:(apply send_triple; exact Hn).
  apply triple_emit.
Qed.

Lemma preset_entry_events (servo : string) (pos : Z)
  (s : UI.ServoKeyboard) (w : world) :
  In servo servo_names -> in_servo_range pos -> Inv s ->
  Forall P
    (evs ((UI.set_position servo pos ;; UI.send_servo_command servo ;;
           sleep 150) s w)).
Proof.
  intros Hn Hr HI. apply move_events; auto.
  intros s' w'. apply Forall_emit. exact (P_other (Sleep 150)).
Qed.

Lemma center_all_events (s : UI.ServoKeyboard) (w : world) :
  Inv s -> Forall P (evs (UI.center_all_servos s w)).
Proof.
  intros HI. unfold UI.center_all_servos. rewrite bind_get.
  rewrite (inv_keys s HI).
  assert (H50 : in_servo_range 50) by (unfold in_servo_range; lia).
  apply Forall_bind; [|intros _ s' w'; apply log_events].
  apply (for_each_events servo_names _ E_decode); [| |exact HI].
  - intros servo Hs. apply preset_entry_triple; assumption.
  - intros servo s' w' Hs HI'. apply preset_entry_events; assumption.
Qed.

Lemma home_events (s : UI.ServoKeyboard) (w : world) :
  Inv s -> Forall P (evs (UI.home_position s w)).
Proof.
  intros HI. unfold UI.home_position.
  apply Forall_bind; [|intros _ s' w'; apply log_events].
  apply (for_each_events UI.home_positions _ E_decode); [| |exact HI].
  - intros [servo pos] Hs. destruct (home_positions_ok servo pos Hs).
    apply preset_entry_triple; assumption.
  - intros [servo pos] s' w' Hs HI'.
    destruct (home_positions_ok servo pos Hs).
    apply preset_entry_events; assumption.
Qed.

Lemma handle_key_events (key : string) (s : UI.ServoKeyboard) (w : world) :
  Inv s -> Forall P (evs (UI.handle_key key s w)).
Proof.
  intros HI. unfold UI.handle_key. rewrite bind_get.
  rewrite (inv_step s HI).
  assert (Hret : forall (b : bool) (s' : UI.ServoKeyboard) w',
             Forall P (evs (ret b s' w'))) by (intros; constructor).
  assert (Hstatus : forall s' w',
             Forall P (evs ((UI.print_status ;; ret true) s' w'))).
  { intros s' w'. apply Forall_bind; [apply print_status_events|].
    intros _ s2 w2. apply Hret. }
  assert (Hstep : forall f,
             (forall p, in_servo_range p -> in_servo_range (f p)) ->
             Forall P (evs ((UI.step_current f ;; ret true) s w))).
  { intros f Hf. apply Forall_bind; [apply step_current_events; assumption|].
    intros _ s' w'. apply Hret. }
  repeat match goal with
         | |- Forall P (evs ((if ?b then _ else _) s w)) => destruct b
         end;
    try (apply Hstep; unfold in_servo_range; lia).
  - apply Forall_bind; [apply Forall_of_sum|]. intros n s1 w1.
    apply Forall_bind; [apply Forall_of_sum|]. intros name s2 w2.
    apply Forall_bind; [constructor|]. intros _ s3 w3. apply Hstatus.
  - apply Forall_bind; [apply center_all_events; exact HI|].
    intros _ s' w'. apply Hstatus.
  - apply Forall_bind; [apply home_events; exact HI|].
    intros _ s' w'. apply Hstatus.
  - apply move_events; auto.
    + exact (inv_current s HI).
    + unfold in_servo_range; lia.
  - apply Forall_bind;
      [apply Forall_emit; exact (P_other (Stdout _))|].
    intros _ s' w'. apply Hstatus.
  - apply Forall_bind;
      [apply Forall_emit; exact (P_other (Stdout _))|].
    intros _ s' w'. apply Hret.
  - apply Hret.
Qed.

Lemma get_key_events {S} (s : S) (w : world) : evs (UI.get_key s w) = [].
Proof.
  destruct w as [link stdin ok]. unfold UI.get_key, bind, read1.
  cbn [w_stdin w_link w_ok].
  destruct stdin as [|[c| |] stdin]; try reflexivity.
  cbn [out st env evs].
  destruct (String.eqb (String c EmptyString) (String ESC EmptyString));
    [|reflexivity].
  cbn [w_stdin w_link w_ok].
  destruct stdin as [|[c1| |] stdin]; try reflexivity.
  cbn [out st env evs String.eqb w_stdin w_link w_ok].
  destruct stdin as [|[c2| |] stdin]; reflexivity.
Qed.

Lemma loop_events (n : nat) (s : UI.ServoKeyboard) (w : world) :
  Inv s -> Forall P (evs (UI.loop n s w)).
Proof.
  revert s w. induction n as [|n IH]; intros s w HI; cbn [UI.loop];
    [constructor|].
  apply (Forall_bind_triple _ _ s w Inv
           (fun k s' => Inv s' /\ key_ok k) Inv
           (fun e => e = KeyboardInterrupt) HI (get_key_triple Inv)).
  - rewrite get_key_events. constructor.
  - intros key s1 w1 [HI1 Hk].
    apply (Forall_bind_triple _ _ s1 w1 Inv (fun _ => Inv) Inv E_key HI1
             (handle_key_triple key Hk)).
    + apply handle_key_events. exact HI1.
    + intros [|] s2 w2 HI2; [apply IH; exact HI2|constructor].
Qed.

End KeyboardEvents.

(** *** Every command of the keyboard program is a servo command *)

Lemma servo_command_in_range (name c : string) (p : Z) :
  dict_get name UI.command_table = Some c -> in_servo_range p ->
  servo_write_in_range (Serial (Write (command_line c p))) /\
  servo_write_in_range (SerialRaised (Write (command_line c p))).
Proof. intros Hc Hp; split; exists name, c, p; auto. Qed.

Lemma servo_other_in_range (ev : event) :
  match ev with
  | Serial ResetInput | SerialRaised ResetInput
  | Serial Flush | SerialRaised Flush
  | Serial InWaiting | SerialRaised InWaiting
  | Serial Readline | SerialRaised Readline
  | Sleep _ | Log _ _ | Stdout _ | Status _ _ _ => servo_write_in_range ev
  | _ => True
  end.
Proof. destruct ev as [[]|[]| | | | | | | | |]; exact I. Qed.

Lemma run_writes_in_range (n : nat) (s : UI.ServoKeyboard) (w : world) :
  Inv s -> Forall servo_write_in_range (evs (UI.run n s w)).
Proof.
  intros HI. unfold UI.run.
  apply (Forall_bind_triple _ _ _ s w Inv (fun _ => Inv) Inv E_none HI
           print_status_triple).
  - apply print_status_events. exact servo_other_in_range.
  - intros _ s1 w1 HI1. apply Forall_try_finally.
    + apply Forall_try_except.
      * apply loop_events;
          [exact servo_command_in_range|exact servo_other_in_range|exact HI1].
      * intros e k s' w' Hk. destruct e; try discriminate Hk.
        injection Hk as <-. repeat constructor.
    + intros s' w'. apply Forall_bind; [repeat constructor|].
      intros _ s2 w2.
      apply Forall_bind; [apply Forall_serial; exact I|].
      intros; constructor.
Qed.

Lemma init_writes_in_range (port : string) (baud : Z) (w : world) :
  Forall servo_write_in_range (evs (UI.init port baud tt w)).
Proof.
  assert (Hlog : forall l msg (s : unit) w',
             Forall servo_write_in_range (evs (log l msg s w')))
    by (intros; repeat constructor).
  unfold UI.init. apply Forall_bind.
  - apply Forall_try_except.
    + apply Forall_bind; [apply Forall_serial; exact I|]. intros _ s1 w1.
      apply Forall_bind; [repeat constructor|]. intros _ s2 w2.
      apply Forall_bind; [apply Forall_serial; exact I|]. intros _ s3 w3.
      apply Forall_bind; [apply Forall_serial; exact I|]. intros _ s4 w4.
      apply Hlog.
    + intros e k s' w' Hk. destruct e; try discriminate Hk.
      injection Hk as <-. apply Forall_bind; [apply Hlog|].
      intros; constructor.
  - intros _ s1 w1. apply Forall_bind; [repeat constructor|].
    intros _ s2 w2. apply Forall_bind; [|intros; constructor].
    unfold UI.test_connection.
    apply Forall_bind; [apply Hlog|]. intros _ s3 w3.
    apply Forall_bind.
    { apply Forall_serial;
        exists "head_rotation"%string, "G"%string, 50;
        (split; [reflexivity|split; [lia|reflexivity]]). }
    intros _ s4 w4.
    apply Forall_bind; [apply Forall_serial; exact I|]. intros _ s5 w5.
    apply Forall_bind; [repeat constructor|]. intros _ s6 w6.
    apply Forall_bind.
    { apply in_waiting_events. exact servo_other_in_range. }
    intros n s7 w7. destruct (n =? 0); [apply Hlog|].
    apply Forall_bind.
    { apply readline_events. exact servo_other_in_range. }
    intros r s8 w8. apply Hlog.
Qed.

(** [__init__] of the keyboard program leaves the object of [initial]. *)
Lemma init_triple (port : string) (baud : Z) :
  triple (fun _ => True) (UI.init port baud)
    (fun node _ => node = UI.initial) (fun _ => True)
    (fun e => is_Exception e = true).
Proof.
  assert (HE : forall msg, is_Exception (SerialException msg) = true)
    by reflexivity.
  assert (Hemit : forall ev,
             triple (fun _ : unit => True) (emit ev) (fun _ _ => True)
               (fun _ => True) (fun e => is_Exception e = true))
    by (intros ev s w _; exact I).
  assert (Hserial : forall op,
             triple (fun _ : unit => True) (serial op) (fun _ _ => True)
               (fun _ => True) (fun e => is_Exception e = true)).
  { intros op. apply (triple_serial op (fun _ => True)). exact HE. }
  unfold UI.init.
  eapply triple_bind with (Q1 := fun _ _ => True).
  - eapply triple_try_except with (E' := fun e => is_Exception e = true).
    + tbind ltac:(apply Hserial). tbind ltac:(apply Hemit).
      tbind ltac:(apply Hserial). tbind ltac:(apply Hserial). apply Hemit.
    + intros e k He Hk. destruct e; try discriminate Hk.
      injection Hk as <-. tbind ltac:(apply Hemit).
      apply triple_raise. reflexivity.
    + intros e He _. exact He.
  - intros _. tbind ltac:(apply Hemit).
    eapply triple_bind with (Q1 := fun _ _ => True).
    + unfold UI.test_connection.
      tbind ltac:(apply Hemit). tbind ltac:(apply Hserial).
      tbind ltac:(apply Hserial). tbind ltac:(apply Hemit).
      eapply triple_bind with (Q1 := fun _ _ => True).
      * unfold UI.in_waiting. eapply triple_bind; [apply Hserial|].
        intros r. destruct r; intros s w _; exact I.
      * intros n. destruct (n =? 0); [apply Hemit|].
        eapply triple_bind with (Q1 := fun _ _ => True); [|intros; apply Hemit].
        unfold UI.readline_decode. eapply triple_bind; [apply Hserial|].
        intros r. destruct r as [| | |[line|]]; try (intros s w _; exact I).
        apply (triple_raise UnicodeDecodeError). reflexivity.
    + intros _. intros s w _. reflexivity.
Qed.

(** X17: Whatever keys arrive and whatever the port answers, from [main] on,
    every write that the keyboard program attempts carries one of its seven
    servo symbols followed by a position of [0, 100] and a line feed. *)
Theorem keyboard_writes_are_servo_commands (port : string) (baud : Z)
  (n : nat) (w : world) :
  Forall servo_write_in_range (evs (UI.main port baud n tt w)).
Proof.
  unfold UI.main. apply Forall_bind; [repeat constructor|].
  intros _ [] w1. apply Forall_try_finally.
  - apply Forall_try_except.
    + apply (Forall_bind_triple _ _ _ tt w1 (fun _ => True)
               (fun node _ => node = UI.initial) (fun _ => True)
               (fun e => is_Exception e = true) I (init_triple port baud)).
      * apply init_writes_in_range.
      * intros node [] w2 ->. apply Forall_on_object.
        apply run_writes_in_range. exact Inv_initial.
    + intros e k s' w' Hk. destruct (is_Exception e); [|discriminate Hk].
      injection Hk as <-. repeat constructor.
  - intros s' w'. apply Forall_bind; [constructor|].
    intros [] s2 w2; repeat constructor.
Qed.

(** *** The port is closed when the loop ends, and only then *)






(** *** [main] of the keyboard program lets no exception go *)



(** *** Keys that move the selected servo *)

Lemma print_status_eq (s : UI.ServoKeyboard) (w : world) (p : Z) :
  dict_get (UI.current_servo s) (UI.positions s) = Some p ->
  UI.print_status s w
  = mkRes (Ret tt) s [Status (UI.current_servo s) p (UI.positions s)] w.
Proof.
  intros Hp. unfold UI.print_status. rewrite bind_get.
  unfold dict_item. rewrite Hp. cbn [of_sum]. rewrite bind_ret. reflexivity.
Qed.

(** On a port that answers every call: send the position of the selected
    servo, print the status, go on. *)
Lemma send_status_healthy {B} (k : M UI.ServoKeyboard B)
  (s : UI.ServoKeyboard) (w : world) (c : string) (v : Z) :
  dict_get (UI.current_servo s) (UI.servo_commands s) = Some c ->
  dict_get (UI.current_servo s) (UI.positions s) = Some v ->
  healthy w = true ->
  exists t w',
    writes t = [command_line c v] /\ healthy w' = true /\
    (UI.send_servo_command (UI.current_servo s) ;; UI.print_status ;; k) s w
    = prepend t (k s w').
Proof.
  intros Hc Hv Hw.
  destruct (send_healthy _ c v s w Hc Hv Hw) as [Ho Hs Hwr He].
  set (r := UI.send_servo_command (UI.current_servo s) s w) in *.
  exists (evs r ++ [Status (UI.current_servo s) v (UI.positions s)]), (env r).
  split; [rewrite writes_app, Hwr; reflexivity|]. split; [exact He|].
  rewrite (bind_step (UI.send_servo_command (UI.current_servo s)) _ s w tt s
             (evs r) (env r)) by (apply res_intro; auto).
  rewrite (print_status_step _ s (env r) v Hv).
  apply prepend_prepend.
Qed.

Lemma set_position_step {B} (name : string) (v : Z)
  (k : unit -> M UI.ServoKeyboard B) (s : UI.ServoKeyboard) (w : world) :
  bind (UI.set_position name v) k s w
  = k tt (with_positions s (dict_set name v (UI.positions s))) w.
Proof.
  rewrite (bind_step (UI.set_position name v) k s w tt
             (with_positions s (dict_set name v (UI.positions s))) [] w
             eq_refl).
  apply prepend_nil.
Qed.

Ltac key_tests :=
  repeat match goal with
         | |- context [if ?c then _ else _] =>
             match c with
             | str_in _ _ => idtac
             | String.eqb _ _ => idtac
             | UI.key_in _ _ => idtac
             end;
             let v := eval vm_compute in c in
             replace c with v by (vm_compute; reflexivity);
             cbv iota
         end.

Lemma position_key_healthy (key : string) (f : Z -> Z)
  (s : UI.ServoKeyboard) (w : world) (c : string) (p : Z) :
  In (key, f) (position_keys (UI.step_size s)) ->
  dict_get (UI.current_servo s) (UI.servo_commands s) = Some c ->
  dict_get (UI.current_servo s) (UI.positions s) = Some p ->
  healthy w = true ->
  out (UI.handle_key key s w) = Ret true /\
  st (UI.handle_key key s w)
  = with_positions s (dict_set (UI.current_servo s) (f p) (UI.positions s)) /\
  writes (evs (UI.handle_key key s w)) = [command_line c (f p)] /\
  healthy (env (UI.handle_key key s w)) = true.
Proof.
  intros Hk Hc Hp Hw.
  set (s1 := with_positions s
               (dict_set (UI.current_servo s) (f p) (UI.positions s))).
  destruct (send_status_healthy (ret true) s1 w c (f p)) as [t [w' [Ht [Hw' He]]]];
    [exact Hc|apply dict_get_set_same|exact Hw|].
  assert (Hstep : (UI.step_current f ;; ret true) s w
                  = prepend t (ret true s1 w')).
  { rewrite <- He. unfold UI.step_current.
    rewrite bind_assoc, bind_get, bind_assoc. unfold dict_item.
    rewrite Hp. cbn [of_sum]. rewrite bind_ret, bind_assoc.
    rewrite set_position_step. fold s1. rewrite bind_assoc.
    reflexivity. }
  assert (Hreset : f p = 50 ->
            (UI.set_position (UI.current_servo s) 50 ;;
             UI.send_servo_command (UI.current_servo s) ;;
             UI.print_status ;; ret true) s w
            = prepend t (ret true s1 w')).
  { intros H50. rewrite <- He. rewrite set_position_step.
    unfold s1. rewrite H50. reflexivity. }
  assert (Hres : UI.handle_key key s w = prepend t (ret true s1 w')).
  { unfold UI.handle_key. rewrite bind_get.
    cbn [position_keys In] in Hk.
    repeat destruct Hk as [Hk|Hk]; try contradiction;
      injection Hk as <- <-; key_tests;
      first [exact Hstep|apply Hreset; reflexivity]. }
  rewrite Hres. cbn [prepend ret out st evs env].
  rewrite List.app_nil_r. auto.
Qed.

(** X20: On a port that answers every call, each key of [position_keys] (the
    coarse steps, the fine steps with their aliases, and the reset) stores
    the position it asks for into the selected servo alone, whatever the
    servo, and sends exactly one command: the symbol of that servo with the
    new position. *)
Theorem position_key_moves_selected_servo (key : string) (f : Z -> Z)
  (s : UI.ServoKeyboard) (w : world) (c : string) (p : Z) :
  In (key, f) (position_keys (UI.step_size s)) ->
  dict_get (UI.current_servo s) (UI.servo_commands s) = Some c ->
  dict_get (UI.current_servo s) (UI.positions s) = Some p ->
  healthy w = true ->
  out (UI.handle_key key s w) = Ret true /\
  st (UI.handle_key key s w)
  = with_positions s (dict_set (UI.current_servo s) (f p) (UI.positions s)) /\
  writes (evs (UI.handle_key key s w)) = [command_line c (f p)] /\
  healthy (env (UI.handle_key key s w)) = true.
Proof. exact (position_key_healthy key f s w c p). Qed.

Lemma position_key_moves_selected_servo_witness :
  writes (evs (UI.handle_key "]" (head_at 99) (quiet [])))
  = [command_line "G" 100].
Proof.
  exact (proj1 (proj2 (proj2
           (position_key_moves_selected_servo "]"
              (fun p => Z.min 100 (p + 1)) (head_at 99) (quiet []) "G" 99
              ltac:(cbn; tauto) eq_refl eq_refl eq_refl)))).
Defined.

(** *** A step up and a step down *)

Lemma dict_set_twice {V} (k : string) (v v' : V) (d : dict V) :
  dict_set k v' (dict_set k v d) = dict_set k v' d.
Proof.
  induction d as [|[k' x] d IH]; cbn [dict_set].
  - now rewrite String.eqb_refl.
  - destruct (String.eqb k k') eqn:E; cbn [dict_set]; rewrite E;
      [reflexivity|now rewrite IH].
Qed.

Lemma dict_set_stored {V} (k : string) (v : V) (d : dict V) :
  dict_get k d = Some v -> dict_set k v d = d.
Proof.
  induction d as [|[k' x] d IH]; cbn [dict_get dict_set]; [discriminate|].
  destruct (String.eqb_spec k k') as [->|Hne].
  - intros [= ->]. reflexivity.
  - intros H. now rewrite IH.
Qed.

Lemma with_positions_same (s : UI.ServoKeyboard) :
  with_positions s (UI.positions s) = s.
Proof. destruct s; reflexivity. Qed.

Lemma out_prepend {S A} (t : list event) (r : res S A) :
  out (prepend t r) = out r.
Proof. reflexivity. Qed.

Lemma evs_prepend {S A} (t : list event) (r : res S A) :
  evs (prepend t r) = t ++ evs r.
Proof. reflexivity. Qed.

Lemma env_prepend {S A} (t : list event) (r : res S A) :
  env (prepend t r) = env r.
Proof. reflexivity. Qed.

Lemma out_mk {S A} (o : outcome A) (s : S) (t : list event) (w : world) :
  out (mkRes o s t w) = o.
Proof. reflexivity. Qed.

Lemma st_mk {S A} (o : outcome A) (s : S) (t : list event) (w : world) :
  st (mkRes o s t w) = s.
Proof. reflexivity. Qed.

Lemma evs_mk {S A} (o : outcome A) (s : S) (t : list event) (w : world) :
  evs (mkRes o s t w) = t.
Proof. reflexivity. Qed.

Lemma log_eq {S} (l : level) (msg : string) (s : S) (w : world) :
  log l msg s w = mkRes (Ret tt) s [Log l msg] w.
Proof. reflexivity. Qed.

(** X21: On a port that answers every call, the key [w] followed by the key [s]
    brings the selected servo back to where it was, after one command with
    the raised position and one with the old position, as long as the step
    up does not reach past 100. *)
Theorem step_up_then_down_restores (s : UI.ServoKeyboard) (w : world)
  (c : string) (p : Z) :
  dict_get (UI.current_servo s) (UI.servo_commands s) = Some c ->
  dict_get (UI.current_servo s) (UI.positions s) = Some p ->
  healthy w = true ->
  0 <= p -> 0 <= UI.step_size s -> p + UI.step_size s <= 100 ->
  out ((UI.handle_key "w" ;; UI.handle_key "s") s w) = Ret true /\
  st ((UI.handle_key "w" ;; UI.handle_key "s") s w) = s /\
  writes (evs ((UI.handle_key "w" ;; UI.handle_key "s") s w))
  = [command_line c (p + UI.step_size s); command_line c p].
Proof.
  intros Hc Hp Hw H0 Hstep H100.
  destruct (position_key_healthy "w"
              (fun p => Z.min 100 (p + UI.step_size s)) s w c p)
    as [Ho1 [Hs1 [Hw1 He1]]]; [cbn; tauto|assumption..|].
  set (r1 := UI.handle_key "w" s w) in *.
  set (s1 := with_positions s
               (dict_set (UI.current_servo s)
                  (Z.min 100 (p + UI.step_size s)) (UI.positions s))) in *.
  destruct (position_key_healthy "s"
              (fun p => Z.max 0 (p - UI.step_size s1)) s1 (env r1) c
              (Z.min 100 (p + UI.step_size s)))
    as [Ho2 [Hs2 [Hw2 He2]]];
    [cbn; tauto|exact Hc|apply dict_get_set_same|exact He1|].
  rewrite (bind_step (UI.handle_key "w") _ s w true s1 (evs r1) (env r1))
    by (apply res_intro; auto).
  rewrite out_prepend, st_prepend, evs_prepend.
  rewrite writes_app, Hw1, Hw2, Ho2, Hs2.
  clear Ho2 Hs2 Hw2 He2 Ho1 Hs1 Hw1 He1. clearbody r1.
  unfold s1, with_positions.
  cbn [UI.positions UI.servo_commands UI.current_servo UI.step_size].
  replace (Z.min 100 (p + UI.step_size s)) with (p + UI.step_size s) by lia.
  replace (Z.max 0 (p + UI.step_size s - UI.step_size s)) with p by lia.
  rewrite dict_set_twice, (dict_set_stored _ _ _ Hp).
  split; [reflexivity|]. split; [|reflexivity].
  destruct s; reflexivity.
Qed.

Lemma step_up_then_down_restores_witness :
  st ((UI.handle_key "w" ;; UI.handle_key "s") (head_at 95) (quiet []))
  = head_at 95.
Proof.
  exact (proj1 (proj2 (step_up_then_down_restores (head_at 95) (quiet [])
                         "G" 95 eq_refl eq_refl eq_refl
                         ltac:(lia) ltac:(cbn; lia) ltac:(cbn; lia)))).
Defined.

(** *** The preset that centres every servo *)

Lemma bind_cong {S A B} (m : M S A) (k1 k2 : A -> M S B) (s : S)
  (w : world) :
  (forall a s' w', k1 a s' w' = k2 a s' w') ->
  bind m k1 s w = bind m k2 s w.
Proof.
  intros H. unfold bind. destruct (out (m s w)); try reflexivity.
  rewrite H. reflexivity.
Qed.

Lemma for_each_cons {S A} (x : A) (xs : list A) (body : A -> M S unit) :
  UI.for_each (x :: xs) body = (body x ;; UI.for_each xs body).
Proof. reflexivity. Qed.

(** The loop of [center_all_servos] is the loop of a preset whose entries
    all ask for 50. *)
Lemma center_loop_as_preset (xs : list string) (s : UI.ServoKeyboard)
  (w : world) :
  UI.for_each xs
    (fun servo =>
       UI.set_position servo 50 ;;
       UI.send_servo_command servo ;;
       sleep 150) s w
  = UI.for_each (map (fun name => (name, 50)) xs)
      (fun '(servo, pos) =>
         UI.set_position servo pos ;;
         UI.send_servo_command servo ;;
         sleep 150) s w.
Proof.
  revert s w. induction xs as [|x xs IH]; intros s w; cbn [map UI.for_each];
    [reflexivity|].
  apply (bind_cong
           (UI.set_position x 50 ;; UI.send_servo_command x ;; sleep 150)).
  intros _ s' w'. apply IH.
Qed.

(** X22: On a port that answers every call, [center_all_servos] sends one
    command per servo, in the order of declaration and each with the
    position 50, stores 50 for every servo and leaves the selection as it
    is. *)
Theorem center_preset_writes_in_order (s : UI.ServoKeyboard) (w : world) :
  UI.servo_commands s = UI.command_table ->
  dict_keys (UI.positions s) = servo_names ->
  healthy w = true ->
  out (UI.center_all_servos s w) = Ret tt /\
  writes (evs (UI.center_all_servos s w)) = center_lines /\
  UI.positions (st (UI.center_all_servos s w)) = UI.initial_positions /\
  UI.current_servo (st (UI.center_all_servos s w)) = UI.current_servo s.
Proof.
  intros Hc Hk Hw. unfold UI.center_all_servos. rewrite bind_get, Hk.
  assert (H : sent
                (with_positions s
                   (fold_left apply_entry
                      (map (fun name => (name, 50)) servo_names)
                      (UI.positions s)))
                (map preset_line (map (fun name => (name, 50)) servo_names))
                (UI.for_each servo_names
                   (fun servo =>
                      UI.set_position servo 50 ;;
                      UI.send_servo_command servo ;;
                      sleep 150) s w)).
  { rewrite center_loop_as_preset.
    apply preset_loop_healthy; [exact Hc| |exact Hw].
    intros name pos Hin. apply in_map_iff in Hin.
    destruct Hin as [x [[= <- _] Hx]]. exact Hx. }
  destruct H as [Ho Hs Hwr He].
  match type of Ho with
  | out (?loop s w) = _ =>
      rewrite (bind_step loop _ s w tt (st (loop s w)) (evs (loop s w))
                 (env (loop s w))) by (apply res_intro; auto)
  end.
  rewrite out_prepend, st_prepend, evs_prepend.
  rewrite log_eq, ?out_mk, ?st_mk, ?evs_mk.
  rewrite writes_app, Hwr, Hs. cbn [writes]. rewrite List.app_nil_r.
  cbn [with_positions UI.positions UI.current_servo].
  destruct (known_positions _ Hk) as [v1 [v2 [v3 [v4 [v5 [v6 [v7 ->]]]]]]].
  split; [reflexivity|]. split; [vm_compute; reflexivity|].
  split; [vm_compute; reflexivity|reflexivity].
Qed.

Lemma center_preset_writes_in_order_witness :
  writes (evs (UI.center_all_servos (head_at 80) (quiet [])))
  = [ command_line "G" 50; command_line "T" 50; command_line "B" 50;
      command_line "U" 50; command_line "E" 50; command_line "L" 50;
      command_line "R" 50 ].
Proof.
  exact (proj1 (proj2 (center_preset_writes_in_order (head_at 80) (quiet [])
                         eq_refl eq_refl eq_refl))).
Defined.

(** *** A preset goes on after a failed send *)

(** X23: A write that fails in the middle of [home_position] does not end the
    preset: the servo whose write raised is skipped on the wire, the error
    is logged, every servo after it still receives its command, and all
    seven positions of the home table are stored. *)
Theorem preset_goes_on_after_failed_send (s : UI.ServoKeyboard) (w : world)
  (r1 : reply) (reason : string) (rest : list reply) :
  UI.servo_commands s = UI.command_table ->
  dict_keys (UI.positions s) = servo_names ->
  w_link w = r1 :: RRaise reason :: rest ->
  is_raise r1 = false ->
  healthy (with_link w rest) = true ->
  out (UI.home_position s w) = Ret tt /\
  writes (evs (UI.home_position s w))
  = [ command_line "T" 80; command_line "B" 20; command_line "U" 40;
      command_line "E" 40; command_line "L" 50; command_line "R" 50 ] /\
  In (Log ERROR ("Serial error: " ++ reason)%string)
    (evs (UI.home_position s w)) /\
  UI.positions (st (UI.home_position s w)) = UI.home_positions.
Proof.
  intros Hc Hk Hw H1 Hrest.
  set (s1 := with_positions s
               (dict_set "head_rotation" 50 (UI.positions s))).
  assert (Hc1 : dict_get "head_rotation" (UI.servo_commands s1) = Some "G"%string)
    by (cbn [s1 with_positions UI.servo_commands]; rewrite Hc; reflexivity).
  assert (Hp1 : dict_get "head_rotation" (UI.positions s1) = Some 50)
    by apply dict_get_set_same.
  assert (Hfirst : UI.send_servo_command "head_rotation" s1 w
                   = mkRes (Ret tt) s1
                       [ Serial ResetInput;
                         Log INFO ("Sending: " ++ strip (command_line "G" 50))%string;
                         SerialRaised (Write (command_line "G" 50));
                         Log ERROR ("Serial error: " ++ reason)%string ]
                       (with_link w rest)).
  { rewrite (send_unfold _ _ _ s1 w Hc1 Hp1). unfold try_except.
    rewrite (serial_step _ _ _ _ r1 _ Hw H1).
    unfold log at 1. rewrite bind_emit.
    rewrite (serial_step_raise _ _ _ _ reason rest (with_link_link _ _)).
    reflexivity. }
  assert (Hentry : (UI.set_position "head_rotation" 50 ;;
                    UI.send_servo_command "head_rotation" ;;
                    sleep 150) s w
                   = mkRes (Ret tt) s1
                       ([ Serial ResetInput;
                          Log INFO ("Sending: "
                                    ++ strip (command_line "G" 50))%string;
                          SerialRaised (Write (command_line "G" 50));
                          Log ERROR ("Serial error: " ++ reason)%string ]
                        ++ [Sleep 150])
                       (with_link w rest)).
  { rewrite set_position_step. fold s1.
    rewrite (bind_step (UI.send_servo_command "head_rotation") _ s1 w tt s1
               _ _ Hfirst).
    reflexivity. }
  pose proof (preset_loop_healthy (tl UI.home_positions) s1
                (with_link w rest)) as Hloop.
  destruct Hloop as [Ho Hs Hwr He];
    [cbn [s1 with_positions UI.servo_commands]; exact Hc| |exact Hrest|].
  { intros name pos Hin.
    apply (proj1 (home_positions_ok name pos (or_intror Hin))). }
  set (body := fun '(servo, pos) =>
                 UI.set_position servo pos ;;
                 UI.send_servo_command servo ;;
                 sleep 150) in *.
  set (tail := UI.for_each (tl UI.home_positions) body) in *.
  assert (Hall : UI.for_each UI.home_positions body s w
                 = mkRes (Ret tt) (st (tail s1 (with_link w rest)))
                     (([ Serial ResetInput;
                         Log INFO ("Sending: "
                                   ++ strip (command_line "G" 50))%string;
                         SerialRaised (Write (command_line "G" 50));
                         Log ERROR ("Serial error: " ++ reason)%string ]
                       ++ [Sleep 150])
                      ++ evs (tail s1 (with_link w rest)))
                     (env (tail s1 (with_link w rest)))).
  { change UI.home_positions
      with (("head_rotation"%string, 50) :: tl UI.home_positions).
    rewrite for_each_cons. fold tail.
    rewrite (bind_step (body ("head_rotation"%string, 50)) _ s w tt s1 _ _
               Hentry).
    unfold prepend. rewrite Ho. reflexivity. }
  unfold UI.home_position. fold body.
  rewrite (bind_step (UI.for_each UI.home_positions body) _ s w tt _ _ _ Hall).
  rewrite !out_prepend, !st_prepend, !evs_prepend.
  rewrite log_eq, ?out_mk, ?st_mk, ?evs_mk.
  split; [reflexivity|]. split; [|split].
  - rewrite !writes_app, Hwr. reflexivity.
  - apply in_or_app. left. apply in_or_app. left. apply in_or_app. left.
    right. right. right. left. reflexivity.
  - rewrite Hs. cbn [with_positions UI.positions s1].
    destruct (known_positions _ Hk) as [v1 [v2 [v3 [v4 [v5 [v6 [v7 ->]]]]]]].
    vm_compute. reflexivity.
Qed.

Lemma preset_goes_on_after_failed_send_witness :
  writes (evs (UI.home_position UI.initial
                 (mkWorld [ROk; RRaise "write timeout"] [] true)))
  = [ command_line "T" 80; command_line "B" 20; command_line "U" 40;
      command_line "E" 40; command_line "L" 50; command_line "R" 50 ].
Proof.
  exact (proj1 (proj2 (preset_goes_on_after_failed_send UI.initial
                         (mkWorld [ROk; RRaise "write timeout"] [] true)
                         ROk "write timeout" []
                         eq_refl eq_refl eq_refl eq_refl eq_refl))).
Defined.

(** *** Keys that leave the port alone *)

Lemma no_port_event_status (s : UI.ServoKeyboard) (w : world) :
  Forall no_port_event (evs (UI.print_status s w)).
Proof.
  unfold UI.print_status. rewrite bind_get.
  apply Forall_bind; [apply Forall_of_sum|]. intros pos s' w'.
  repeat constructor.
Qed.

(** X24: Only the eleven keys of [port_keys] touch the port, the nine that move
    the selected servo and the two presets: whatever the state and whatever
    key arrives, any other key (a selection, the help, a quit key, a key
    the program does not know) is handled without one call on the port. *)
Theorem other_keys_leave_port_alone (key : string) (s : UI.ServoKeyboard)
  (w : world) :
  UI.key_in key port_keys = true \/
  Forall no_port_event (evs (UI.handle_key key s w)).
Proof.
  destruct (UI.key_in key port_keys) eqn:Hk; [left; reflexivity|right].
  unfold port_keys, UI.key_in in Hk. cbn [existsb] in Hk.
  repeat (apply orb_false_elim in Hk; destruct Hk as [? Hk]).
  unfold UI.handle_key. rewrite bind_get.
  assert (Hstatus : forall s' w',
             Forall no_port_event
               (evs ((UI.print_status ;; ret true) s' w'))).
  { intros s' w'. apply Forall_bind; [apply no_port_event_status|].
    intros; constructor. }
  destruct (str_in key "1234567").
  { apply Forall_bind; [apply Forall_of_sum|]. intros n s1 w1.
    apply Forall_bind; [apply Forall_of_sum|]. intros name s2 w2.
    apply Forall_bind; [constructor|]. intros _ s3 w3. apply Hstatus. }
  unfold UI.key_in. cbn [existsb].
  repeat match goal with
         | H : String.eqb key ?k = false |- _ => rewrite H; clear H
         end.
  cbn [orb].
  repeat match goal with
         | |- Forall _ (evs ((if ?b then _ else _) s w)) => destruct b
         end.
  - apply Forall_bind; [repeat constructor|]. intros _ s' w'. apply Hstatus.
  - apply Forall_bind; [repeat constructor|]. intros; constructor.
  - constructor.
Qed.

(** *** The clamp never bites on the documented range *)

Section RoundingValue.

Lemma shr_1_shifted (M j : Z) (r : shr_record) :
  0 <= j -> shifted M j r -> shifted M (j + 1) (shr_1 r).
Proof.
  intros Hj. unfold shifted, shr_inexact.
  rewrite Z.pow_add_r by lia. change (2 ^ 1) with 2.
  assert (Hq : 0 < 2 ^ j) by (apply Z.pow_pos_nonneg; lia).
  set (q := 2 ^ j) in *. clearbody q.
  destruct r as [m r s]. cbn [shr_m shr_r shr_s].
  intros [Hm H].
  destruct m as [|[p|p|]|p]; cbn [shr_1 shr_m shr_r shr_s].
  - destruct r, s; cbn [orb] in *; split; lia.
  - rewrite Pos2Z.inj_xI in H.
    replace ((2 * Zpos p + 1) * q) with (2 * (Zpos p * q) + q) in H by ring.
    replace (Zpos p * (q * 2)) with (2 * (Zpos p * q)) by ring.
    set (pq := Zpos p * q) in *. clearbody pq.
    destruct r, s; cbn [orb] in *; split; lia.
  - rewrite Pos2Z.inj_xO in H.
    replace (2 * Zpos p * q) with (2 * (Zpos p * q)) in H by ring.
    replace (Zpos p * (q * 2)) with (2 * (Zpos p * q)) by ring.
    set (pq := Zpos p * q) in *. clearbody pq.
    destruct r, s; cbn [orb] in *; split; lia.
  - destruct r, s; cbn [orb] in *; split; lia.
  - lia.
Qed.

Lemma iter_shr_1_shifted (p : positive) (M j : Z) (r : shr_record) :
  0 <= j -> shifted M j r -> shifted M (j + Zpos p) (iter_pos shr_1 p r).
Proof.
  revert j r. induction p as [p IH|p IH|]; intros j r Hj H; cbn [iter_pos].
  - replace (j + Zpos p~1) with (j + 1 + Zpos p + Zpos p) by lia.
    apply IH; [lia|]. apply IH; [lia|]. apply shr_1_shifted; assumption.
  - replace (j + Zpos p~0) with (j + Zpos p + Zpos p) by lia.
    apply IH; [lia|]. apply IH; assumption.
  - apply shr_1_shifted; assumption.
Qed.

Lemma shr_fexp_shifted (M E : Z) :
  0 <= M ->
  exists j,
    0 <= j /\ snd (shr_fexp prec emax M E loc_Exact) = E + j /\
    shifted M j (fst (shr_fexp prec emax M E loc_Exact)).
Proof.
  intros HM. unfold shr_fexp, shr.
  assert (H0 : shifted M 0 (shr_record_of_loc M loc_Exact)).
  { unfold shifted, shr_inexact. cbn. lia. }
  destruct (fexp prec emax (Zdigits2 M + E) - E) as [|p|p].
  - exists 0. cbn [fst snd]. split; [lia|split; [lia|exact H0]].
  - exists (Zpos p). cbn [fst snd]. split; [lia|split; [reflexivity|]].
    apply (iter_shr_1_shifted p M 0); [lia|exact H0].
  - exists 0. cbn [fst snd]. split; [lia|split; [lia|exact H0]].
Qed.

Lemma shifted_le (M j : Z) (r : shr_record) :
  0 <= j -> shifted M j r -> shr_m r * 2 ^ j <= M.
Proof.
  intros Hj [_ H]. destruct (shr_inexact r); lia.
Qed.

(** Rounding to nearest stays below an integer bound of the exact value. *)
Lemma round_shifted_le (M j B : Z) (r : shr_record) :
  0 <= j -> shifted M j r -> M <= B * 2 ^ j ->
  round_nearest_even (shr_m r) (loc_of_shr_record r) <= B.
Proof.
  intros Hj [Hm H] HB.
  assert (Hq : 0 < 2 ^ j) by (apply Z.pow_pos_nonneg; lia).
  set (q := 2 ^ j) in *. clearbody q.
  unfold shr_inexact in H. destruct r as [m [|] [|]];
    cbn [shr_m shr_r shr_s orb loc_of_shr_record round_nearest_even] in *;
    try destruct (Z.even m); nia.
Qed.

Lemma small_digits (m n e : Z) :
  0 <= m -> 0 <= n <= 100 -> e <= 0 -> m <= n * 2 ^ (- e) ->
  Zdigits2 m <= 7 - e.
Proof.
  intros Hm Hn He Hle. apply Zdigits2_le; [lia|]. split; [exact Hm|].
  assert (Hq : 0 < 2 ^ (- e)) by (apply Z.pow_pos_nonneg; lia).
  replace (7 - e) with (7 + - e) by lia.
  rewrite Z.pow_add_r by lia. change (2 ^ 7) with 128. nia.
Qed.

(** Rounding an exact value of at most [n] gives a float of at most [n]. *)
Lemma binary_round_aux_le (s : bool) (M E n : Z) :
  0 <= M -> E < 0 -> 0 <= n <= 100 -> M <= n * 2 ^ (- E) ->
  magnitude_le (binary_round_aux prec emax s M E loc_Exact) n.
Proof.
  intros HM HE Hn HV. unfold binary_round_aux.
  destruct (shr_fexp_shifted M E HM) as [j [Hj [He1 Hsh1]]].
  pose proof (shr_fexp_bounds M E loc_Exact HM) as [_ He1'].
  destruct (shr_fexp prec emax M E loc_Exact) as [r1 e1].
  cbn [fst snd] in *.
  pose proof (small_digits M n E HM Hn ltac:(lia) HV) as Hd1.
  assert (Hd1' : 0 <= Zdigits2 M) by (destruct M; simpl; lia).
  assert (He1neg : e1 < 0).
  { rewrite He1'. apply Z.max_lub_lt; [exact HE|].
    assert (fexp prec emax (Zdigits2 M + E) <= -46)
      by (apply fexp_le; lia).
    lia. }
  assert (HB1 : M <= (n * 2 ^ (- e1)) * 2 ^ j).
  { rewrite <- Z.mul_assoc, <- Z.pow_add_r by lia.
    replace (- e1 + j) with (- E) by lia. exact HV. }
  pose proof (round_shifted_le M j _ r1 Hj Hsh1 HB1) as Hm2.
  pose proof (round_nearest_even_bounds (shr_m r1) (loc_of_shr_record r1))
    as Hr.
  set (m2 := round_nearest_even (shr_m r1) (loc_of_shr_record r1)) in *.
  assert (Hm2' : 0 <= m2) by (destruct Hsh1; lia).
  destruct (shr_fexp_shifted m2 e1 Hm2') as [j' [Hj' [He3 Hsh3]]].
  pose proof (shr_fexp_bounds m2 e1 loc_Exact Hm2') as [_ He3'].
  destruct (shr_fexp prec emax m2 e1 loc_Exact) as [r3 e3].
  cbn [fst snd] in *.
  pose proof (small_digits m2 n e1 Hm2' Hn ltac:(lia) Hm2) as Hd2.
  assert (Hd2' : 0 <= Zdigits2 m2) by (destruct m2; simpl; lia).
  assert (He3neg : e3 < 0).
  { rewrite He3'. apply Z.max_lub_lt; [lia|].
    assert (fexp prec emax (Zdigits2 m2 + e1) <= -46)
      by (apply fexp_le; lia).
    lia. }
  pose proof (shifted_le m2 j' r3 Hj' Hsh3) as Hm3.
  assert (Hq : 0 < 2 ^ j') by (apply Z.pow_pos_nonneg; lia).
  assert (Hsplit : 2 ^ (- e1) = 2 ^ (- e3) * 2 ^ j').
  { rewrite <- Z.pow_add_r by lia. f_equal. lia. }
  assert (Hq3 : 0 < 2 ^ (- e3)) by (apply Z.pow_pos_nonneg; lia).
  assert (Hfin : shr_m r3 <= n * 2 ^ (- e3)).
  { rewrite Hsplit in Hm2. nia. }
  destruct Hsh3 as [Hm3' _].
  destruct (shr_m r3) as [|p|p]; [exact I| |lia].
  replace (e3 <=? emax - prec) with true
    by (symmetry; apply Z.leb_le; unfold emax, prec; lia).
  split; assumption.
Qed.

End RoundingValue.

Lemma float_of_exact_int (n : Z) :
  0 <= n <= 100 ->
  match float_of_int n with
  | inr (S754_zero _) => n = 0
  | inr (S754_finite false m e) => e <= 0 /\ Zpos m = n * 2 ^ (- e)
  | _ => False
  end.
Proof.
  intros Hn.
  assert (H : forallb exact_int_ok (seq 0 101) = true)
    by (vm_compute; reflexivity).
  rewrite forallb_forall in H.
  specialize (H (Z.to_nat n) ltac:(apply in_seq; lia)).
  unfold exact_int_ok in H. rewrite Z2Nat.id in H by lia.
  destruct (float_of_int n) as [e|[s|s| |[|] m e]]; try discriminate H.
  - apply Nat.eqb_eq in H. lia.
  - apply andb_prop in H. destruct H as [He Hm].
    apply Z.leb_le in He. apply Z.eqb_eq in Hm. split; assumption.
Qed.

Lemma compare_cont_alias (x y : positive) :
  PosDef.Pos.compare_cont Eq x y = (x ?= y)%positive.
Proof. reflexivity. Qed.

Lemma sfleb_below_one (m : positive) (e : Z) :
  SFleb (S754_finite false m e) f_1_0 = true ->
  e < -52 \/ (e = -52 /\ (m <= 4503599627370496)%positive).
Proof.
  unfold SFleb, SFcompare, f_1_0. intros H.
  destruct (Z.compare_spec e (-52)) as [He|He|He];
    [right|left; exact He|discriminate H].
  split; [exact He|]. rewrite compare_cont_alias in H.
  intros Hgt. rewrite Hgt in H. discriminate H.
Qed.

Lemma sfleb_above_minus_one (m : positive) (e : Z) :
  SFleb f_m1_0 (S754_finite true m e) = true ->
  e < -52 \/ (e = -52 /\ (m <= 4503599627370496)%positive).
Proof.
  unfold SFleb, SFcompare, f_m1_0. intros H.
  destruct (Z.compare_spec (-52) e) as [He|He|He];
    [right|discriminate H|left; exact He].
  split; [symmetry; exact He|]. rewrite compare_cont_alias in H.
  apply Pos.le_nlt. intros Hlt. unfold Pos.lt in Hlt.
  rewrite Hlt in H. discriminate H.
Qed.

(** A float64 of [-1.0, 1.0] has a magnitude of at most 1. *)
Lemma unit_range_magnitude (x : float) :
  is_float64 x = true -> in_unit_range x = true ->
  match x with
  | S754_zero _ => True
  | S754_finite _ m e => e <= -52 /\ Zpos m <= 2 ^ (- e)
  | _ => False
  end.
Proof.
  intros Hv Hr. pose proof (unit_range_shape x Hv Hr) as Hs.
  destruct x as [s|s| |s m e]; try exact Hs. destruct Hs as [Hm He].
  split; [exact He|].
  unfold in_unit_range, fleb in Hr.
  apply andb_prop in Hr. destruct Hr as [Hlo Hhi].
  assert (Hcase : e < -52 \/
                  (e = -52 /\ (m <= 4503599627370496)%positive)).
  { destruct s; [exact (sfleb_above_minus_one m e Hlo)
                |exact (sfleb_below_one m e Hhi)]. }
  clear Hlo Hhi Hv.
  destruct Hcase as [Hlt|[-> Hle]].
  - assert (2 ^ 53 <= 2 ^ (- e)) by (apply Z.pow_le_mono_r; lia). lia.
  - change (2 ^ (- -52)) with (Zpos 4503599627370496).
    apply Pos2Z.pos_le_pos. exact Hle.
Qed.

Lemma fmul_magnitude (x y : float) (n : Z) :
  is_float64 x = true -> in_unit_range x = true -> 0 <= n <= 100 ->
  float_of_int n = inr y ->
  magnitude_le (fmul x y) n.
Proof.
  intros Hv Hr Hn Hy.
  pose proof (unit_range_magnitude x Hv Hr) as Hx.
  pose proof (float_of_exact_int n Hn) as Hyn. rewrite Hy in Hyn.
  destruct x as [sx|sx| |sx mx ex]; try contradiction;
    destruct y as [sy|sy| |[|] my ey]; try contradiction; try exact I.
  destruct Hx as [Hex Hmx]. destruct Hyn as [Hey Hmy].
  unfold fmul, SFmul. apply binary_round_aux_le; try lia.
  rewrite Pos2Z.inj_mul, Hmy.
  replace (- (ex + ey)) with (- ex + - ey) by lia.
  rewrite Z.pow_add_r by lia.
  assert (0 < 2 ^ (- ey)) by (apply Z.pow_pos_nonneg; lia).
  nia.
Qed.

Lemma int_of_small_float (f : float) (n : Z) :
  0 <= n -> magnitude_le f n ->
  exists v, int_of_float f = inr v /\ - n <= v <= n.
Proof.
  intros Hn Hf. destruct f as [s|s| |s m e]; try contradiction.
  - exists 0. split; [reflexivity|lia].
  - destruct Hf as [He Hm]. unfold int_of_float.
    replace (0 <=? e) with false by (symmetry; apply Z.leb_gt; exact He).
    rewrite Z.shiftr_div_pow2 by lia.
    assert (Hq : 0 < 2 ^ (- e)) by (apply Z.pow_pos_nonneg; lia).
    assert (Ha : 0 <= Zpos m / 2 ^ (- e) <= n).
    { split; [apply Z.div_pos; lia|].
      apply Z.div_le_upper_bound; [exact Hq|]. lia. }
    eexists. split; [reflexivity|]. destruct s; lia.
Qed.

(** X25: For a field in [-1.0, 1.0] and a speed cap in [0, 100], the integer
    [int(x * max_speed)] has a magnitude of at most the cap, so the clamp to
    [-100, 100] leaves it as it is: the value on the wire is the truncated
    product itself, and the cap is never exceeded. *)
Theorem in_range_command_is_below_cap (x : float) (max_speed : Z) :
  is_float64 x = true -> in_unit_range x = true -> 0 <= max_speed <= 100 ->
  exists f v,
    fmul_int x max_speed = inr f /\ int_of_float f = inr v /\
    - max_speed <= v <= max_speed /\
    drive_value x max_speed = inr v.
Proof.
  intros Hv Hr Hn.
  destruct (float_of_small_int max_speed Hn) as [y [Hy _]].
  pose proof (fmul_magnitude x y max_speed Hv Hr Hn Hy) as Hm.
  destruct (int_of_small_float _ max_speed ltac:(lia) Hm) as [v [Hi Hb]].
  exists (fmul x y), v.
  assert (Hf : fmul_int x max_speed = inr (fmul x y))
    by (unfold fmul_int; rewrite Hy; reflexivity).
  split; [exact Hf|]. split; [exact Hi|]. split; [exact Hb|].
  unfold drive_value. rewrite Hf, Hi. f_equal. unfold clamp. lia.
Qed.

Lemma in_range_command_is_below_cap_witness :
  drive_value f_m0_5 75 = inr (-37).
Proof.
  destruct (in_range_command_is_below_cap f_m0_5 75 eq_refl eq_refl
              ltac:(lia)) as [f [v [Hf [Hi [_ Hd]]]]].
  vm_compute in Hf. injection Hf as <-.
  vm_compute in Hi. injection Hi as <-. exact Hd.
Defined.

(** * The status display *)

Example five_is_float_of_5 : float_of_int 5 = inr Display.five.
Proof. vm_compute. reflexivity. Qed.

(** X26: For every position of [0, 100], the bar that [print_status] draws has
    exactly twenty cells: [int(pos / 5)] is the floor of the quotient, so the
    bar is [pos // 5] full cells followed by light cells up to twenty; a
    position of 100 fills it, and the bar never overflows. *)
Theorem status_bar_has_twenty_cells (pos : Z) :
  0 <= pos <= 100 ->
  0 <= pos / 5 <= 20 /\
  Display.bar pos
  = inr (Display.str_mul Display.full_block (pos / 5)
         ++ Display.str_mul Display.light_shade (20 - pos / 5))%string.
Proof.
  intros Hp.
  assert (Hq : 0 <= pos / 5 <= 20).
  { split; [apply Z.div_pos; lia|].
    apply Z.div_le_upper_bound; lia. }
  split; [exact Hq|].
  assert (H : forallb bar_ok (seq 0 101) = true) by (vm_compute; reflexivity).
  rewrite forallb_forall in H.
  specialize (H (Z.to_nat pos) ltac:(apply in_seq; lia)).
  unfold bar_ok in H. rewrite Z2Nat.id in H by lia.
  destruct (Display.bar pos) as [e|b]; [discriminate H|].
  apply String.eqb_eq in H. subst b. unfold Display.str_mul.
  replace (Z.to_nat (pos / 5)) with (Z.to_nat pos / 5)%nat.
  - replace (Z.to_nat (20 - pos / 5)) with (20 - Z.to_nat pos / 5)%nat;
      [reflexivity|].
    rewrite Z2Nat.inj_sub by lia.
    rewrite (Z2Nat.inj_div pos 5) by lia. reflexivity.
  - rewrite (Z2Nat.inj_div pos 5) by lia. reflexivity.
Qed.

Lemma status_bar_has_twenty_cells_witness :
  Display.bar 99
  = inr (Display.str_mul Display.full_block 19
         ++ Display.light_shade)%string.
Proof.
  exact (proj2 (status_bar_has_twenty_cells 99 ltac:(lia))).
Defined.

(** * The gesture controller: counting fingers *)

Lemma list_index_in_range {A} (l : list A) (i : Z) (d : A) :
  0 <= i < Z.of_nat (List.length l) ->
  list_index l i = inr (nth (Z.to_nat i) l d).
Proof.
  intros Hi. unfold list_index.
  replace (i <? 0) with false by (symmetry; apply Z.ltb_ge; lia).
  replace (0 <=? i) with true by (symmetry; apply Z.leb_le; lia).
  replace (i <? Z.of_nat (List.length l)) with true
    by (symmetry; apply Z.ltb_lt; lia).
  cbn [andb].
  destruct (nth_error l (Z.to_nat i)) as [a|] eqn:E.
  - f_equal. symmetry. apply nth_error_nth. exact E.
  - exfalso. apply nth_error_None in E. lia.
Qed.

Lemma list_index_out_of_range {A} (l : list A) (i : Z) :
  Z.of_nat (List.length l) <= i ->
  list_index l i = inl (IndexError "list index out of range").
Proof.
  intros Hi. unfold list_index.
  replace (i <? 0) with false by (symmetry; apply Z.ltb_ge; lia).
  replace (i <? Z.of_nat (List.length l)) with false
    by (symmetry; apply Z.ltb_ge; lia).
  rewrite andb_false_r. reflexivity.
Qed.

Lemma finger_indices :
  list_index Gesture.finger_tips 0 = inr 4 /\
  list_index Gesture.finger_tips 1 = inr 8 /\
  list_index Gesture.finger_tips 2 = inr 12 /\
  list_index Gesture.finger_tips 3 = inr 16 /\
  list_index Gesture.finger_tips 4 = inr 20 /\
  list_index Gesture.finger_mcp 0 = inr 2 /\
  list_index Gesture.finger_mcp 1 = inr 5 /\
  list_index Gesture.finger_mcp 2 = inr 9 /\
  list_index Gesture.finger_mcp 3 = inr 13 /\
  list_index Gesture.finger_mcp 4 = inr 17.
Proof. repeat split. Qed.

Lemma count_fingers_unfold (landmark : list Gesture.Landmark) :
  Gesture.count_fingers landmark
  = match Gesture.raise_fingers [1; 2; 3; 4] landmark [0; 0; 0; 0; 0] with
    | inl e => inl e
    | inr fingers =>
        match list_index landmark 4 with
        | inl e => inl e
        | inr tip =>
            match list_index landmark 2 with
            | inl e => inl e
            | inr mcp =>
                if SFltb (Gesture.x mcp) (Gesture.x tip)
                then match Gesture.list_assign fingers 0 1 with
                     | inl e => inl e
                     | inr fingers' => inr (fold_right Z.add 0 fingers')
                     end
                else inr (fold_right Z.add 0 fingers)
            end
        end
    end.
Proof. reflexivity. Qed.

Lemma list_index_error {A} (l : list A) (i : Z) (e : exn) :
  list_index l i = inl e -> e = IndexError "list index out of range".
Proof.
  unfold list_index.
  destruct ((0 <=? (if i <? 0 then i + Z.of_nat (List.length l) else i))
            && ((if i <? 0 then i + Z.of_nat (List.length l) else i)
                <? Z.of_nat (List.length l))).
  - destruct (nth_error l _); [discriminate|]. intros [= <-]. reflexivity.
  - intros [= <-]. reflexivity.
Qed.

Ltac assign_finger :=
  match goal with
  | |- context [Gesture.list_assign ?f ?i ?v] =>
      let r := eval vm_compute in (Gesture.list_assign f i v) in
      change (Gesture.list_assign f i v) with r
  end.

Ltac compare_fingers :=
  match goal with
  | |- context [if SFltb ?a ?b then _ else _] => destruct (SFltb a b)
  end.

Ltac read_finger landmark :=
  match goal with
  | |- context [match list_index landmark ?i with _ => _ end] =>
      let E := fresh "E" in
      destruct (list_index landmark i) as [?e|?l] eqn:E;
      [apply list_index_error in E; subst; eexists; reflexivity|]
  end.

(** X27: [count_fingers] returns a count from 0 to 5 when the hand has its 21
    landmarks, whatever their coordinates (a coordinate that is not a number
    counts as a finger that is down); with fewer landmarks it raises
    [IndexError]. *)
Theorem count_fingers_is_at_most_five (landmark : list Gesture.Landmark) :
  ((21 <= List.length landmark)%nat ->
   exists n, Gesture.count_fingers landmark = inr n /\ 0 <= n <= 5) /\
  ((List.length landmark < 21)%nat ->
   exists text, Gesture.count_fingers landmark = inl (IndexError text)).
Proof.
  destruct finger_indices
    as [T0 [T1 [T2 [T3 [T4 [M0 [M1 [M2 [M3 M4]]]]]]]]].
  rewrite count_fingers_unfold. cbn [Gesture.raise_fingers].
  rewrite T1, T2, T3, T4, M1, M2, M3, M4.
  split; intros Hlen.
  - assert (Hget : forall i, 0 <= i < 21 ->
              list_index landmark i
              = inr (nth (Z.to_nat i) landmark
                       (Gesture.mkLandmark f_0_0 f_0_0)))
      by (intros i Hi; apply list_index_in_range; lia).
    rewrite (Hget 8), (Hget 5), (Hget 12), (Hget 9), (Hget 16), (Hget 13),
      (Hget 20), (Hget 17), (Hget 4), (Hget 2) by lia.
    cbv beta iota.
    repeat (first [compare_fingers | assign_finger]; cbv beta iota);
      vm_compute; eexists; (split; [reflexivity|split; discriminate]).
  - rewrite (list_index_out_of_range landmark 20) by lia.
    cbv beta iota.
    repeat (first [read_finger landmark | compare_fingers | assign_finger];
            cbv beta iota);
      eexists; reflexivity.
Qed.

Lemma count_fingers_is_at_most_five_witness :
  exists text, Gesture.count_fingers [] = inl (IndexError text).
Proof.
  exact (proj2 (count_fingers_is_at_most_five [])
           ltac:(cbn; lia)).
Defined.
